(** * FSM-driven interactor: a shallow embedding of the TypeScript sources

    The development follows the classes of the repository:
    [EventSpec] (out/EventSpec.js), [Action] (out/Action.js), [FSM] and
    [FSMInteractor] (out/FSMInteractor.js, src/FSMInteractor.ts).

    Objects that are shared and mutated (the [Region]s) live in a store
    and are named by references; objects that are owned by one holder
    (event specifications, actions, transitions, the FSM inside its
    interactor) are records passed through the methods, a method
    returning the updated receiver.  [State] objects are referred to by
    their position in the FSM's state array, so that the cyclic
    state/transition graph and the in-place binding done by [_finalize]
    keep their aliasing.

    Numbers are the numbers of the sources: IEEE 754 doubles, here the
    primitive binary64 floats of Rocq.  The sum is the rounded sum, and
    the comparisons are those of the doubles: false when an operand is
    NaN, with +0 equal to -0. *)

From stdpp Require Import base option list strings gmap.
From Stdlib Require Import ZArith Lia QArith PrimFloat SpecFloat FloatOps.

Local Open Scope float_scope.
Local Open Scope string_scope.
Local Open Scope list_scope.

(** ** Numbers *)

(** A JavaScript number. *)
Definition number := float.
Bind Scope float_scope with number.

(** [a <= b], [a >= b] and [a === b] on numbers.  [a >= b] holds
    exactly when [b <= a] does: both are false when an operand is NaN.
    [a !== b] is the negation of [a === b], so NaN differs from
    itself. *)
Definition number_le (a b : number) : bool := (a <=? b)%float.
Definition number_ge (a b : number) : bool := (b <=? a)%float.
Definition number_eq (a b : number) : bool := (a =? b)%float.

(** ** References and the world *)

(** A reference to a heap object (a [Region], a [Root]). *)
Definition loc := positive.

(** The eight event types of EventSpec.js ([evtTypeStrings]). *)
Inductive EventType :=
  | press | release | release_none | enter | exit | move_inside
  | any | nevermatch.

(** The five action types of Action.js ([actionTypeStrings]). *)
Inductive ActionType :=
  | set_image | clear_image | none | print | print_event.

(** The raw events handed to [dispatchRawEvent]:
    ['press' | 'move' | 'release']. *)
Inductive RawEvent := raw_press | raw_move | raw_release.

Global Instance EventType_eq_dec : EqDecision EventType.
Proof. solve_decision. Defined.
Global Instance ActionType_eq_dec : EqDecision ActionType.
Proof. solve_decision. Defined.
Global Instance RawEvent_eq_dec : EqDecision RawEvent.
Proof. solve_decision. Defined.

(** The string behind an event type: what [evtType + "("] prints and
    what [if (this.evtType)] tests. *)
Definition evtTypeString (e : EventType) : string :=
  match e with
  | press => "press" | release => "release"
  | release_none => "release_none" | enter => "enter" | exit => "exit"
  | move_inside => "move_inside" | any => "any"
  | nevermatch => "nevermatch"
  end.

(** JavaScript truthiness of a string: every string but the empty one. *)
Definition truthy (s : string) : bool :=
  match s with EmptyString => false | String _ _ => true end.

(** The double quote character, for the messages that contain one. *)
Definition dquote : string := String (Ascii.ascii_of_nat 34) EmptyString.

Module Region.
(** Modelled from the spec: the Region class (Region.js is not among
    the sources).  A named rectangle with a position, a size and a
    mutable image locator; only the image locator changes after
    construction, through the actions. *)
Record t := mk {
  name : string;
  x : number; y : number; w : number; h : number;
  imageLoc : string
}.

Definition set_imageLoc (v : string) (r : t) : t :=
  mk (name r) (x r) (y r) (w r) (h r) v.
End Region.

(** What reaches the drawing context in [FSMInteractor.draw]. *)
Inductive CanvasOp :=
  | ctx_save
  | ctx_translate (dx dy : number)
  | region_draw (reg : loc) (showDebugging : bool)
  | ctx_restore.

(** The world outside the receiver of a method.
    - [heap]: the Region objects, by reference; every reference denotes
      an object, as in JavaScript;
    - [nextLoc]: the next reference [new Region] returns;
    - [console]: the lines written by [console.log];
    - [errors]: the messages handed to [Err.emit];
    - [errThrows]: whether [Err.emit] throws after reporting;
    - [damaged]: the [Root] objects that received [damage()];
    - [canvas]: the operations received by the drawing context;
    - [delivered]: the calls [dispatchRawEvent] made to
      [FSM.actOnEvent], recorded at the call sites (an observation of
      the run, read by no method). *)
Record World := mkWorld {
  heap : loc → Region.t;
  nextLoc : loc;
  console : list string;
  errors : list string;
  errThrows : bool;
  damaged : list loc;
  canvas : list CanvasOp;
  delivered : list (EventType * option loc)
}.

Definition set_heap (f : (loc → Region.t) → (loc → Region.t)) (σ : World) : World :=
  mkWorld (f (heap σ)) (nextLoc σ) (console σ) (errors σ) (errThrows σ)
          (damaged σ) (canvas σ) (delivered σ).
Definition set_nextLoc (n : loc) (σ : World) : World :=
  mkWorld (heap σ) n (console σ) (errors σ) (errThrows σ)
          (damaged σ) (canvas σ) (delivered σ).
Definition console_log (line : string) (σ : World) : World :=
  mkWorld (heap σ) (nextLoc σ) (console σ ++ [line]) (errors σ) (errThrows σ)
          (damaged σ) (canvas σ) (delivered σ).
Definition report_error (msg : string) (σ : World) : World :=
  mkWorld (heap σ) (nextLoc σ) (console σ) (errors σ ++ [msg]) (errThrows σ)
          (damaged σ) (canvas σ) (delivered σ).
Definition notify_damage (root : loc) (σ : World) : World :=
  mkWorld (heap σ) (nextLoc σ) (console σ) (errors σ) (errThrows σ)
          (damaged σ ++ [root]) (canvas σ) (delivered σ).
Definition canvas_op (op : CanvasOp) (σ : World) : World :=
  mkWorld (heap σ) (nextLoc σ) (console σ) (errors σ) (errThrows σ)
          (damaged σ) (canvas σ ++ [op]) (delivered σ).
Definition record_delivery (e : EventType) (reg : option loc) (σ : World) : World :=
  mkWorld (heap σ) (nextLoc σ) (console σ) (errors σ) (errThrows σ)
          (damaged σ) (canvas σ) (delivered σ ++ [(e, reg)]).

(** The world with the record of deliveries replaced by [d]. *)
Definition withDelivered (d : list (EventType * option loc)) (σ : World)
    : World :=
  mkWorld (heap σ) (nextLoc σ) (console σ) (errors σ) (errThrows σ)
          (damaged σ) (canvas σ) d.

(** Assignment to a field of the object behind [l]. *)
Definition heap_update (l : loc) (f : Region.t → Region.t)
    (hp : loc → Region.t) : loc → Region.t :=
  λ l', if decide (l' = l) then f (hp l') else hp l'.

(** The store once [l] denotes the new object [obj]. *)
Definition heap_new (l : loc) (obj : Region.t)
    (hp : loc → Region.t) : loc → Region.t :=
  λ l', if decide (l' = l) then obj else hp l'.

(** ** The monad of methods: state and exceptions *)

Inductive Outcome (A : Type) :=
  | Normal (a : A)
  | Thrown (msg : string).
Arguments Normal {A} a.
Arguments Thrown {A} msg.

Definition M (A : Type) : Type := World → Outcome A * World.

Global Instance M_ret : MRet M := λ A a σ, (Normal a, σ).
Global Instance M_bind : MBind M := λ A B k m σ,
  match m σ with
  | (Normal a, σ') => k a σ'
  | (Thrown msg, σ') => (Thrown msg, σ')
  end.

Definition getWorld : M World := λ σ, (Normal σ, σ).
Definition modifyWorld (f : World → World) : M unit := λ σ, (Normal (), f σ).
Definition throw {A} (msg : string) : M A := λ σ, (Thrown msg, σ).

(** [for (const a of l) body(a)] and [l.forEach(body)]. *)
Fixpoint forEach {A} (l : list A) (body : A → M unit) : M unit :=
  match l with
  | [] => mret ()
  | a :: l' => body a ;; forEach l' body
  end.

(** A loop whose body updates the receiver (or a local variable). *)
Fixpoint forEachWith {A S} (l : list A) (body : A → S → M S) (s : S) : M S :=
  match l with
  | [] => mret s
  | a :: l' => s' ← body a s; forEachWith l' body s'
  end.

(** A loop that rebuilds each element of an array of owned objects in
    place. *)
Fixpoint forEachBind {A} (l : list A) (body : A → M A) : M (list A) :=
  match l with
  | [] => mret []
  | a :: l' => a' ← body a; l'' ← forEachBind l' body; mret (a' :: l'')
  end.

Module Err.
(** Modelled from the spec: Err.emit (Err.js is not among the
    sources).  The message goes to the single error channel; whether
    the call then throws is the world's [errThrows]: the spec has
    [emit] abort the operation, the callers in the sources are written
    to go on after it. *)
Definition emit (msg : string) : M unit := λ σ,
  if errThrows σ then (Thrown msg, report_error msg σ)
  else (Normal (), report_error msg σ).
End Err.

(** ** EventSpec.js *)

(** [for (let reg of regionList) if (name === reg.name) ...]: the first
    region of the list that carries the name, by strict string
    equality. *)
Fixpoint findRegionNamed (hp : loc → Region.t) (nm : string)
    (regionList : list loc) : option loc :=
  match regionList with
  | [] => None
  | reg :: rest =>
      if String.eqb nm (Region.name (hp reg)) then Some reg
      else findRegionNamed hp nm rest
  end.

Module EventSpec.
Record t := mk {
  _evtType : EventType;
  _regionName : string;
  _region : option loc
}.

(** [constructor(evtTyp, regionName)]: the region is bound later. *)
Definition new (evtTyp : EventType) (regionName : string) : t :=
  mk evtTyp regionName None.

Definition set_region (v : option loc) (this : t) : t :=
  mk (_evtType this) (_regionName this) v.

(** [bindRegion(regionList)], EventSpec.js lines 29-53. *)
Definition bindRegion (regionList : list loc) (this : t) : M t :=
  if String.eqb (_regionName this) "*" then
    mret (set_region None this)
  else
    σ ← getWorld;
    match findRegionNamed (heap σ) (_regionName this) regionList with
    | Some reg => mret (set_region (Some reg) this)
    | None =>
        if bool_decide (_evtType this = nevermatch) then mret this
        else if (bool_decide (_evtType this = release_none)
                 || bool_decide (_evtType this = any))
                && String.eqb (_regionName this) EmptyString
        then mret this
        else
          Err.emit ("Region '" +:+ _regionName this +:+ "'" +:+
                    " in event specification does not match any region.") ;;
          mret this
    end.

(** [match(evtType, regn)], EventSpec.js lines 58-100.  The two flags
    are computed first, then the event type of the specification
    selects what is returned. *)
Definition match_ (evtType : EventType) (regn : option loc) (this : t) : bool :=
  let event_match :=
    if bool_decide (_evtType this = evtType) then true else false in
  let reg_match :=
    if bool_decide (_region this = regn)
       || (String.eqb (_regionName this) "*"
           && bool_decide (_region this = None))
    then true else false in
  if truthy (evtTypeString (_evtType this)) then
    if bool_decide (_evtType this = nevermatch) then false
    else if bool_decide (_evtType this = any) then reg_match
    else if bool_decide (_evtType this = release_none) then event_match
    else event_match && reg_match
  else false.
End EventSpec.

(** ** Action.js *)

Module Action.
Record t := mk {
  _actType : ActionType;
  _onRegionName : string;
  _param : string;
  _onRegion : option loc
}.

(** [constructor(actType, regionName, param)]; an absent name or
    parameter is the empty string. *)
Definition new (actType : ActionType) (regionName param : option string) : t :=
  mk actType (default EmptyString regionName) (default EmptyString param) None.

Definition set_onRegion (v : option loc) (this : t) : t :=
  mk (_actType this) (_onRegionName this) (_param this) v.

(** Modelled from the spec: the setter of [imageLoc] in Region
    (Region.js is not among the sources), as used in
    [onRegion.imageLoc = v]: it writes the image slot of the object. *)
Definition assign_imageLoc (reg : loc) (v : string) : M unit :=
  modifyWorld (set_heap (heap_update reg (Region.set_imageLoc v))).

(** [execute(evtType, evtReg)], Action.js lines 31-68. *)
Definition execute (evtType : EventType) (evtReg : option loc) (this : t) : M unit :=
  if bool_decide (_actType this = none) then mret ()
  else if bool_decide (_actType this = set_image) then
    match _onRegion this with
    | Some reg => assign_imageLoc reg (_param this)
    | None => mret ()
    end
  else if bool_decide (_actType this = clear_image) then
    match _onRegion this with
    | Some reg => assign_imageLoc reg EmptyString
    | None => mret ()
    end
  else if bool_decide (_actType this = print) then
    modifyWorld (console_log (_param this))
  else if bool_decide (_actType this = print_event) then
    σ ← getWorld;
    let event_dump :=
      match evtReg with
      | Some reg =>
          evtTypeString evtType +:+ "(" +:+ Region.name (heap σ reg) +:+ ")"
      | None => evtTypeString evtType +:+ "(" +:+ "undefined" +:+ ")"
      end in
    modifyWorld (console_log (_param this +:+ event_dump))
  else mret ().

(** [bindRegion(regionList)], Action.js lines 72-89. *)
Definition bindRegion (regionList : list loc) (this : t) : M t :=
  σ ← getWorld;
  match findRegionNamed (heap σ) (_onRegionName this) regionList with
  | Some reg => mret (set_onRegion (Some reg) this)
  | None =>
      if bool_decide (_actType this = none)
         || bool_decide (_actType this = print)
         || bool_decide (_actType this = print_event)
      then mret (set_onRegion None this)
      else
        Err.emit ("Region '" +:+ _onRegionName this +:+
                  "' in action does not match any region.") ;;
        mret this
  end.
End Action.

(** ** Transitions and states *)

Module Transition.
(** Modelled from the spec: the Transition class (Transition.js is
    not among the sources): one EventSpec, an ordered list of Actions,
    a target-state name and the State it resolves to, here the
    position of that State in the FSM's state array. *)
Record t := mk {
  onEvent : EventSpec.t;
  actions : list Action.t;
  targetName : string;
  target : option nat
}.

Definition set_target (v : option nat) (this : t) : t :=
  mk (onEvent this) (actions this) (targetName this) v.
Definition set_onEvent (v : EventSpec.t) (this : t) : t :=
  mk v (actions this) (targetName this) (target this).
Definition set_actions (v : list Action.t) (this : t) : t :=
  mk (onEvent this) v (targetName this) (target this).

(** Modelled from the spec: Transition.match, the match of the
    transition's EventSpec. *)
Definition match_ (evtType : EventType) (regn : option loc) (this : t) : bool :=
  EventSpec.match_ evtType regn (onEvent this).
End Transition.

Module State.
(** Modelled from the spec: the State class (State.js is not among the
    sources): a name and an ordered list of Transitions. *)
Record t := mk {
  name : string;
  transitions : list Transition.t
}.

Definition set_transitions (v : list Transition.t) (this : t) : t :=
  mk (name this) v.
End State.

(** The position of the first state of the array that carries the
    name. *)
Fixpoint findStateNamed (nm : string) (stateList : list State.t) : option nat :=
  match stateList with
  | [] => None
  | st :: rest =>
      if String.eqb nm (State.name st) then Some 0%nat
      else S <$> findStateNamed nm rest
  end.

(** Modelled from the spec: Transition.bindTarget resolves the target
    name against the states by name; a name that resolves to no state is
    reported. *)
Definition Transition_bindTarget (stateList : list State.t)
    (this : Transition.t) : M Transition.t :=
  match findStateNamed (Transition.targetName this) stateList with
  | Some i => mret (Transition.set_target (Some i) this)
  | None =>
      Err.emit ("State '" +:+ Transition.targetName this +:+
                "' in transition does not match any state.") ;;
      mret this
  end.

(** ** The description handed to [FSM.fromJson]

    The description is taken as typed by Check.js (not among the
    sources); what [FSM.fromJson] itself tests, that the two lists are
    arrays, stays: [None] is a value that is not an array. *)

Record Region_json := {
  rj_name : string;
  rj_x : number; rj_y : number; rj_w : number; rj_h : number;
  rj_imageLoc : string
}.
Record EventSpec_json := { ej_evtType : EventType; ej_region : string }.
Record Action_json := {
  aj_act : ActionType;
  aj_region : option string;
  aj_param : option string
}.
Record Transition_json := {
  tj_onEvent : EventSpec_json;
  tj_target : string;
  tj_actions : list Action_json
}.
Record State_json := { sj_name : string; sj_transitions : list Transition_json }.
Record FSM_json := {
  fj_regions : option (list Region_json);
  fj_states : option (list State_json)
}.

(** [EventSpec.fromJson] and [Action.fromJson] on typed values. *)
Definition EventSpec_fromJson (evt : EventSpec_json) : EventSpec.t :=
  EventSpec.new (ej_evtType evt) (ej_region evt).
Definition Action_fromJson (jsonVal : Action_json) : Action.t :=
  Action.new (aj_act jsonVal)
             (Some (default EmptyString (aj_region jsonVal)))
             (Some (default EmptyString (aj_param jsonVal))).

(** Modelled from the spec: Transition.fromJson and State.fromJson
    build the objects of a transition record and of a state record,
    unbound. *)
Definition Transition_fromJson (tj : Transition_json) : Transition.t :=
  Transition.mk (EventSpec_fromJson (tj_onEvent tj))
                (Action_fromJson <$> tj_actions tj) (tj_target tj) None.
(** Modelled from the spec: State.fromJson, see [Transition_fromJson]. *)
Definition State_fromJson (sj : State_json) : State.t :=
  State.mk (sj_name sj) (Transition_fromJson <$> sj_transitions sj).

(** Modelled from the spec: Region.fromJson makes a new Region object
    from a region record and returns the reference to it. *)
Definition Region_fromJson (rj : Region_json) : M loc := λ σ,
  let l := nextLoc σ in
  let obj := Region.mk (rj_name rj) (rj_x rj) (rj_y rj) (rj_w rj) (rj_h rj)
                       (rj_imageLoc rj) in
  (Normal l, set_nextLoc (Pos.succ l) (set_heap (heap_new l obj) σ)).

(** ** The FSM class *)

Module FSM.
(** The links to the parent serve [damage()] alone and are left out:
    the notification ends in Root, which is not among the sources. *)
Record t := mk {
  _regions : list loc;
  _states : list State.t;
  _startState : option nat;
  _currentState : option nat
}.

Definition set_states (v : list State.t) (this : t) : t :=
  mk (_regions this) v (_startState this) (_currentState this).
Definition set_currentState (v : option nat) (this : t) : t :=
  mk (_regions this) (_states this) (_startState this) v.

(** The body of the two nested loops of [_finalize] for one
    transition: target, event specification, then the actions. *)
Definition bindTransition (this : t) (trans : Transition.t) : M Transition.t :=
  trans ← Transition_bindTarget (_states this) trans;
  ev ← EventSpec.bindRegion (_regions this) (Transition.onEvent trans);
  acts ← forEachBind (Transition.actions trans) (Action.bindRegion (_regions this));
  mret (Transition.set_actions acts (Transition.set_onEvent ev trans)).

(** [_finalize()], lines 370-404 of FSMInteractor.js.  The last loop,
    which links each region to its parent, is part of the parent links
    left out. *)
Definition _finalize (this : t) : M t :=
  let this :=
    if bool_decide (0 < length (_states this))%nat
    then set_currentState (_startState this) this else this in
  states ← forEachBind (_states this) (λ state,
    ts ← forEachBind (State.transitions state) (bindTransition this);
    mret (State.set_transitions ts state));
  mret (set_states states this).

(** [constructor(regions, states, parent)]: [states[0]] is the first
    state, or [undefined] when the array is empty. *)
Definition new (regions : list loc) (states : list State.t) : M t :=
  let startState := match states with [] => None | _ :: _ => Some 0%nat end in
  _finalize (mk regions states startState startState).

(** The loop over [fsm.regions] in [fromJson]: the names seen so far
    and the regions collected. *)
Definition addRegion (reg : Region_json)
    (acc : gset string * list loc) : M (gset string * list loc) :=
  let '(allNames, regions) := acc in
  if bool_decide (rj_name reg ∈ allNames) then
    Err.emit ("Duplicate region '" +:+ rj_name reg +:+ "' declaration in FSM") ;;
    mret acc
  else
    l ← Region_fromJson reg;
    mret ({[rj_name reg]} ∪ allNames, regions ++ [l]).

(** The loop over [fsm.states] in [fromJson]. *)
Definition addState (st : State_json)
    (acc : gset string * list State.t) : M (gset string * list State.t) :=
  let '(allNames, states) := acc in
  if bool_decide (sj_name st ∈ allNames) then
    Err.emit ("Duplicate state '" +:+ sj_name st +:+ "' declaration in FSM") ;;
    mret acc
  else
    mret ({[sj_name st]} ∪ allNames, states ++ [State_fromJson st]).

(** [static fromJson(fsm, parent)], lines 287-334. *)
Definition fromJson (fsm : FSM_json) : M t :=
  '(_, regions) ←
    match fj_regions fsm with
    | None =>
        Err.emit "Region list is not an array in FSM.fromJson()" ;;
        mret (∅, [])
    | Some rs => forEachWith rs addRegion (∅, [])
    end;
  '(_, states) ←
    match fj_states fsm with
    | None =>
        Err.emit "State list is not an array in FSM.fromJson()" ;;
        mret (∅, [])
    | Some sts =>
        (if bool_decide (length sts = 0%nat)
         then Err.emit "No states provide for FSM in FSM.fromJson()"
         else mret ()) ;;
        forEachWith sts addState (∅, [])
    end;
  new regions states.

(** [reset()], lines 408-412. *)
Definition reset (this : t) : M t :=
  mret (set_currentState (_startState this) this).

(** [state.transitions] for the State a reference denotes.  The
    references of an FSM are positions of its own state array; there is
    no State behind any other position. *)
Definition transitionsOf (this : t) (st : nat) : list Transition.t :=
  match _states this !! st with
  | Some state => State.transitions state
  | None => []
  end.

(** The [for] loop of [actOnEvent]: the transitions are tried in
    order; the first that matches runs its actions, moves the FSM to
    its target and ends the call. *)
Fixpoint actOnEvent_loop (evtType : EventType) (reg : option loc)
    (transs : list Transition.t) (this : t) : M t :=
  match transs with
  | [] => mret this
  | trans :: rest =>
      if Transition.match_ evtType reg trans then
        forEach (Transition.actions trans)
                (λ action, Action.execute evtType reg action) ;;
        mret (set_currentState (Transition.target trans) this)
      else actOnEvent_loop evtType reg rest this
  end.

(** [actOnEvent(evtType, reg)], lines 420-438. *)
Definition actOnEvent (evtType : EventType) (reg : option loc) (this : t) : M t :=
  match _currentState this with
  | None => mret this
  | Some st => actOnEvent_loop evtType reg (transitionsOf this st) this
  end.
End FSM.

(** ** The FSMInteractor class *)

(** [l.includes(r)] on an array of object references. *)
Fixpoint includes (l : list loc) (r : loc) : bool :=
  match l with
  | [] => false
  | a :: l' => if decide (a = r) then true else includes l' r
  end.

(** What the [fetch] of [startLoadFromJson] can come to: the request
    itself fails, the response is not OK, the body is not JSON, or the
    body parses to a description. *)
Inductive FetchResult :=
  | fetch_rejected (reason : string)
  | response_not_ok
  | body_not_json (reason : string)
  | body_json (data : FSM_json).

Module FSMInteractor.
Record t := mk {
  _fsm : option FSM.t;
  _x : number;
  _y : number;
  _parent : option loc;
  lastPickedRegions : list loc
}.

(** [constructor(fsm, x, y, parent)]: the fields of the new object.
    The statement [if (fsm) fsm.parent = this] links the FSM to its
    interactor, and the setter of [FSM.parent] sends [damage()] up to
    the Root; it belongs to the parent links of the FSM, which are left
    out, so that no notification of damage is recorded for a
    construction. *)
Definition new (fsm : option FSM.t) (x y : number) (parent : option loc) : t :=
  mk fsm x y parent [].

Definition set_fsm (v : option FSM.t) (this : t) : t :=
  mk v (_x this) (_y this) (_parent this) (lastPickedRegions this).
Definition set_lastPickedRegions (v : list loc) (this : t) : t :=
  mk (_fsm this) (_x this) (_y this) (_parent this) v.

(** [damage()], src/FSMInteractor.ts lines 153-162. *)
Definition damage (this : t) : M unit :=
  match _parent this with
  | Some root => modifyWorld (notify_damage root)
  | None => mret ()
  end.

(** The body of the loop of [draw] for the regions that remain; the
    parameter [showDebugging] is a variable of the method and is
    assigned inside the loop. *)
Fixpoint draw_loop (regions : list loc) (showDebugging : bool) : M unit :=
  match regions with
  | [] => mret ()
  | reg :: rest =>
      modifyWorld (canvas_op ctx_save) ;;
      σ ← getWorld;
      modifyWorld (canvas_op (ctx_translate (Region.x (heap σ reg))
                                            (Region.y (heap σ reg)))) ;;
      let showDebugging := true in
      modifyWorld (canvas_op (region_draw reg showDebugging)) ;;
      modifyWorld (canvas_op ctx_restore) ;;
      draw_loop rest showDebugging
  end.

(** [draw(ctx, showDebugging = false)], src/FSMInteractor.ts lines
    170-188. *)
Definition draw (showDebugging : bool) (this : t) : M unit :=
  match _fsm this with
  | None => mret ()
  | Some fsm => draw_loop (FSM._regions fsm) showDebugging
  end.

(** [pick(localX, localY)], src/FSMInteractor.ts lines 200-223; it
    reads the boxes of the regions in the store [hp]. *)
Definition pick (hp : loc → Region.t) (localX localY : number) (this : t)
    : list loc :=
  let pickList := [] in
  match _fsm this with
  | None => pickList
  | Some fsm =>
      let pickList :=
        foldl (λ pickList reg,
                 if number_ge localX (Region.x (hp reg))
                    && number_le localX (Region.x (hp reg) + Region.w (hp reg))
                 then
                   if number_ge localY (Region.y (hp reg))
                      && number_le localY (Region.y (hp reg) + Region.h (hp reg))
                   then pickList ++ [reg]
                   else pickList
                 else pickList)
              pickList (FSM._regions fsm) in
      reverse pickList
  end.

(** [this.fsm?.actOnEvent(evtType, reg)]: the call is made when an
    FSM is installed, and is recorded in [delivered]. *)
Definition fsm_actOnEvent (evtType : EventType) (reg : option loc)
    (this : t) : M t :=
  match _fsm this with
  | None => mret this
  | Some fsm =>
      modifyWorld (record_delivery evtType reg) ;;
      fsm ← FSM.actOnEvent evtType reg fsm;
      mret (set_fsm (Some fsm) this)
  end.

(** [dispatchRawEvent(what, localX, localY)], src/FSMInteractor.ts
    lines 248-297. *)
Definition dispatchRawEvent (what : RawEvent) (localX localY : number)
    (this : t) : M t :=
  match _fsm this with
  | None => mret this
  | Some _ =>
      σ ← getWorld;
      let currentlist := pick (heap σ) localX localY this in
      let prevlist := lastPickedRegions this in
      let enter_region :=
        List.filter (λ r, negb (includes prevlist r)) currentlist in
      let exit_region :=
        List.filter (λ r, negb (includes currentlist r)) prevlist in
      this ← forEachWith exit_region
               (λ region, fsm_actOnEvent exit (Some region)) this;
      this ← forEachWith enter_region
               (λ region, fsm_actOnEvent enter (Some region)) this;
      this ← forEachWith currentlist
               (λ reg, match what with
                       | raw_move => fsm_actOnEvent move_inside (Some reg)
                       | raw_press => fsm_actOnEvent press (Some reg)
                       | raw_release => fsm_actOnEvent release (Some reg)
                       end) this;
      this ← (if bool_decide (what = raw_release)
                 && bool_decide (length currentlist = 0%nat)
              then fsm_actOnEvent release_none None this
              else mret this);
      mret (set_lastPickedRegions currentlist this)
  end.

(** [startLoadFromJson(jsonLoc)], src/FSMInteractor.ts lines 310-328,
    from the point where the [fetch] settles with [response].  A
    rejected [fetch] and a body that does not parse leave the method by
    an exception. *)
Definition startLoadFromJson (jsonLoc : string) (response : FetchResult)
    (this : t) : M t :=
  match response with
  | fetch_rejected reason => throw reason
  | response_not_ok =>
      Err.emit ("Load of FSM from " +:+ dquote +:+ jsonLoc +:+ dquote
                +:+ " failed") ;;
      mret (set_fsm None this)
  | body_not_json reason => throw reason
  | body_json data =>
      fsm ← FSM.fromJson data;
      let this := set_fsm (Some fsm) this in
      damage this ;;
      mret this
  end.

(** The interactor once the promise of [startLoadFromJson] has
    settled.  An exception leaves the method where it is thrown; no
    field of the receiver is assigned before a call that can throw, so
    the receiver is then as it was. *)
Definition afterLoad (jsonLoc : string) (response : FetchResult)
    (this : t) (σ : World) : t * World :=
  match startLoadFromJson jsonLoc response this σ with
  | (Normal this', σ') => (this', σ')
  | (Thrown _, σ') => (this, σ')
  end.

(** The interactor with its two coordinates assigned. *)
Definition set_coords (vx vy : number) (this : t) : t :=
  mk (_fsm this) vx vy (_parent this) (lastPickedRegions this).

(** [set x(v)], src/FSMInteractor.ts lines 61-71. *)
Definition set_x (v : number) (this : t) : M t :=
  if negb (number_eq (_x this) v) then
    let this := set_coords v (_y this) this in
    damage this ;;
    mret this
  else mret this.

(** [set y(v)], src/FSMInteractor.ts lines 77-86. *)
Definition set_y (v : number) (this : t) : M t :=
  if negb (number_eq (_y this) v) then
    let this := set_coords (_x this) v this in
    damage this ;;
    mret this
  else mret this.

(** [get position()], src/FSMInteractor.ts lines 89-91. *)
Definition position (this : t) : number * number := (_x this, _y this).

(** [set position(v)], src/FSMInteractor.ts lines 93-99; the call
    [this.parent?.damage()] goes to the Root. *)
Definition set_position (v : number * number) (this : t) : M t :=
  if negb (number_eq v.1 (_x this)) || negb (number_eq v.2 (_y this)) then
    let this := set_coords v.1 v.2 this in
    match _parent this with
    | Some root => modifyWorld (notify_damage root)
    | None => mret ()
    end ;;
    mret this
  else mret this.
End FSMInteractor.

(** ** The words of the specification *)

(** The two conditions of the specification of [match]. *)
Definition eventMatches (spec : EventSpec.t) (evtType : EventType) : Prop :=
  EventSpec._evtType spec = evtType.
Definition regionMatches (spec : EventSpec.t) (region : option loc) : Prop :=
  EventSpec._region spec = region
  ∨ (EventSpec._regionName spec = "*" ∧ EventSpec._region spec = None).

Global Instance eventMatches_dec spec evtType : Decision (eventMatches spec evtType).
Proof. unfold eventMatches. apply _. Defined.
Global Instance regionMatches_dec spec region : Decision (regionMatches spec region).
Proof. unfold regionMatches. apply _. Defined.

(** The point lies in the box of the region, the four edges included,
    as the doubles have it: the far edges are the rounded sums
    [x + w] and [y + h], and a comparison with NaN does not hold. *)
Definition contains (r : Region.t) (px py : number) : Prop :=
  number_le (Region.x r) px = true
  ∧ number_le px (Region.x r + Region.w r) = true
  ∧ number_le (Region.y r) py = true
  ∧ number_le py (Region.y r + Region.h r) = true.

Global Instance contains_dec r px py : Decision (contains r px py).
Proof. unfold contains. apply _. Defined.

(** The rational number a finite double stands for; an infinity and
    NaN stand for none. *)
Definition exactValue (v : number) : option Q :=
  match Prim2SF v with
  | S754_zero _ => Some (inject_Z 0)
  | S754_finite s m e =>
      let M := if s then Z.neg m else Z.pos m in
      Some (if (0 <=? e)%Z then inject_Z (M * 2 ^ e)
            else Qmake M (2 ^ Z.to_pos (- e)))
  | S754_infinity _ | S754_nan => None
  end.

(** The point lies in the box of the region, in exact arithmetic: the
    far edges are the sums [x + w] and [y + h] of the rationals.  It is
    said of finite numbers only. *)
Definition containsExactly (r : Region.t) (px py : number) : Prop :=
  match exactValue (Region.x r), exactValue (Region.y r),
        exactValue (Region.w r), exactValue (Region.h r),
        exactValue px, exactValue py with
  | Some x, Some y, Some w, Some h, Some qx, Some qy =>
      (x <= qx ∧ qx <= x + w ∧ y <= qy ∧ qy <= y + h)%Q
  | _, _, _, _, _, _ => False
  end.

Definition finiteBox (r : Region.t) (px py : number) : Prop :=
  is_Some (exactValue (Region.x r)) ∧ is_Some (exactValue (Region.y r))
  ∧ is_Some (exactValue (Region.w r)) ∧ is_Some (exactValue (Region.h r))
  ∧ is_Some (exactValue px) ∧ is_Some (exactValue py).

(** The claim on [pick] read in exact arithmetic, for the regions and
    points whose numbers are finite. *)
Definition pick_claim (hp : loc → Region.t) (px py : number)
    (this : FSMInteractor.t) : Prop :=
  ∀ fsm, FSMInteractor._fsm this = Some fsm →
    ∀ R, R ∈ FSM._regions fsm → finiteBox (hp R) px py →
      (R ∈ FSMInteractor.pick hp px py this ↔ containsExactly (hp R) px py).

(** The high-level event a raw event stands for inside a region. *)
Definition insideEvent (what : RawEvent) : EventType :=
  match what with
  | raw_move => move_inside
  | raw_press => press
  | raw_release => release
  end.

(** The events the specification lets one raw event deliver: the exits,
    the enters, one event per region under the pointer, and
    [release_none] for a release over no region. *)
Definition expectedEvents (what : RawEvent) (previous current : list loc)
    : list (EventType * option loc) :=
  ((λ r, (exit, Some r)) <$> list_difference previous current)
  ++ ((λ r, (enter, Some r)) <$> list_difference current previous)
  ++ ((λ r, (insideEvent what, Some r)) <$> current)
  ++ (if decide (what = raw_release ∧ current = []) then [(release_none, None)] else []).

(** The world after one action has run for the event
    [(evtType, region)]. *)
Definition afterAction (evtType : EventType) (region : option loc)
    (σ : World) (action : Action.t) : World :=
  (Action.execute evtType region action σ).2.

(** The event specifications that need no region: nevermatch, and
    release_none or any with an empty region name. *)
Definition needsNoRegion (spec : EventSpec.t) : Prop :=
  EventSpec._evtType spec = nevermatch
  ∨ (EventSpec._regionName spec = EmptyString
     ∧ (EventSpec._evtType spec = release_none
        ∨ EventSpec._evtType spec = any)).

Global Instance needsNoRegion_dec spec : Decision (needsNoRegion spec).
Proof. unfold needsNoRegion. apply _. Defined.

(** The message of [EventSpec.bindRegion]. *)
Definition unboundRegionMessage (spec : EventSpec.t) : string :=
  "Region '" +:+ EventSpec._regionName spec +:+ "'" +:+
  " in event specification does not match any region.".

(** C7 as the specification states it, for one binding: the bound region
    is absent in the three listed cases; in every other case it is a
    region of the collection that carries the name, or an error is
    reported. *)
Definition bindRegion_claim (regionList : list loc) (spec : EventSpec.t)
    (σ : World) : Prop :=
  match EventSpec.bindRegion regionList spec σ with
  | (Normal spec', σ') =>
      if decide (EventSpec._regionName spec = "*" ∨ needsNoRegion spec)
      then EventSpec._region spec' = None
      else (∃ R, EventSpec._region spec' = Some R ∧ R ∈ regionList
                 ∧ Region.name (heap σ' R) = EventSpec._regionName spec)
           ∨ errors σ' ≠ errors σ
  | (Thrown _, σ') =>
      ¬ (EventSpec._regionName spec = "*" ∨ needsNoRegion spec)
      ∧ errors σ' ≠ errors σ
  end.

(** C5 as the specification states it, for one load that fails: an error
    is reported and the interactor is left without an FSM. *)
Definition load_failure_claim (jsonLoc : string) (response : FetchResult)
    (this : FSMInteractor.t) (σ : World) : Prop :=
  let '(this', σ') := FSMInteractor.afterLoad jsonLoc response this σ in
  errors σ' ≠ errors σ ∧ FSMInteractor._fsm this' = None.

(** The operations [draw] sends to the context for one region. *)
Definition drawnRegion (hp : loc → Region.t) (showDebugging : bool)
    (reg : loc) : list CanvasOp :=
  [ctx_save;
   ctx_translate (Region.x (hp reg)) (Region.y (hp reg));
   region_draw reg showDebugging;
   ctx_restore].

(** ** A small interactor, for the examples

    Two overlapping regions, A at (0,0) and B at (5,5), both 10 by 10,
    and two states. *)

Definition ex_heap : loc → Region.t := λ l,
  if decide (l = 1%positive) then Region.mk "A" 0 0 10 10 EmptyString
  else if decide (l = 2%positive) then Region.mk "B" 5 5 10 10 EmptyString
  else Region.mk EmptyString 0 0 0 0 EmptyString.

Definition ex_world (throws : bool) : World :=
  mkWorld ex_heap 3%positive [] [] throws [] [] [].

(** The states as [State.fromJson] leaves them, unbound. *)
Definition ex_states : list State.t :=
  [ State.mk "idle"
      [ Transition.mk (EventSpec.new enter "B") [] "idle" None;
        Transition.mk (EventSpec.new press "A")
          [ Action.new set_image (Some "A") (Some "down.png");
            Action.new print_event None (Some "got ") ]
          "down" None;
        Transition.mk (EventSpec.new any "*")
          [ Action.new print None (Some "other") ] "idle" None ];
    State.mk "down"
      [ Transition.mk (EventSpec.new release "A")
          [ Action.new clear_image (Some "A") None ] "idle" None ] ].

(** The same states once bound by the constructor of the FSM. *)
Definition ex_pressA : Transition.t :=
  Transition.mk (EventSpec.mk press "A" (Some 1%positive))
    [ Action.mk set_image "A" "down.png" (Some 1%positive);
      Action.mk print_event EmptyString "got " None ]
    "down" (Some 1%nat).

Definition ex_enterB : Transition.t :=
  Transition.mk (EventSpec.mk enter "B" (Some 2%positive)) [] "idle" (Some 0%nat).

Definition ex_anyAll : Transition.t :=
  Transition.mk (EventSpec.mk any "*" None)
    [ Action.mk print EmptyString "other" None ] "idle" (Some 0%nat).

Definition ex_bound_states : list State.t :=
  [ State.mk "idle" [ ex_enterB; ex_pressA; ex_anyAll ];
    State.mk "down"
      [ Transition.mk (EventSpec.mk release "A" (Some 1%positive))
          [ Action.mk clear_image "A" EmptyString (Some 1%positive) ]
          "idle" (Some 0%nat) ] ].

Definition ex_fsm : FSM.t :=
  FSM.mk [1%positive; 2%positive] ex_bound_states (Some 0%nat) (Some 0%nat).

Definition ex_interactor : FSMInteractor.t :=
  FSMInteractor.new (Some ex_fsm) 0 0 None.

(** A description with no region and an empty state list. *)
Definition ex_no_states : FSM_json :=
  {| fj_regions := Some []; fj_states := Some [] |}.

(** ** Error reports

    A computation is [lawful] when it only adds to the error channel,
    leaves the mode of [Err.emit] alone, throws only in the throwing
    mode and after a report, and, in the throwing mode, returns
    normally only if it reported nothing. *)
Definition lawful {A} (m : M A) : Prop :=
  ∀ σ o σ', m σ = (o, σ') →
    errors σ `prefix_of` errors σ'
    ∧ errThrows σ' = errThrows σ
    ∧ (∀ msg, o = Thrown msg → errThrows σ = true ∧ errors σ' ≠ errors σ)
    ∧ (∀ a, o = Normal a → errThrows σ = true → errors σ' = errors σ).

(** ** Descriptions that are well formed

    A name resolves when the object that carries it does not need a
    region, or when a region of the description has that name. *)
Definition resolvesEvent (regionNames : list string) (ev : EventSpec_json) : Prop :=
  ej_region ev = "*"
  ∨ ej_region ev ∈ regionNames
  ∨ needsNoRegion (EventSpec_fromJson ev).

Definition resolvesAction (regionNames : list string) (a : Action_json) : Prop :=
  default EmptyString (aj_region a) ∈ regionNames
  ∨ aj_act a = none ∨ aj_act a = print ∨ aj_act a = print_event.

Definition resolvesTransition (regionNames stateNames : list string)
    (tj : Transition_json) : Prop :=
  tj_target tj ∈ stateNames
  ∧ resolvesEvent regionNames (tj_onEvent tj)
  ∧ Forall (resolvesAction regionNames) (tj_actions tj).

(** The demands of the specification on a description: two arrays, at
    least one state, no name declared twice, every name resolved. *)
Definition wellFormed (data : FSM_json) : Prop :=
  ∃ rs sts,
    fj_regions data = Some rs
    ∧ fj_states data = Some sts
    ∧ sts ≠ []
    ∧ NoDup (rj_name <$> rs)
    ∧ NoDup (sj_name <$> sts)
    ∧ Forall (λ st, Forall (resolvesTransition (rj_name <$> rs) (sj_name <$> sts))
                           (sj_transitions st)) sts.

(** What [_finalize] asks of a transition for its binding to report
    nothing: the target name is the name of a state, the region name of
    the event specification is "*", the name of a region, or not
    needed, and each action names a region or needs none. *)
Definition bindsQuietly (hp : loc → Region.t) (regions : list loc)
    (states : list State.t) (trans : Transition.t) : Prop :=
  is_Some (findStateNamed (Transition.targetName trans) states)
  ∧ (EventSpec._regionName (Transition.onEvent trans) = "*"
     ∨ is_Some (findRegionNamed hp
                  (EventSpec._regionName (Transition.onEvent trans)) regions)
     ∨ needsNoRegion (Transition.onEvent trans))
  ∧ Forall (λ action,
              is_Some (findRegionNamed hp (Action._onRegionName action) regions)
              ∨ Action._actType action = none
              ∨ Action._actType action = print
              ∨ Action._actType action = print_event)
           (Transition.actions trans).

(** The message of [startLoadFromJson] for a response that is not OK. *)
Definition loadFailedMessage (jsonLoc : string) : string :=
  "Load of FSM from " +:+ dquote +:+ jsonLoc +:+ dquote +:+ " failed".

(** The delivery of a list of events, one after the other, to the FSM
    of the interactor. *)
Definition deliverAll (events : list (EventType * option loc))
    (this : FSMInteractor.t) : M FSMInteractor.t :=
  forEachWith events (λ ev, FSMInteractor.fsm_actOnEvent ev.1 ev.2) this.

(** ** References to states

    The references of an FSM to its states (the current state, the
    start state, the targets of the transitions) are positions of its
    state array. *)
Definition targetWithin (n : nat) (trans : Transition.t) : Prop :=
  ∀ i, Transition.target trans = Some i → (i < n)%nat.

Definition refsValid (fsm : FSM.t) : Prop :=
  (∀ st, FSM._currentState fsm = Some st → (st < length (FSM._states fsm))%nat)
  ∧ (∀ st, FSM._startState fsm = Some st → (st < length (FSM._states fsm))%nat)
  ∧ Forall (λ state, Forall (targetWithin (length (FSM._states fsm)))
                            (State.transitions state))
           (FSM._states fsm).

(** ** Further notions

    A sequence of events handed to [actOnEvent], and a sequence of raw
    events handed to [dispatchRawEvent]. *)
Definition actOnEvents (events : list (EventType * option loc))
    (fsm : FSM.t) : M FSM.t :=
  forEachWith events (λ ev, FSM.actOnEvent ev.1 ev.2) fsm.

Definition dispatchAll (raws : list (RawEvent * number * number))
    (this : FSMInteractor.t) : M FSMInteractor.t :=
  forEachWith raws
    (λ raw, FSMInteractor.dispatchRawEvent raw.1.1 raw.1.2 raw.2) this.

(** The regions the pointer is inside of, as the delivered events tell
    it: an enter adds the region, an exit removes it. *)
Definition trackInside (inside : gset loc) (ev : EventType * option loc)
    : gset loc :=
  match ev with
  | (enter, Some r) => {[r]} ∪ inside
  | (exit, Some r) => inside ∖ {[r]}
  | _ => inside
  end.

(** An event is in order when the pointer is inside of: an enter comes
    for a region the pointer is not inside of; an exit, a press, a move
    and a release for a region it is inside of; [release_none] when it
    is inside of none. *)
Definition inOrder (inside : gset loc) (ev : EventType * option loc) : Prop :=
  match ev with
  | (enter, Some r) => r ∉ inside
  | (exit, Some r) | (press, Some r) | (release, Some r)
  | (move_inside, Some r) => r ∈ inside
  | (release_none, None) => inside = ∅
  | _ => False
  end.

Fixpoint bracketed (inside : gset loc) (events : list (EventType * option loc))
    : Prop :=
  match events with
  | [] => True
  | ev :: rest => inOrder inside ev ∧ bracketed (trackInside inside ev) rest
  end.

(** The names of the regions of a list, as the store has them. *)
Definition regionNamesOf (hp : loc → Region.t) (regions : list loc) : list string :=
  (λ l, Region.name (hp l)) <$> regions.

(** Every transition of the FSM has a target. *)
Definition fullyBound (fsm : FSM.t) : Prop :=
  Forall (λ state, Forall (λ t, is_Some (Transition.target t))
                          (State.transitions state))
         (FSM._states fsm).

(** The current state is a state of the array. *)
Definition live (fsm : FSM.t) : Prop :=
  ∃ st state,
    FSM._currentState fsm = Some st ∧ FSM._states fsm !! st = Some state.

(** The event types that stand for one kind of event over one region. *)
Definition plainType (e : EventType) : Prop :=
  e = press ∨ e = release ∨ e = enter ∨ e = exit ∨ e = move_inside.

(** The message of [Action.bindRegion]. *)
Definition unboundActionMessage (action : Action.t) : string :=
  "Region '" +:+ Action._onRegionName action +:+
  "' in action does not match any region.".

(** An FSM stranded by a transition without target, for the examples:
    one state, whose one transition names a state that does not
    exist. *)
Definition ex_stray : Transition.t :=
  Transition.mk (EventSpec.mk press "A" (Some 1%positive))
    [ Action.mk print EmptyString "gone" None ] "nowhere" None.

Definition ex_stray_fsm : FSM.t :=
  FSM.mk [1%positive; 2%positive] [ State.mk "only" [ ex_stray ] ]
         (Some 0%nat) (Some 0%nat).

(** The description of the example FSM. *)
Definition ex_description : FSM_json :=
  {| fj_regions := Some
       [ {| rj_name := "A"; rj_x := 0; rj_y := 0; rj_w := 10; rj_h := 10;
            rj_imageLoc := EmptyString |};
         {| rj_name := "B"; rj_x := 5; rj_y := 5; rj_w := 10; rj_h := 10;
            rj_imageLoc := EmptyString |} ];
     fj_states := Some
       [ {| sj_name := "idle";
            sj_transitions :=
              [ {| tj_onEvent := {| ej_evtType := enter; ej_region := "B" |};
                   tj_target := "idle"; tj_actions := [] |};
                {| tj_onEvent := {| ej_evtType := press; ej_region := "A" |};
                   tj_target := "down";
                   tj_actions :=
                     [ {| aj_act := set_image; aj_region := Some "A";
                          aj_param := Some "down.png" |};
                       {| aj_act := print_event; aj_region := None;
                          aj_param := Some "got " |} ] |};
                {| tj_onEvent := {| ej_evtType := any; ej_region := "*" |};
                   tj_target := "idle";
                   tj_actions :=
                     [ {| aj_act := print; aj_region := None;
                          aj_param := Some "other" |} ] |} ] |};
         {| sj_name := "down";
            sj_transitions :=
              [ {| tj_onEvent := {| ej_evtType := release; ej_region := "A" |};
                   tj_target := "idle";
                   tj_actions :=
                     [ {| aj_act := clear_image; aj_region := Some "A";
                          aj_param := None |} ] |} ] |} ] |}.

(** A world with no region yet. *)
Definition ex_empty_world (throws : bool) : World :=
  mkWorld (λ _, Region.mk EmptyString 0 0 0 0 EmptyString) 1%positive
          [] [] throws [] [] [].

(** A computation keeps a relation between the world before and the
    world after. *)
Definition keeps {A} (R : World → World → Prop) (m : M A) : Prop :=
  ∀ σ o σ', m σ = (o, σ') → R σ σ'.

(** The store of regions is as it was. *)
Definition sameStore (σ σ' : World) : Prop :=
  heap σ' = heap σ ∧ nextLoc σ' = nextLoc σ.

(** The regions that existed are as they were, and the console, the
    drawing context, the damage notifications and the record of
    deliveries are untouched. *)
Definition onlyAllocates (σ σ' : World) : Prop :=
  (nextLoc σ ≤ nextLoc σ')%positive
  ∧ (∀ l, (l < nextLoc σ)%positive → heap σ' l = heap σ l)
  ∧ console σ' = console σ
  ∧ canvas σ' = canvas σ
  ∧ damaged σ' = damaged σ
  ∧ delivered σ' = delivered σ.

(** The names the loop over the region records has seen are the names
    of the regions collected, no name comes twice, and the regions
    collected are distinct objects of the store. *)
Definition regionsCollected (σ : World) (acc : gset string * list loc) : Prop :=
  (∀ n, n ∈ acc.1 ↔ n ∈ regionNamesOf (heap σ) acc.2)
  ∧ NoDup (regionNamesOf (heap σ) acc.2)
  ∧ NoDup acc.2
  ∧ (∀ l, l ∈ acc.2 → (l < nextLoc σ)%positive).

Definition statesCollected (acc : gset string * list State.t) : Prop :=
  (∀ n, n ∈ acc.1 ↔ n ∈ State.name <$> acc.2)
  ∧ NoDup (State.name <$> acc.2).

(** A description with the region A twice and the state idle twice. *)
Definition ex_duplicates : FSM_json :=
  {| fj_regions := Some
       [ {| rj_name := "A"; rj_x := 0; rj_y := 0; rj_w := 10; rj_h := 10;
            rj_imageLoc := EmptyString |};
         {| rj_name := "A"; rj_x := 5; rj_y := 5; rj_w := 1; rj_h := 1;
            rj_imageLoc := EmptyString |} ];
     fj_states := Some
       [ {| sj_name := "idle"; sj_transitions := [] |};
         {| sj_name := "idle"; sj_transitions := [] |} ] |}.

(** The world once the example description has been built in the empty
    world: the regions A and B are the objects 1 and 2. *)
Definition ex_loaded_world (throws : bool) : World :=
  mkWorld (heap_new 2%positive (Region.mk "B" 5 5 10 10 EmptyString)
             (heap_new 1%positive (Region.mk "A" 0 0 10 10 EmptyString)
                (heap (ex_empty_world throws))))
          3%positive [] [] throws [] [] [].

(** ** What a description declares

    Of the records of a list, the first of each name, in the order of
    the list. *)
Fixpoint firstOfName {A} (key : A → string) (l : list A) : list A :=
  match l with
  | [] => []
  | a :: rest => a :: filter (λ b, key b ≠ key a) (firstOfName key rest)
  end.

(** The records that a loop of [FSM.fromJson] keeps of a list, when the
    names of [seen] are taken already. *)
Fixpoint keptRecords {A} (key : A → string) (seen : gset string) (l : list A)
    : list A :=
  match l with
  | [] => []
  | a :: rest =>
      if bool_decide (key a ∈ seen) then keptRecords key seen rest
      else a :: keptRecords key ({[key a]} ∪ seen) rest
  end.

(** The Region object a region record describes. *)
Definition regionOf (rj : Region_json) : Region.t :=
  Region.mk (rj_name rj) (rj_x rj) (rj_y rj) (rj_w rj) (rj_h rj)
            (rj_imageLoc rj).

(** An action, a transition and a state of the FSM are as declared when
    they carry what the object made from the record carries: for an
    action its type, region name and parameter; for a transition its
    target name, the event type and region name of its event
    specification and its actions, its target being the state of the
    target name among [states] if there is one; for a state its name and
    its transitions.  The regions the names are bound to are left
    open. *)
Definition actionAsDeclared (a a' : Action.t) : Prop :=
  Action._actType a' = Action._actType a
  ∧ Action._onRegionName a' = Action._onRegionName a
  ∧ Action._param a' = Action._param a.

Definition transitionAsDeclared (states : list State.t)
    (t t' : Transition.t) : Prop :=
  Transition.targetName t' = Transition.targetName t
  ∧ Transition.target t'
    = match findStateNamed (Transition.targetName t) states with
      | Some i => Some i
      | None => Transition.target t
      end
  ∧ EventSpec._evtType (Transition.onEvent t')
    = EventSpec._evtType (Transition.onEvent t)
  ∧ EventSpec._regionName (Transition.onEvent t')
    = EventSpec._regionName (Transition.onEvent t)
  ∧ Forall2 actionAsDeclared (Transition.actions t) (Transition.actions t').

Definition stateAsDeclared (states : list State.t) (st st' : State.t) : Prop :=
  State.name st' = State.name st
  ∧ Forall2 (transitionAsDeclared states)
            (State.transitions st) (State.transitions st').

(** The states a description declares, before they are bound. *)
Definition declaredStates (data : FSM_json) : list State.t :=
  State_fromJson <$> firstOfName sj_name (default [] (fj_states data)).

(** A region far from the origin, where the doubles are two apart: its
    left edge is at 2^53 + 2 and it is one wide. *)
Definition ex_far_heap : loc → Region.t := λ _,
  Region.mk "far" 9007199254740994 0 1 1 EmptyString.

Definition ex_far_interactor : FSMInteractor.t :=
  FSMInteractor.new (Some (FSM.mk [1%positive] [] None None)) 0 0 None.

(** A description with the region A and the state idle declared twice,
    a target that names no state and an action that names no region. *)
Definition ex_malformed : FSM_json :=
  {| fj_regions := Some
       [ {| rj_name := "A"; rj_x := 0; rj_y := 0; rj_w := 10; rj_h := 10;
            rj_imageLoc := EmptyString |};
         {| rj_name := "A"; rj_x := 5; rj_y := 5; rj_w := 1; rj_h := 1;
            rj_imageLoc := EmptyString |} ];
     fj_states := Some
       [ {| sj_name := "idle";
            sj_transitions :=
              [ {| tj_onEvent := {| ej_evtType := press; ej_region := "A" |};
                   tj_target := "gone";
                   tj_actions :=
                     [ {| aj_act := set_image; aj_region := Some "Z";
                          aj_param := Some "x.png" |} ] |} ] |};
         {| sj_name := "idle"; sj_transitions := [] |} ] |}.

(** * Properties *)

(** ** The monad *)

Lemma bind_Normal {A B} (m : M A) (k : A → M B) σ a σ' :
  m σ = (Normal a, σ') → (m ≫= k) σ = k a σ'.
Proof. intros Hm. unfold mbind, M_bind. by rewrite Hm. Qed.

Lemma bind_Normal_inv {A B} (m : M A) (k : A → M B) σ b σ' :
  (m ≫= k) σ = (Normal b, σ') →
  ∃ a σ1, m σ = (Normal a, σ1) ∧ k a σ1 = (Normal b, σ').
Proof.
  unfold mbind, M_bind. destruct (m σ) as [[a|?] σ1]; [|done].
  intros Hk. by exists a, σ1.
Qed.

Lemma forEachWith_app {A S} (l1 l2 : list A) (body : A → S → M S) s σ s' σ' :
  forEachWith l1 body s σ = (Normal s', σ') →
  forEachWith (l1 ++ l2) body s σ = forEachWith l2 body s' σ'.
Proof.
  revert s σ. induction l1 as [|a l1 IH]; intros s σ; simpl.
  - unfold mret, M_ret. by intros [= -> ->].
  - unfold mbind, M_bind.
    destruct (body a s σ) as [[s1|msg] σ1]; [|done].
    apply IH.
Qed.

Lemma forEachWith_fmap {A B S} (f : A → B) (l : list A) (body : B → S → M S) s σ :
  forEachWith (f <$> l) body s σ = forEachWith l (λ a, body (f a)) s σ.
Proof.
  revert s σ. induction l as [|a l IH]; intros s σ; simpl; [done|].
  unfold mbind, M_bind.
  destruct (body (f a) s σ) as [[s1|msg] σ1]; [|done].
  apply IH.
Qed.

(** ** Lists of references *)

Lemma includes_spec (l : list loc) (r : loc) : includes l r = true ↔ r ∈ l.
Proof.
  induction l as [|a l IH]; simpl.
  - split; [done | by intros ?%elem_of_nil].
  - rewrite elem_of_cons. destruct (decide (a = r)) as [->|Hne].
    + split; auto.
    + rewrite IH. split; [auto | intros [?|?]; congruence].
Qed.

(** The [filter]/[includes] of the sources is the difference of the two
    sequences, in the order of the first. *)
Lemma filter_includes_difference (l k : list loc) :
  List.filter (λ r, negb (includes k r)) l = list_difference l k.
Proof.
  induction l as [|a l IH]; simpl; [done|].
  rewrite IH. destruct (includes k a) eqn:Hin; simpl.
  - apply includes_spec in Hin. by destruct (decide_rel elem_of a k).
  - destruct (decide_rel elem_of a k) as [Hin'|]; [|done].
    apply includes_spec in Hin'. congruence.
Qed.

Lemma list_difference_nil_r (l : list loc) : list_difference l [] = l.
Proof.
  induction l as [|a l IH]; simpl; [done|].
  destruct (decide_rel elem_of a []) as [Hin|_]; [by apply elem_of_nil in Hin|].
  by rewrite IH.
Qed.

(** ** C2: the match predicate *)

(** C2.  [match] returns false when the specification's event type is
    nevermatch, the region condition alone when it is any, the event
    condition alone when it is release_none, and the conjunction of the
    two for every other event type; the event condition is equality of
    the event types, the region condition is equality of the bound
    region with the event's region, or a "*" name with no bound
    region. *)
Theorem C2_match_by_event_type (spec : EventSpec.t) (evtType : EventType)
    (region : option loc) :
  EventSpec.match_ evtType region spec =
    match EventSpec._evtType spec with
    | nevermatch => false
    | any => bool_decide (regionMatches spec region)
    | release_none => bool_decide (eventMatches spec evtType)
    | press | release | enter | exit | move_inside =>
        bool_decide (eventMatches spec evtType)
        && bool_decide (regionMatches spec region)
    end.
Proof.
  destruct spec as [ty nm rg].
  unfold EventSpec.match_, eventMatches, regionMatches; simpl.
  assert (Hreg :
    (if bool_decide (rg = region)
        || (String.eqb nm "*" && bool_decide (rg = None))
     then true else false)
    = bool_decide (rg = region ∨ nm = "*" ∧ rg = None)).
  { destruct (String.eqb_spec nm "*") as [Hn|Hn];
      repeat case_bool_decide; simpl; try done;
      exfalso; intuition congruence. }
  rewrite Hreg.
  destruct ty; simpl; repeat case_bool_decide; simpl; congruence.
Qed.

(** ** C4: pick *)

(** The two nested tests of the loop of [pick] are the containment of
    the point in the box. *)
Lemma pick_test_contains (r : Region.t) (px py : number) :
  (if number_ge px (Region.x r) && number_le px (Region.x r + Region.w r)
   then if number_ge py (Region.y r) && number_le py (Region.y r + Region.h r)
        then true else false
   else false) = bool_decide (contains r px py).
Proof.
  case_bool_decide as Hc.
  - destruct Hc as (H1 & H2 & H3 & H4).
    unfold number_ge. unfold number_le in *. by rewrite H1, H2, H3, H4.
  - unfold contains, number_le in Hc. unfold number_ge, number_le.
    destruct (Region.x r <=? px)%float eqn:H1; simpl; [|done].
    destruct (px <=? Region.x r + Region.w r)%float eqn:H2; simpl; [|done].
    destruct (Region.y r <=? py)%float eqn:H3; simpl; [|done].
    destruct (py <=? Region.y r + Region.h r)%float eqn:H4; simpl; [|done].
    exfalso. apply Hc. by rewrite ?H1, ?H2, ?H3, ?H4.
Qed.

(** The loop of [pick] collects, in the order of the array, the regions
    that contain the point. *)
Lemma pick_loop_filter (hp : loc → Region.t) (px py : number)
    (regions acc : list loc) :
  foldl (λ pickList reg,
           if number_ge px (Region.x (hp reg))
              && number_le px (Region.x (hp reg) + Region.w (hp reg))
           then
             if number_ge py (Region.y (hp reg))
                && number_le py (Region.y (hp reg) + Region.h (hp reg))
             then pickList ++ [reg]
             else pickList
           else pickList) acc regions
  = acc ++ filter (λ reg, contains (hp reg) px py) regions.
Proof.
  revert acc. induction regions as [|reg regions IH]; intros acc; simpl.
  - by rewrite app_nil_r.
  - rewrite IH. pose proof (pick_test_contains (hp reg) px py) as Ht.
    rewrite filter_cons.
    destruct (decide (contains (hp reg) px py)) as [Hc|Hc].
    + rewrite bool_decide_eq_true_2 in Ht by done.
      destruct (number_ge px _ && _); [|done].
      destruct (number_ge py _ && _); [|done].
      by rewrite <- app_assoc.
    + rewrite bool_decide_eq_false_2 in Ht by done.
      destruct (number_ge px _ && _); [|done].
      by destruct (number_ge py _ && _).
Qed.

Lemma pick_eq (hp : loc → Region.t) (px py : number) (this : FSMInteractor.t)
    (fsm : FSM.t) :
  FSMInteractor._fsm this = Some fsm →
  FSMInteractor.pick hp px py this
  = reverse (filter (λ reg, contains (hp reg) px py) (FSM._regions fsm)).
Proof.
  intros Hfsm. unfold FSMInteractor.pick. rewrite Hfsm.
  by rewrite pick_loop_filter.
Qed.

(** C4, amended.  With an FSM installed, and for every point and every
    box, whatever doubles their numbers are: a region of the FSM is in
    the result of [pick] exactly when [R.x <= P.x <= R.x + R.w] and
    [R.y <= P.y <= R.y + R.h] hold as the doubles have them, the sums
    rounded and no comparison with NaN holding; the result holds regions
    of the FSM only, and it is the reverse of the declaration order of
    the regions, restricted to the regions that contain the point so. *)
Theorem C4_pick_contained_reversed (hp : loc → Region.t) (px py : number)
    (this : FSMInteractor.t) (fsm : FSM.t) :
  FSMInteractor._fsm this = Some fsm →
  (∀ R : loc, R ∈ FSM._regions fsm →
     (R ∈ FSMInteractor.pick hp px py this
      ↔ (Region.x (hp R) <=? px)%float = true
        ∧ (px <=? Region.x (hp R) + Region.w (hp R))%float = true
        ∧ (Region.y (hp R) <=? py)%float = true
        ∧ (py <=? Region.y (hp R) + Region.h (hp R))%float = true))
  ∧ (∀ R : loc, R ∈ FSMInteractor.pick hp px py this → R ∈ FSM._regions fsm)
  ∧ FSMInteractor.pick hp px py this
    = reverse (filter (λ R, contains (hp R) px py) (FSM._regions fsm)).
Proof.
  intros Hfsm. rewrite (pick_eq _ _ _ _ _ Hfsm). split_and!.
  - intros R HR. rewrite elem_of_reverse, list_elem_of_filter.
    unfold contains, number_le. tauto.
  - intros R. rewrite elem_of_reverse, list_elem_of_filter. tauto.
  - done.
Qed.

(** ** Actions and [actOnEvent] *)

(** An action never throws. *)
Lemma execute_Normal (evtType : EventType) (region : option loc)
    (action : Action.t) (σ : World) :
  Action.execute evtType region action σ
  = (Normal (), afterAction evtType region σ action).
Proof.
  unfold afterAction, Action.execute, Action.assign_imageLoc.
  repeat case_bool_decide; try done.
  - by destruct (Action._onRegion action).
  - by destruct (Action._onRegion action).
Qed.

(** Running a list of actions runs each of them, in the order of the
    list, and does not throw. *)
Lemma forEach_execute (evtType : EventType) (region : option loc)
    (actions : list Action.t) (σ : World) :
  forEach actions (λ action, Action.execute evtType region action) σ
  = (Normal (), foldl (afterAction evtType region) σ actions).
Proof.
  revert σ. induction actions as [|a actions IH]; intros σ; simpl; [done|].
  unfold mbind, M_bind. rewrite execute_Normal. apply IH.
Qed.

(** The loop of [actOnEvent] passes over the transitions that do not
    match. *)
Lemma actOnEvent_loop_skip evtType region (pre rest : list Transition.t)
    (this : FSM.t) (σ : World) :
  (∀ t, t ∈ pre → Transition.match_ evtType region t = false) →
  FSM.actOnEvent_loop evtType region (pre ++ rest) this σ
  = FSM.actOnEvent_loop evtType region rest this σ.
Proof.
  induction pre as [|t pre IH]; intros Hpre; simpl; [done|].
  rewrite (Hpre t) by apply list_elem_of_here.
  apply IH. intros t' Ht'. apply Hpre. by apply list_elem_of_further.
Qed.

(** [actOnEvent] never throws, and leaves what it does not own alone:
    the error channel, the drawing context, the damage notifications
    and the record of deliveries. *)
Lemma afterAction_frame evtType region σ action :
  errors (afterAction evtType region σ action) = errors σ
  ∧ errThrows (afterAction evtType region σ action) = errThrows σ
  ∧ delivered (afterAction evtType region σ action) = delivered σ
  ∧ canvas (afterAction evtType region σ action) = canvas σ
  ∧ damaged (afterAction evtType region σ action) = damaged σ
  ∧ nextLoc (afterAction evtType region σ action) = nextLoc σ.
Proof.
  unfold afterAction, Action.execute, Action.assign_imageLoc.
  repeat case_bool_decide; try done;
    by destruct (Action._onRegion action).
Qed.

Lemma afterActions_frame evtType region actions σ :
  errors (foldl (afterAction evtType region) σ actions) = errors σ
  ∧ errThrows (foldl (afterAction evtType region) σ actions) = errThrows σ
  ∧ delivered (foldl (afterAction evtType region) σ actions) = delivered σ
  ∧ canvas (foldl (afterAction evtType region) σ actions) = canvas σ
  ∧ damaged (foldl (afterAction evtType region) σ actions) = damaged σ
  ∧ nextLoc (foldl (afterAction evtType region) σ actions) = nextLoc σ.
Proof.
  revert σ. induction actions as [|a actions IH]; intros σ; simpl; [done|].
  destruct (IH (afterAction evtType region σ a)) as (-> & -> & -> & -> & -> & ->).
  apply afterAction_frame.
Qed.

Lemma actOnEvent_loop_Normal evtType region transs this σ :
  ∃ this' σ',
    FSM.actOnEvent_loop evtType region transs this σ = (Normal this', σ')
    ∧ errors σ' = errors σ ∧ delivered σ' = delivered σ
    ∧ FSM._regions this' = FSM._regions this
    ∧ FSM._states this' = FSM._states this
    ∧ FSM._startState this' = FSM._startState this.
Proof.
  induction transs as [|t transs IH]; simpl.
  - by exists this, σ.
  - destruct (Transition.match_ evtType region t); [|done].
    unfold mbind, M_bind. rewrite forEach_execute.
    eexists _, _. split; [done|].
    destruct (afterActions_frame evtType region (Transition.actions t) σ)
      as (-> & _ & -> & _). done.
Qed.

Lemma actOnEvent_Normal evtType region this σ :
  ∃ this' σ',
    FSM.actOnEvent evtType region this σ = (Normal this', σ')
    ∧ errors σ' = errors σ ∧ delivered σ' = delivered σ
    ∧ FSM._regions this' = FSM._regions this
    ∧ FSM._states this' = FSM._states this
    ∧ FSM._startState this' = FSM._startState this.
Proof.
  unfold FSM.actOnEvent. destruct (FSM._currentState this).
  - apply actOnEvent_loop_Normal.
  - by exists this, σ.
Qed.

(** The first transition that matches is taken, and the ones after it
    are not looked at. *)
Lemma actOnEvent_first_match (this : FSM.t) (σ : World)
    (evtType : EventType) (region : option loc) (st : nat)
    (pre post : list Transition.t) (trans : Transition.t) :
  FSM._currentState this = Some st →
  FSM.transitionsOf this st = pre ++ trans :: post →
  (∀ t, t ∈ pre → Transition.match_ evtType region t = false) →
  Transition.match_ evtType region trans = true →
  FSM.actOnEvent evtType region this σ
  = (Normal (FSM.set_currentState (Transition.target trans) this),
     foldl (afterAction evtType region) σ (Transition.actions trans)).
Proof.
  intros Hcur Hts Hpre Hmatch. unfold FSM.actOnEvent.
  rewrite Hcur, Hts, actOnEvent_loop_skip by done. simpl.
  rewrite Hmatch. unfold mbind, M_bind. by rewrite forEach_execute.
Qed.

(** A list with a matching transition splits at the first one. *)
Lemma first_match_split evtType region (transs : list Transition.t) :
  (∃ t, t ∈ transs ∧ Transition.match_ evtType region t = true) →
  ∃ pre trans post,
    transs = pre ++ trans :: post
    ∧ (∀ t, t ∈ pre → Transition.match_ evtType region t = false)
    ∧ Transition.match_ evtType region trans = true.
Proof.
  induction transs as [|t0 transs IH]; intros (t & Ht & Hm).
  - by apply elem_of_nil in Ht.
  - destruct (Transition.match_ evtType region t0) eqn:Hm0.
    + exists [], t0, transs. split_and!; [done| |done].
      by intros t' ?%elem_of_nil.
    + apply elem_of_cons in Ht as [->|Ht]; [congruence|].
      destruct IH as (pre & trans & post & -> & Hpre & Hmatch); [by exists t|].
      exists (t0 :: pre), trans, post. split_and!; [done| |done].
      intros t' [->|?]%elem_of_cons; [done|by apply Hpre].
Qed.

(** C3.  When some transition of the current state matches, the first
    one that matches, in declared order, is taken: each of its actions
    runs, in declared order, for the triggering event type and region,
    then the current state of the FSM is the target of that transition,
    its regions, states and start state being as they were; the
    transitions after it play no part, and the call does not throw. *)
Theorem C3_first_match_fires (this : FSM.t) (σ : World)
    (evtType : EventType) (region : option loc) (st : nat) :
  FSM._currentState this = Some st →
  (∃ t, t ∈ FSM.transitionsOf this st
        ∧ Transition.match_ evtType region t = true) →
  ∃ pre trans post this' σ',
    FSM.transitionsOf this st = pre ++ trans :: post
    ∧ (∀ t, t ∈ pre → Transition.match_ evtType region t = false)
    ∧ Transition.match_ evtType region trans = true
    ∧ FSM.actOnEvent evtType region this σ = (Normal this', σ')
    ∧ FSM._currentState this' = Transition.target trans
    ∧ FSM._regions this' = FSM._regions this
    ∧ FSM._states this' = FSM._states this
    ∧ FSM._startState this' = FSM._startState this
    ∧ forEach (Transition.actions trans)
              (λ action, Action.execute evtType region action) σ
      = (Normal (), σ')
    ∧ σ' = foldl (afterAction evtType region) σ (Transition.actions trans).
Proof.
  intros Hcur Hsome.
  destruct (first_match_split _ _ _ Hsome) as (pre & trans & post & Hts & Hpre & Hm).
  exists pre, trans, post,
    (FSM.set_currentState (Transition.target trans) this),
    (foldl (afterAction evtType region) σ (Transition.actions trans)).
  split_and!; try done.
  - by apply (actOnEvent_first_match _ _ _ _ st pre post).
  - apply forEach_execute.
Qed.

(** C6.  When no transition of the current state matches, [actOnEvent]
    returns normally with the FSM as it was, the current state
    included, and with the world as it was: no action has run and no
    error is reported. *)
Theorem C6_no_match_absorbed (this : FSM.t) (σ : World)
    (evtType : EventType) (region : option loc) (st : nat) :
  FSM._currentState this = Some st →
  (∀ t, t ∈ FSM.transitionsOf this st →
        Transition.match_ evtType region t = false) →
  FSM.actOnEvent evtType region this σ = (Normal this, σ).
Proof.
  intros Hcur Hno. unfold FSM.actOnEvent. rewrite Hcur.
  rewrite <- (app_nil_r (FSM.transitionsOf this st)).
  by rewrite actOnEvent_loop_skip.
Qed.

(** C9.  [reset] makes the start state the current state and changes
    nothing else: the regions, the states and the start state of the
    FSM stay, and the world, so the image of every region, is as it
    was.  The start state of a constructed FSM is the first state of the
    array it was given, and [actOnEvent] never assigns it. *)
Theorem C9_reset_to_start (this : FSM.t) (σ : World) :
  (∃ this' σ',
     FSM.reset this σ = (Normal this', σ')
     ∧ FSM._currentState this' = FSM._startState this
     ∧ FSM._startState this' = FSM._startState this
     ∧ FSM._regions this' = FSM._regions this
     ∧ FSM._states this' = FSM._states this
     ∧ σ' = σ
     ∧ ∀ R : loc, Region.imageLoc (heap σ' R) = Region.imageLoc (heap σ R))
  ∧ (∀ regions states,
       match FSM.new regions states σ with
       | (Normal fsm, _) =>
           FSM._startState fsm = (if states is [] then None else Some 0%nat)
       | (Thrown _, _) => True
       end)
  ∧ (∀ evtType region,
       ∃ this' σ',
         FSM.actOnEvent evtType region this σ = (Normal this', σ')
         ∧ FSM._startState this' = FSM._startState this).
Proof.
  split_and!.
  - by eexists _, _.
  - intros regions states. unfold FSM.new, FSM._finalize.
    unfold mbind, M_bind.
    destruct (forEachBind _ _ σ) as [[sts|msg] σ']; [|done].
    simpl. case_bool_decide; simpl; by destruct states.
  - intros evtType region.
    destruct (actOnEvent_Normal evtType region this σ)
      as (this' & σ' & Hrun & _ & _ & _ & _ & Hstart).
    by exists this', σ'.
Qed.

(** C10.  The FSM constructed from an empty state array has no start
    state and no current state, its construction reports nothing and
    does not throw, and every call of [actOnEvent] on it, and so every
    sequence of calls, returns normally with the FSM and the world as
    they were. *)
Theorem C10_empty_fsm_inert (regions : list loc) (σ : World) :
  FSM.new regions [] σ = (Normal (FSM.mk regions [] None None), σ)
  ∧ (∀ evtType region σ',
       FSM.actOnEvent evtType region (FSM.mk regions [] None None) σ'
       = (Normal (FSM.mk regions [] None None), σ'))
  ∧ (∀ (events : list (EventType * option loc)) σ',
       forEachWith events (λ ev, FSM.actOnEvent ev.1 ev.2)
                   (FSM.mk regions [] None None) σ'
       = (Normal (FSM.mk regions [] None None), σ')).
Proof.
  split_and!.
  - done.
  - done.
  - intros events σ'. induction events as [|ev events IH]; [done|].
    simpl. unfold mbind, M_bind. simpl. apply IH.
Qed.

(** ** References to states stay valid *)

Lemma findStateNamed_lt nm (states : list State.t) i :
  findStateNamed nm states = Some i → (i < length states)%nat.
Proof.
  revert i. induction states as [|st states IH]; intros i; simpl; [done|].
  destruct (String.eqb nm (State.name st)).
  - intros [= <-]. lia.
  - destruct (findStateNamed nm states) as [j|]; [|done].
    intros [= <-]. specialize (IH j eq_refl). lia.
Qed.

Lemma forEachBind_Forall2 {A} (body : A → M A) (l l' : list A) σ σ' :
  forEachBind l body σ = (Normal l', σ') →
  Forall2 (λ a a', ∃ σ1 σ2, body a σ1 = (Normal a', σ2)) l l'.
Proof.
  revert l' σ. induction l as [|a l IH]; intros l' σ; simpl.
  - intros [= <- _]. constructor.
  - unfold mbind, M_bind.
    destruct (body a σ) as [[a'|msg] σ1] eqn:Ha; [|done].
    destruct (forEachBind l body σ1) as [[l''|msg] σ2] eqn:Hl; [|done].
    intros [= <- <-]. constructor; [by eexists _, _|exact (IH _ _ Hl)].
Qed.

Lemma bindTransition_target (fsm : FSM.t) trans σ trans' σ' :
  Transition.target trans = None →
  FSM.bindTransition fsm trans σ = (Normal trans', σ') →
  targetWithin (length (FSM._states fsm)) trans'.
Proof.
  intros Hnone. unfold FSM.bindTransition, Transition_bindTarget.
  unfold mbind at 1. unfold M_bind at 1.
  destruct (findStateNamed _ _) as [i|] eqn:Hfind.
  - simpl. unfold mbind, M_bind.
    destruct (EventSpec.bindRegion _ _ σ) as [[ev|?] σ1]; [|done].
    destruct (forEachBind _ _ σ1) as [[acts|?] σ2]; [|done].
    intros [= <- _] j. simpl. intros [= <-]. by eapply findStateNamed_lt.
  - unfold mbind at 1. unfold M_bind at 1.
    destruct (Err.emit _ σ) as [[[]|?] σ0]; [|done].
    simpl. unfold mbind, M_bind.
    destruct (EventSpec.bindRegion _ _ σ0) as [[ev|?] σ1]; [|done].
    destruct (forEachBind _ _ σ1) as [[acts|?] σ2]; [|done].
    intros [= <- _] j. simpl. by rewrite Hnone.
Qed.

(** The constructor leaves an FSM whose references are valid, when the
    transitions it is given are not yet bound. *)
Lemma new_refsValid regions states σ fsm σ' :
  Forall (λ state, Forall (λ t, Transition.target t = None)
                          (State.transitions state)) states →
  FSM.new regions states σ = (Normal fsm, σ') → refsValid fsm.
Proof.
  intros Hunbound. unfold FSM.new, FSM._finalize.
  remember (match states with [] => None | _ :: _ => Some 0%nat end)
    as start eqn:Hstartdef.
  remember (if bool_decide _ then _ else _) as this eqn:Hthis.
  assert (Hst : FSM._states this = states) by (subst this; by case_bool_decide).
  assert (Hcur : FSM._currentState this = start)
    by (subst this; by case_bool_decide).
  assert (Hstart : FSM._startState this = start)
    by (subst this; by case_bool_decide).
  clear Hthis. rewrite Hst. unfold mbind at 1. unfold M_bind at 1.
  destruct (forEachBind states _ σ) as [[states'|?] σ1] eqn:Hrun; [|done].
  intros [= <- _]. apply forEachBind_Forall2 in Hrun.
  pose proof (Forall2_length _ _ _ Hrun) as Hlen.
  assert (Hin : ∀ st, start = Some st → (st < length states')%nat).
  { intros st. rewrite Hstartdef. destruct states; [done|].
    intros [= <-]. rewrite <- Hlen. simpl. lia. }
  split_and!; simpl; [by rewrite Hcur|by rewrite Hstart|].
  rewrite <- Hlen, <- Hst. clear Hin Hcur Hstart Hlen Hstartdef Hst.
  induction Hrun as [|state state' sts sts' Hbody Hrest IH]; [constructor|].
  apply Forall_cons in Hunbound as [Hstate Hunbound].
  constructor; [|by apply IH].
  destruct Hbody as (σ2 & σ3 & Hbody). unfold mbind, M_bind in Hbody.
  destruct (forEachBind (State.transitions state) _ σ2)
    as [[ts|?] σ4] eqn:Hts; [|done].
  injection Hbody as <- _. simpl.
  apply forEachBind_Forall2 in Hts. clear -Hts Hstate.
  induction Hts as [|t t' ts ts' (σ5 & σ6 & Ht) Hrest IH]; [constructor|].
  apply Forall_cons in Hstate as [Hnone Hstate].
  constructor; [|by apply IH].
  by apply bindTransition_target in Ht.
Qed.

(** [actOnEvent] and [reset] keep the references valid. *)
Lemma actOnEvent_loop_result evtType region transs this σ this' σ' :
  FSM.actOnEvent_loop evtType region transs this σ = (Normal this', σ') →
  this' = this
  ∨ ∃ trans, trans ∈ transs
             ∧ this' = FSM.set_currentState (Transition.target trans) this.
Proof.
  induction transs as [|t transs IH]; simpl.
  - intros [= <- _]. by left.
  - destruct (Transition.match_ evtType region t).
    + unfold mbind, M_bind. rewrite forEach_execute. intros [= <- _].
      right. exists t. split; [apply list_elem_of_here|done].
    + intros [->|(trans & Hin & ->)]%IH; [by left|].
      right. exists trans. split; [by apply list_elem_of_further|done].
Qed.

Lemma actOnEvent_refsValid evtType region this σ this' σ' :
  refsValid this →
  FSM.actOnEvent evtType region this σ = (Normal this', σ') →
  refsValid this'.
Proof.
  intros Hvalid. unfold FSM.actOnEvent.
  destruct (FSM._currentState this) as [st|] eqn:Hst.
  2:{ by intros [= <- _]. }
  intros [->|(trans & Hin & ->)]%actOnEvent_loop_result; [done|].
  destruct Hvalid as (Hcur & Hstart & Htargets).
  split_and!; simpl; [|done|done].
  unfold FSM.transitionsOf in Hin.
  destruct (FSM._states this !! st) as [state|] eqn:Hstate;
    [|by apply elem_of_nil in Hin].
  rewrite Forall_forall in Htargets.
  apply list_elem_of_lookup_2, Htargets in Hstate.
  rewrite Forall_forall in Hstate. by apply Hstate.
Qed.

Lemma reset_refsValid this σ this' σ' :
  refsValid this → FSM.reset this σ = (Normal this', σ') → refsValid this'.
Proof.
  intros (Hcur & Hstart & Htargets) [= <- _]. by split_and!.
Qed.

(** ** C1: dispatchRawEvent *)

(** A sequence of events never throws. *)
Lemma actOnEvents_Normal (events : list (EventType * option loc))
    (fsm : FSM.t) (σ : World) :
  ∃ fsm' σ', actOnEvents events fsm σ = (Normal fsm', σ').
Proof.
  revert fsm σ. induction events as [|ev events IH]; intros fsm σ.
  - by exists fsm, σ.
  - unfold actOnEvents. simpl. unfold mbind, M_bind.
    destruct (actOnEvent_Normal ev.1 ev.2 fsm σ) as (fsm1 & σ1 & -> & _).
    apply IH.
Qed.

(** The record of deliveries is read by no method: an action, and so
    [FSM.actOnEvent], does the same whatever the record holds. *)
Lemma afterAction_withDelivered evtType region d σ action :
  afterAction evtType region (withDelivered d σ) action
  = withDelivered d (afterAction evtType region σ action).
Proof.
  unfold afterAction, Action.execute, Action.assign_imageLoc.
  repeat case_bool_decide; try done; by destruct (Action._onRegion action).
Qed.

Lemma afterActions_withDelivered evtType region d actions σ :
  foldl (afterAction evtType region) (withDelivered d σ) actions
  = withDelivered d (foldl (afterAction evtType region) σ actions).
Proof.
  revert σ. induction actions as [|a actions IH]; intros σ; simpl; [done|].
  by rewrite afterAction_withDelivered, IH.
Qed.

Lemma actOnEvent_withDelivered evtType region (fsm fsm' : FSM.t) d σ σ' :
  FSM.actOnEvent evtType region fsm σ = (Normal fsm', σ') →
  FSM.actOnEvent evtType region fsm (withDelivered d σ)
  = (Normal fsm', withDelivered d σ').
Proof.
  unfold FSM.actOnEvent. destruct (FSM._currentState fsm) as [st|].
  2:{ by intros [= <- <-]. }
  induction (FSM.transitionsOf fsm st) as [|t transs IH]; simpl.
  - by intros [= <- <-].
  - destruct (Transition.match_ evtType region t); [|done].
    unfold mbind, M_bind. rewrite !forEach_execute.
    intros [= <- <-]. by rewrite afterActions_withDelivered.
Qed.

(** The delivery of a list of events to the FSM of the interactor is
    the call of [FSM.actOnEvent] on each of them, in order, on the FSM
    installed; each call is recorded. *)
Lemma deliverAll_calls (events : list (EventType * option loc)) :
  ∀ (this : FSMInteractor.t) (fsm fsm' : FSM.t) d σ σ0,
    FSMInteractor._fsm this = Some fsm →
    actOnEvents events fsm σ = (Normal fsm', σ0) →
    deliverAll events this (withDelivered d σ)
    = (Normal (FSMInteractor.set_fsm (Some fsm') this),
       withDelivered (d ++ events) σ0).
Proof.
  unfold actOnEvents, deliverAll.
  induction events as [|ev events IH]; intros this fsm fsm' d σ σ0 Hfsm; simpl.
  - intros [= <- <-]. rewrite app_nil_r. by destruct this; simpl in *; subst.
  - intros (fsm1 & σ1 & Hstep & Hrest)%bind_Normal_inv.
    unfold mbind at 1. unfold M_bind at 1.
    unfold FSMInteractor.fsm_actOnEvent at 1. rewrite Hfsm.
    unfold mbind at 1 2. unfold M_bind, modifyWorld.
    change (record_delivery ev.1 ev.2 (withDelivered d σ))
      with (withDelivered (d ++ [(ev.1, ev.2)]) σ).
    rewrite (actOnEvent_withDelivered _ _ _ _ _ _ _ Hstep).
    unfold mret, M_ret.
    rewrite (IH (FSMInteractor.set_fsm (Some fsm1) this) fsm1 fsm'
                (d ++ [(ev.1, ev.2)]) σ1 σ0 eq_refl Hrest).
    rewrite <- app_assoc. by destruct ev.
Qed.

(** The delivery of a list of events to an interactor with an FSM: all
    of them are delivered, in order; nothing is thrown or reported; the
    interactor keeps its position, its parent and its stored pick, and
    its FSM keeps its regions, its states and its start state. *)
Lemma deliverAll_run (events : list (EventType * option loc))
    (this : FSMInteractor.t) (σ : World) (fsm : FSM.t) :
  FSMInteractor._fsm this = Some fsm →
  ∃ this' σ' fsm',
    deliverAll events this σ = (Normal this', σ')
    ∧ delivered σ' = delivered σ ++ events
    ∧ errors σ' = errors σ
    ∧ FSMInteractor._fsm this' = Some fsm'
    ∧ FSM._regions fsm' = FSM._regions fsm
    ∧ FSM._states fsm' = FSM._states fsm
    ∧ FSM._startState fsm' = FSM._startState fsm
    ∧ FSMInteractor.lastPickedRegions this' = FSMInteractor.lastPickedRegions this
    ∧ FSMInteractor._x this' = FSMInteractor._x this
    ∧ FSMInteractor._y this' = FSMInteractor._y this
    ∧ FSMInteractor._parent this' = FSMInteractor._parent this.
Proof.
  revert this σ fsm. induction events as [|ev events IH]; intros this σ fsm Hfsm.
  - exists this, σ, fsm. rewrite app_nil_r. by split_and!.
  - unfold deliverAll. simpl. unfold mbind at 1. unfold M_bind at 1.
    unfold FSMInteractor.fsm_actOnEvent at 1. rewrite Hfsm.
    unfold mbind at 1 2. unfold M_bind, modifyWorld.
    destruct (actOnEvent_Normal ev.1 ev.2 fsm (record_delivery ev.1 ev.2 σ))
      as (fsm1 & σ1 & -> & Herr & Hdel & Hr & Hs & Hst).
    destruct (IH (FSMInteractor.set_fsm (Some fsm1) this) σ1 fsm1 eq_refl)
      as (this' & σ' & fsm' & Hrun & Hdel' & Herr' & Hfsm' & Hr' & Hs' & Hst'
          & Hlast & Hx & Hy & Hp).
    exists this', σ', fsm'. unfold deliverAll in Hrun.
    split_and!; try done; try congruence.
    + rewrite Hdel', Hdel. simpl. rewrite <- app_assoc. by destruct ev.
    + by rewrite Herr', Herr.
Qed.

(** [dispatchRawEvent] is the delivery of the expected events, then the
    assignment of the stored pick. *)
Lemma dispatchRawEvent_eq (what : RawEvent) (localX localY : number)
    (this : FSMInteractor.t) (σ : World) :
  is_Some (FSMInteractor._fsm this) →
  FSMInteractor.dispatchRawEvent what localX localY this σ
  = (this' ← deliverAll
               (expectedEvents what (FSMInteractor.lastPickedRegions this)
                  (FSMInteractor.pick (heap σ) localX localY this)) this;
     mret (FSMInteractor.set_lastPickedRegions
             (FSMInteractor.pick (heap σ) localX localY this) this')) σ.
Proof.
  intros [fsm0 Hfsm0]. unfold FSMInteractor.dispatchRawEvent. rewrite Hfsm0.
  unfold mbind at 1. unfold M_bind at 1. unfold getWorld at 1.
  set (current := FSMInteractor.pick (heap σ) localX localY this).
  set (previous := FSMInteractor.lastPickedRegions this).
  rewrite !filter_includes_difference.
  set (E1 := (λ r, (exit, Some r)) <$> list_difference previous current).
  set (E2 := (λ r, (enter, Some r)) <$> list_difference current previous).
  set (E3 := (λ r, (insideEvent what, Some r)) <$> current).
  destruct (deliverAll_run E1 this σ fsm0 Hfsm0)
    as (this1 & σ1 & fsm1 & Hrun1 & _ & _ & Hfsm1 & _).
  destruct (deliverAll_run E2 this1 σ1 fsm1 Hfsm1)
    as (this2 & σ2 & fsm2 & Hrun2 & _ & _ & Hfsm2 & _).
  destruct (deliverAll_run E3 this2 σ2 fsm2 Hfsm2)
    as (this3 & σ3 & fsm3 & Hrun3 & _ & _ & Hfsm3 & _).
  unfold deliverAll, E1, E2, E3 in Hrun1, Hrun2, Hrun3.
  assert (Hall : ∀ last,
    deliverAll (E1 ++ E2 ++ E3 ++ last) this σ = deliverAll last this3 σ3).
  { intros last. unfold deliverAll.
    rewrite (forEachWith_app _ _ _ _ _ this1 σ1) by done.
    rewrite (forEachWith_app _ _ _ _ _ this2 σ2) by done.
    by rewrite (forEachWith_app _ _ _ _ _ this3 σ3) by done. }
  rewrite forEachWith_fmap in Hrun1, Hrun2, Hrun3. simpl in Hrun1, Hrun2, Hrun3.
  assert (Hrun3' :
    forEachWith current
      (λ reg, match what with
              | raw_move => FSMInteractor.fsm_actOnEvent move_inside (Some reg)
              | raw_press => FSMInteractor.fsm_actOnEvent press (Some reg)
              | raw_release => FSMInteractor.fsm_actOnEvent release (Some reg)
              end) this2 σ2 = (Normal this3, σ3)).
  { rewrite <- Hrun3. by destruct what. }
  rewrite (bind_Normal _ _ _ _ _ Hrun1).
  rewrite (bind_Normal _ _ _ _ _ Hrun2).
  rewrite (bind_Normal _ _ _ _ _ Hrun3').
  unfold expectedEvents. fold previous E1 E2 E3.
  unfold mbind at 2. unfold M_bind at 2. rewrite Hall.
  destruct (decide (what = raw_release ∧ current = [])) as [[Hw Hc]|Hno].
  - rewrite bool_decide_eq_true_2 by done.
    rewrite bool_decide_eq_true_2 by (by rewrite Hc).
    unfold deliverAll. simpl. unfold mbind, M_bind.
    by destruct (FSMInteractor.fsm_actOnEvent release_none None this3 σ3)
      as [[?|?] ?].
  - assert (bool_decide (what = raw_release)
            && bool_decide (length current = 0%nat) = false) as ->.
    { apply andb_false_iff. rewrite !bool_decide_eq_false.
      destruct (decide (what = raw_release)); [|by left].
      right. intros Hlen. apply Hno. split; [done|].
      by apply length_zero_iff_nil. }
    done.
Qed.

(** C1.  With an FSM installed, [dispatchRawEvent] returns normally and
    the calls it makes to [FSM.actOnEvent] are, in order: [exit] for each
    region of the previous pick that is not in the current one, in the
    order of the previous pick; [enter] for each region of the current
    pick that is not in the previous one, in the order of the current
    pick; for each region of the current pick, in its order, the event
    of the raw kind; and [release_none] with no region after a release
    over no region.  The FSM of the interactor and the world are then
    those that the calls of [FSM.actOnEvent] on these events, one after
    the other, on the FSM installed, leave; the record of deliveries has
    grown by these events; and the stored pick is the current pick,
    whatever the FSM did.  The stored pick of a new interactor is empty;
    a press over no region delivers the exits alone, a release over no
    region the exits and then [release_none]. *)
Theorem C1_dispatch_order (what : RawEvent) (localX localY : number)
    (this : FSMInteractor.t) (σ : World) (fsm : FSM.t) :
  FSMInteractor._fsm this = Some fsm →
  (∃ fsm' σ0,
     actOnEvents
       (expectedEvents what (FSMInteractor.lastPickedRegions this)
                       (FSMInteractor.pick (heap σ) localX localY this))
       fsm σ = (Normal fsm', σ0)
     ∧ FSMInteractor.dispatchRawEvent what localX localY this σ
       = (Normal (FSMInteractor.set_lastPickedRegions
                    (FSMInteractor.pick (heap σ) localX localY this)
                    (FSMInteractor.set_fsm (Some fsm') this)),
          withDelivered
            (delivered σ
             ++ expectedEvents what (FSMInteractor.lastPickedRegions this)
                               (FSMInteractor.pick (heap σ) localX localY this))
            σ0))
  ∧ (∀ fsm x y parent,
       FSMInteractor.lastPickedRegions (FSMInteractor.new fsm x y parent) = [])
  ∧ (∀ previous,
       expectedEvents raw_press previous [] = (λ r, (exit, Some r)) <$> previous)
  ∧ (∀ previous,
       expectedEvents raw_release previous []
       = ((λ r, (exit, Some r)) <$> previous) ++ [(release_none, None)]).
Proof.
  intros Hfsm. split_and!; [|done| |].
  2:{ intros previous. unfold expectedEvents. simpl.
      by rewrite list_difference_nil_r, app_nil_r. }
  2:{ intros previous. unfold expectedEvents. simpl.
      by rewrite list_difference_nil_r. }
  set (events := expectedEvents what (FSMInteractor.lastPickedRegions this)
                   (FSMInteractor.pick (heap σ) localX localY this)).
  destruct (actOnEvents_Normal events fsm σ) as (fsm' & σ0 & Hcalls).
  exists fsm', σ0. split; [exact Hcalls|].
  rewrite dispatchRawEvent_eq by (by eexists). fold events.
  assert (Hσ : σ = withDelivered (delivered σ) σ) by (by destruct σ).
  rewrite Hσ at 1.
  rewrite (bind_Normal _ _ _ _ _
             (deliverAll_calls events this fsm fsm' (delivered σ) σ σ0
                Hfsm Hcalls)).
  done.
Qed.

(** ** C7: binding the region of an event specification *)

(** What [findRegionNamed] returns: the first region of the list that
    carries the name, and nothing exactly when no region carries it. *)
Lemma findRegionNamed_Some hp nm regionList R :
  findRegionNamed hp nm regionList = Some R →
  ∃ before after,
    regionList = before ++ R :: after
    ∧ Region.name (hp R) = nm
    ∧ ∀ R', R' ∈ before → Region.name (hp R') ≠ nm.
Proof.
  induction regionList as [|reg rest IH]; simpl; [done|].
  destruct (String.eqb_spec nm (Region.name (hp reg))) as [Heq|Hne].
  - intros [= <-]. exists [], rest. split_and!; [done|done|].
    by intros R' ?%elem_of_nil.
  - intros (before & after & -> & Hnm & Hbefore)%IH.
    exists (reg :: before), after. split_and!; [done|done|].
    intros R' [->|?]%elem_of_cons; [congruence|by apply Hbefore].
Qed.

Lemma findRegionNamed_None hp nm regionList :
  findRegionNamed hp nm regionList = None
  ↔ ∀ R, R ∈ regionList → Region.name (hp R) ≠ nm.
Proof.
  induction regionList as [|reg rest IH]; simpl.
  - split; [by intros _ R ?%elem_of_nil | done].
  - destruct (String.eqb_spec nm (Region.name (hp reg))) as [Heq|Hne].
    + split; [done|]. intros Hall. exfalso.
      by apply (Hall reg); [apply list_elem_of_here|].
    + rewrite IH. split.
      * intros Hall R [->|?]%elem_of_cons; [congruence|by apply Hall].
      * intros Hall R HR. apply Hall. by apply list_elem_of_further.
Qed.

(** What [EventSpec.bindRegion] comes to, case by case. *)
Lemma EventSpec_bindRegion_eq (regionList : list loc) (spec : EventSpec.t)
    (σ : World) :
  EventSpec.bindRegion regionList spec σ =
    if decide (EventSpec._regionName spec = "*") then
      (Normal (EventSpec.set_region None spec), σ)
    else
      match findRegionNamed (heap σ) (EventSpec._regionName spec) regionList with
      | Some R => (Normal (EventSpec.set_region (Some R) spec), σ)
      | None =>
          if decide (needsNoRegion spec) then (Normal spec, σ)
          else (if errThrows σ then Thrown (unboundRegionMessage spec)
                else Normal spec,
                report_error (unboundRegionMessage spec) σ)
      end.
Proof.
  unfold EventSpec.bindRegion, needsNoRegion.
  destruct (String.eqb_spec (EventSpec._regionName spec) "*") as [Hs|Hs].
  { by rewrite decide_True. }
  rewrite decide_False by done.
  unfold mbind, M_bind, getWorld.
  destruct (findRegionNamed _ _ _); [done|].
  destruct (decide _) as [Hno|Hno].
  + destruct (String.eqb_spec (EventSpec._regionName spec) EmptyString) as [He|He];
      repeat case_bool_decide; simpl; try done; exfalso; intuition congruence.
  + destruct (String.eqb_spec (EventSpec._regionName spec) EmptyString) as [He|He];
      repeat case_bool_decide; simpl;
      try (exfalso; intuition congruence);
      unfold Err.emit, unboundRegionMessage; by destruct (errThrows σ).
Qed.

(** C7, amended.  The bound region is absent when the region name is
    "*".  Otherwise, when a region of the collection carries the name,
    the bound region is the first such region, whatever the event type.
    When no region carries the name, the bound region stays as it was
    and the world too if the specification needs no region; if it needs
    one, the error is reported, and the call throws when reporting
    throws. *)
Theorem C7_bindRegion_resolution (regionList : list loc) (spec : EventSpec.t)
    (σ : World) :
  (EventSpec.bindRegion regionList spec σ =
     if decide (EventSpec._regionName spec = "*") then
       (Normal (EventSpec.set_region None spec), σ)
     else
       match findRegionNamed (heap σ) (EventSpec._regionName spec) regionList with
       | Some R => (Normal (EventSpec.set_region (Some R) spec), σ)
       | None =>
           if decide (needsNoRegion spec) then (Normal spec, σ)
           else (if errThrows σ then Thrown (unboundRegionMessage spec)
                 else Normal spec,
                 report_error (unboundRegionMessage spec) σ)
       end)
  ∧ (∀ R, findRegionNamed (heap σ) (EventSpec._regionName spec) regionList = Some R →
          ∃ before after,
            regionList = before ++ R :: after
            ∧ Region.name (heap σ R) = EventSpec._regionName spec
            ∧ ∀ R', R' ∈ before →
                    Region.name (heap σ R') ≠ EventSpec._regionName spec)
  ∧ (findRegionNamed (heap σ) (EventSpec._regionName spec) regionList = None
     ↔ ∀ R, R ∈ regionList →
            Region.name (heap σ R) ≠ EventSpec._regionName spec).
Proof.
  split_and!.
  - apply EventSpec_bindRegion_eq.
  - apply findRegionNamed_Some.
  - apply findRegionNamed_None.
Qed.

(** ** C8: draw *)

Lemma draw_loop_canvas (regions : list loc) (showDebugging : bool) (σ : World) :
  ∃ σ',
    FSMInteractor.draw_loop regions showDebugging σ = (Normal (), σ')
    ∧ canvas σ' = canvas σ ++ (regions ≫= drawnRegion (heap σ) true)
    ∧ heap σ' = heap σ.
Proof.
  revert showDebugging σ.
  induction regions as [|reg regions IH]; intros showDebugging σ; simpl.
  - exists σ. by rewrite app_nil_r.
  - unfold mbind at 1 2 3 4 5. unfold M_bind, modifyWorld, getWorld. simpl.
    match goal with |- ∃ σ', FSMInteractor.draw_loop _ _ ?σ1 = _ ∧ _ =>
      destruct (IH true σ1) as (σ' & Hrun & Hcanvas & Hheap) end.
    exists σ'. split; [done|]. rewrite Hcanvas, Hheap. simpl.
    by rewrite <- !app_assoc.
Qed.

(** [draw] goes through the regions in declared order, translates the
    origin by the position of each, and asks each region to draw itself
    with the debugging display on, whatever flag the caller gave. *)
Lemma draw_canvas (showDebugging : bool) (fsm : FSM.t) x y parent last (σ : World) :
  ∃ σ',
    FSMInteractor.draw showDebugging (FSMInteractor.mk (Some fsm) x y parent last) σ
      = (Normal (), σ')
    ∧ canvas σ' = canvas σ ++ (FSM._regions fsm ≫= drawnRegion (heap σ) true).
Proof.
  unfold FSMInteractor.draw. simpl.
  destruct (draw_loop_canvas (FSM._regions fsm) showDebugging σ)
    as (σ' & Hrun & Hcanvas & _).
  by exists σ'.
Qed.

(** C8.  [draw] called with the debugging flag off on the example
    interactor: the two regions are drawn in declared order, each after
    a translation by its position, and each is asked for the debugging
    display: the flag of the caller is overwritten inside the loop. *)
Theorem C8_draw_overrides_flag :
  ∃ σ',
    FSMInteractor.draw false ex_interactor (ex_world false) = (Normal (), σ')
    ∧ canvas σ'
      = [ctx_save; ctx_translate 0 0; region_draw 1%positive true; ctx_restore;
         ctx_save; ctx_translate 5 5; region_draw 2%positive true; ctx_restore].
Proof.
  exists (mkWorld ex_heap 3%positive [] [] false []
    [ctx_save; ctx_translate 0 0; region_draw 1%positive true; ctx_restore;
     ctx_save; ctx_translate 5 5; region_draw 2%positive true; ctx_restore] []).
  split; vm_compute; reflexivity.
Qed.

(** ** The example interactor *)

Example ex_fsm_constructed :
  FSM.new [1%positive; 2%positive] ex_states (ex_world false)
  = (Normal ex_fsm, ex_world false).
Proof. reflexivity. Qed.

(** Over both regions, from outside: two enters, topmost region first,
    then the two moves. *)
Lemma C1_dispatch_order_witness :
  FSMInteractor._fsm ex_interactor = Some ex_fsm
  ∧ ∃ this' σ',
      FSMInteractor.dispatchRawEvent raw_press 2 2 ex_interactor (ex_world false)
        = (Normal this', σ')
      ∧ delivered σ' = [(enter, Some 1%positive); (press, Some 1%positive)]
      ∧ console σ' = ["other"; "got press(A)"]
      ∧ FSMInteractor._fsm this'
        = Some (FSM.set_currentState (Some 1%nat) ex_fsm)
      ∧ FSMInteractor.lastPickedRegions this' = [1%positive].
Proof.
  split; [reflexivity|].
  destruct (C1_dispatch_order raw_press 2 2 ex_interactor (ex_world false)
              ex_fsm eq_refl) as ((fsm' & σ0 & Hcalls & Hrun) & _).
  eexists _, _. split; [exact Hrun|].
  vm_compute in Hcalls. injection Hcalls as <- <-.
  split_and!; reflexivity.
Defined.

(** A press on region A in the state idle: the transition on enter B
    does not match, the transition on press A does and is taken, the
    transition on any event, which matches too, is not. *)
Lemma C3_first_match_fires_witness :
  FSM._currentState ex_fsm = Some 0%nat
  ∧ (∃ t, t ∈ FSM.transitionsOf ex_fsm 0
          ∧ Transition.match_ press (Some 1%positive) t = true)
  ∧ Transition.match_ press (Some 1%positive) ex_enterB = false
  ∧ Transition.match_ press (Some 1%positive) ex_anyAll = true
  ∧ ∃ this' σ',
      FSM.actOnEvent press (Some 1%positive) ex_fsm (ex_world false)
      = (Normal this', σ')
      ∧ FSM._currentState this' = Some 1%nat
      ∧ σ' = mkWorld (heap_update 1%positive (Region.set_imageLoc "down.png")
                        ex_heap)
                     3%positive ["got press(A)"] [] false [] [] [].
Proof.
  assert (Hsome : ∃ t, t ∈ FSM.transitionsOf ex_fsm 0
                       ∧ Transition.match_ press (Some 1%positive) t = true).
  { exists ex_pressA. split; [|reflexivity].
    apply list_elem_of_further, list_elem_of_here. }
  split_and!; [reflexivity|exact Hsome|reflexivity|reflexivity|].
  destruct (C3_first_match_fires ex_fsm (ex_world false) press (Some 1%positive)
              0 eq_refl Hsome)
    as (pre & trans & post & this' & σ' & _ & _ & _ & Hrun & Hcur & _).
  exists this', σ'. split; [exact Hrun|].
  vm_compute in Hrun. injection Hrun as <- <-. split; reflexivity.
Defined.

(** An enter of region B in the state down, whose one transition waits
    for a release on A. *)
Lemma C6_no_match_absorbed_witness :
  FSM._currentState (FSM.set_currentState (Some 1%nat) ex_fsm) = Some 1%nat
  ∧ (∀ t, t ∈ FSM.transitionsOf (FSM.set_currentState (Some 1%nat) ex_fsm) 1 →
          Transition.match_ enter (Some 2%positive) t = false)
  ∧ FSM.actOnEvent enter (Some 2%positive)
      (FSM.set_currentState (Some 1%nat) ex_fsm) (ex_world false)
    = (Normal (FSM.set_currentState (Some 1%nat) ex_fsm), ex_world false).
Proof.
  assert (Hno : ∀ t,
    t ∈ FSM.transitionsOf (FSM.set_currentState (Some 1%nat) ex_fsm) 1 →
    Transition.match_ enter (Some 2%positive) t = false).
  { intros t Ht. apply list_elem_of_singleton in Ht. by subst. }
  split_and!; [done|done|].
  by apply (C6_no_match_absorbed _ _ _ _ 1%nat).
Defined.

(** The point (7,7) lies in both regions of the example; B, declared
    last, comes first. *)
Lemma C4_pick_contained_reversed_witness :
  FSMInteractor._fsm ex_interactor = Some ex_fsm
  ∧ FSMInteractor.pick ex_heap 7 7 ex_interactor = [2%positive; 1%positive]
  ∧ FSMInteractor.pick ex_heap 0 10 ex_interactor = [1%positive]
  ∧ FSMInteractor.pick ex_heap 16 5 ex_interactor = [].
Proof.
  split; [done|].
  split_and!.
  - by destruct (C4_pick_contained_reversed ex_heap 7 7 ex_interactor ex_fsm eq_refl)
      as (_ & _ & ->).
  - by destruct (C4_pick_contained_reversed ex_heap 0 10 ex_interactor ex_fsm eq_refl)
      as (_ & _ & ->).
  - by destruct (C4_pick_contained_reversed ex_heap 16 5 ex_interactor ex_fsm eq_refl)
      as (_ & _ & ->).
Defined.

(** The claim on [pick] does not hold in exact arithmetic.  A region has
    its left edge at 2^53 + 2 and is one wide; the point is at
    2^53 + 4, three to the right of the edge.  The sum of the edge and
    the width is 2^53 + 3, which is no double and is rounded to
    2^53 + 4: [pick] returns the region, which does not contain the
    point. *)
Lemma C4_pick_counterexample :
  FSMInteractor.pick ex_far_heap 9007199254740996 0 ex_far_interactor
  = [1%positive]
  ∧ finiteBox (ex_far_heap 1%positive) 9007199254740996 0
  ∧ ¬ containsExactly (ex_far_heap 1%positive) 9007199254740996 0
  ∧ ¬ pick_claim ex_far_heap 9007199254740996 0 ex_far_interactor.
Proof.
  assert (Hpick :
    FSMInteractor.pick ex_far_heap 9007199254740996 0 ex_far_interactor
    = [1%positive]) by (vm_compute; reflexivity).
  assert (Hfinite : finiteBox (ex_far_heap 1%positive) 9007199254740996 0).
  { unfold finiteBox. vm_compute. repeat split; by eexists. }
  assert (Hout : ¬ containsExactly (ex_far_heap 1%positive) 9007199254740996 0).
  { intros Hin. vm_compute in Hin. destruct Hin as (_ & Hright & _).
    by apply Hright. }
  split_and!; [exact Hpick|exact Hfinite|exact Hout|].
  intros Hclaim. apply Hout.
  apply (Hclaim (FSM.mk [1%positive] [] None None) eq_refl 1%positive);
    [apply list_elem_of_here|exact Hfinite|].
  rewrite Hpick. apply list_elem_of_here.
Qed.

(** The claim on [bindRegion] fails for a nevermatch specification that
    names a region of the collection: the region is bound. *)
Lemma C7_bindRegion_counterexample :
  EventSpec.bindRegion [1%positive; 2%positive] (EventSpec.new nevermatch "A")
                       (ex_world false)
  = (Normal (EventSpec.mk nevermatch "A" (Some 1%positive)), ex_world false)
  ∧ ¬ bindRegion_claim [1%positive; 2%positive] (EventSpec.new nevermatch "A")
                       (ex_world false).
Proof.
  split; [done|].
  unfold bindRegion_claim. simpl. done.
Qed.

(** ** Error reports during construction *)

Lemma quiet_between (l l1 l2 : list string) :
  l `prefix_of` l1 → l1 `prefix_of` l2 → l2 = l → l1 = l.
Proof.
  intros [k1 ->] [k2 ->] Heq.
  apply (f_equal length) in Heq. rewrite !length_app in Heq.
  assert (k1 = []) as -> by (apply length_zero_iff_nil; lia).
  by rewrite app_nil_r.
Qed.

Lemma lawful_ret {A} (a : A) : lawful (mret a).
Proof.
  intros σ o σ' [= <- <-]. split_and!; [done|done|done|done].
Qed.

Lemma lawful_getWorld : lawful getWorld.
Proof. intros σ o σ' [= <- <-]. split_and!; done. Qed.

Lemma lawful_emit msg : lawful (Err.emit msg).
Proof.
  intros σ o σ' Hrun. unfold Err.emit in Hrun.
  assert (Hne : errors (report_error msg σ) ≠ errors σ).
  { simpl. intros Heq. apply (f_equal length) in Heq.
    rewrite length_app in Heq. simpl in Heq. lia. }
  destruct (errThrows σ) eqn:Hmode; injection Hrun as <- <-;
    (split_and!; [by apply prefix_app_r|done|done|done]).
Qed.

Lemma lawful_bind {A B} (m : M A) (k : A → M B) :
  lawful m → (∀ a, lawful (k a)) → lawful (m ≫= k).
Proof.
  intros Hm Hk σ o σ' Hrun. unfold mbind, M_bind in Hrun.
  destruct (m σ) as [[a|msg] σ1] eqn:Hmσ.
  - destruct (Hm _ _ _ Hmσ) as (Hp1 & Hm1 & _ & Hn1).
    destruct (Hk a _ _ _ Hrun) as (Hp2 & Hm2 & Ht2 & Hn2).
    split_and!.
    + by etrans.
    + congruence.
    + intros msg ->. destruct (Ht2 msg eq_refl) as [Hmode Hne].
      split; [congruence|]. intros Heq. apply Hne.
      rewrite Heq. symmetry. by eapply quiet_between.
    + intros b -> Hmode. rewrite (Hn2 b eq_refl) by congruence.
      by apply (Hn1 a).
  - injection Hrun as <- <-.
    destruct (Hm _ _ _ Hmσ) as (Hp1 & Hm1 & Ht1 & _).
    split_and!; [done|done| |done].
    intros msg' [= <-]. by apply (Ht1 msg).
Qed.

Lemma lawful_forEachWith {A S} (l : list A) (body : A → S → M S) (s : S) :
  (∀ a s, lawful (body a s)) → lawful (forEachWith l body s).
Proof.
  intros Hbody. revert s. induction l as [|a l IH]; intros s; simpl.
  - apply lawful_ret.
  - apply lawful_bind; [apply Hbody|apply IH].
Qed.

Lemma lawful_forEachBind {A} (l : list A) (body : A → M A) :
  (∀ a, lawful (body a)) → lawful (forEachBind l body).
Proof.
  intros Hbody. induction l as [|a l IH]; simpl.
  - apply lawful_ret.
  - apply lawful_bind; [apply Hbody|]. intros a'.
    apply lawful_bind; [apply IH|]. intros l'. apply lawful_ret.
Qed.

(** In the mode where [Err.emit] returns, a lawful computation returns
    normally. *)
Lemma lawful_returns {A} (m : M A) σ :
  lawful m → errThrows σ = false → ∃ a σ', m σ = (Normal a, σ').
Proof.
  intros Hm Hmode. destruct (m σ) as [[a|msg] σ'] eqn:Hrun.
  - by exists a, σ'.
  - destruct (Hm _ _ _ Hrun) as (_ & _ & Ht & _).
    destruct (Ht msg eq_refl). congruence.
Qed.

Lemma lawful_bindTarget stateList trans :
  lawful (Transition_bindTarget stateList trans).
Proof.
  unfold Transition_bindTarget. destruct (findStateNamed _ _).
  - apply lawful_ret.
  - apply lawful_bind; [apply lawful_emit|]. intros _. apply lawful_ret.
Qed.

Lemma lawful_EventSpec_bindRegion regionList spec :
  lawful (EventSpec.bindRegion regionList spec).
Proof.
  unfold EventSpec.bindRegion. destruct (String.eqb _ "*").
  - apply lawful_ret.
  - apply lawful_bind; [apply lawful_getWorld|]. intros σ.
    destruct (findRegionNamed _ _ _); [apply lawful_ret|].
    destruct (bool_decide _); [apply lawful_ret|].
    destruct (_ && _); [apply lawful_ret|].
    apply lawful_bind; [apply lawful_emit|]. intros _. apply lawful_ret.
Qed.

Lemma lawful_Action_bindRegion regionList action :
  lawful (Action.bindRegion regionList action).
Proof.
  unfold Action.bindRegion.
  apply lawful_bind; [apply lawful_getWorld|]. intros σ.
  destruct (findRegionNamed _ _ _); [apply lawful_ret|].
  destruct (_ || _); [apply lawful_ret|].
  apply lawful_bind; [apply lawful_emit|]. intros _. apply lawful_ret.
Qed.

Lemma lawful_bindTransition fsm trans : lawful (FSM.bindTransition fsm trans).
Proof.
  unfold FSM.bindTransition.
  apply lawful_bind; [apply lawful_bindTarget|]. intros trans'.
  apply lawful_bind; [apply lawful_EventSpec_bindRegion|]. intros ev.
  apply lawful_bind; [|intros acts; apply lawful_ret].
  apply lawful_forEachBind. intros a. apply lawful_Action_bindRegion.
Qed.

Lemma lawful_new regions states : lawful (FSM.new regions states).
Proof.
  unfold FSM.new, FSM._finalize.
  apply lawful_bind; [|intros sts; apply lawful_ret].
  apply lawful_forEachBind. intros state.
  apply lawful_bind; [|intros ts; apply lawful_ret].
  apply lawful_forEachBind. intros trans. apply lawful_bindTransition.
Qed.

Lemma lawful_Region_fromJson rj : lawful (Region_fromJson rj).
Proof. intros σ o σ' [= <- <-]. split_and!; done. Qed.

Lemma lawful_addRegion reg acc : lawful (FSM.addRegion reg acc).
Proof.
  unfold FSM.addRegion. destruct acc as [allNames regions].
  destruct (bool_decide _).
  - apply lawful_bind; [apply lawful_emit|]. intros _. apply lawful_ret.
  - apply lawful_bind; [apply lawful_Region_fromJson|]. intros l.
    apply lawful_ret.
Qed.

Lemma lawful_addState st acc : lawful (FSM.addState st acc).
Proof.
  unfold FSM.addState. destruct acc as [allNames states].
  destruct (bool_decide _).
  - apply lawful_bind; [apply lawful_emit|]. intros _. apply lawful_ret.
  - apply lawful_ret.
Qed.

Lemma lawful_fromJson data : lawful (FSM.fromJson data).
Proof.
  unfold FSM.fromJson.
  apply lawful_bind.
  { destruct (fj_regions data).
    - apply lawful_forEachWith. intros. apply lawful_addRegion.
    - apply lawful_bind; [apply lawful_emit|]. intros _. apply lawful_ret. }
  intros [names regions].
  apply lawful_bind.
  { destruct (fj_states data).
    - apply lawful_bind.
      + destruct (bool_decide _); [apply lawful_emit|apply lawful_ret].
      + intros _. apply lawful_forEachWith. intros. apply lawful_addState.
    - apply lawful_bind; [apply lawful_emit|]. intros _. apply lawful_ret. }
  intros [names' states]. apply lawful_new.
Qed.

(** A run that returns normally and reports nothing, taken apart. *)
Lemma bind_quiet_inv {A B} (m : M A) (k : A → M B) σ b σ' :
  lawful m → (∀ a, lawful (k a)) →
  (m ≫= k) σ = (Normal b, σ') → errors σ' = errors σ →
  ∃ a σ1,
    m σ = (Normal a, σ1) ∧ errors σ1 = errors σ
    ∧ k a σ1 = (Normal b, σ') ∧ errors σ' = errors σ1.
Proof.
  intros Hm Hk Hrun Hquiet. unfold mbind, M_bind in Hrun.
  destruct (m σ) as [[a|msg] σ1] eqn:Hmσ; [|done].
  destruct (Hm _ _ _ Hmσ) as (Hp1 & _).
  destruct (Hk a _ _ _ Hrun) as (Hp2 & _).
  pose proof (quiet_between _ _ _ Hp1 Hp2 Hquiet) as H1.
  exists a, σ1. split_and!; [done|done|done|congruence].
Qed.

Lemma emit_reports msg σ o σ' :
  Err.emit msg σ = (o, σ') → errors σ' ≠ errors σ.
Proof.
  unfold Err.emit. intros Hrun Heq.
  assert (errors σ' = errors σ ++ [msg]) as Hrep.
  { by destruct (errThrows σ); injection Hrun as <- <-. }
  rewrite Hrep in Heq. apply (f_equal length) in Heq.
  rewrite length_app in Heq. simpl in Heq. lia.
Qed.

Lemma emit_then_not_quiet {A} msg (k : M A) σ a σ' :
  lawful k →
  (Err.emit msg ;; k) σ = (Normal a, σ') → errors σ' = errors σ → False.
Proof.
  intros Hk Hrun Hquiet.
  destruct (bind_quiet_inv _ _ _ _ _ (lawful_emit msg) (λ _, Hk) Hrun Hquiet)
    as (? & σ1 & Hemit & Hq1 & _).
  by apply (emit_reports _ _ _ _ Hemit).
Qed.

Lemma forEachBind_quiet {A} (P : A → Prop) (body : A → M A) (l l' : list A) σ σ' :
  (∀ a, lawful (body a)) →
  (∀ a a' σ1, body a σ = (Normal a', σ1) → errors σ1 = errors σ →
              σ1 = σ ∧ P a) →
  forEachBind l body σ = (Normal l', σ') → errors σ' = errors σ →
  σ' = σ ∧ Forall P l.
Proof.
  intros Hlaw Hbody. revert l'. induction l as [|a l IH]; intros l'; simpl.
  - by intros [= <- <-] _.
  - intros Hrun Hquiet.
    assert (Hlawk : ∀ a' : A,
      lawful (l'' ← forEachBind l body; mret (a' :: l''))).
    { intros a'. apply lawful_bind; [by apply lawful_forEachBind|].
      intros. apply lawful_ret. }
    destruct (bind_quiet_inv _ _ _ _ _ (Hlaw a) Hlawk Hrun Hquiet)
      as (a' & σ1 & Hrun1 & Hq1 & Hrun2 & Hq2).
    destruct (Hbody _ _ _ Hrun1 Hq1) as [-> HP].
    unfold mbind, M_bind in Hrun2.
    destruct (forEachBind l body σ) as [[l''|msg] σ2] eqn:Hrest; [|done].
    injection Hrun2 as <- <-.
    destruct (IH l'' eq_refl Hq2) as [-> Hall].
    split; [done|]. by constructor.
Qed.

Lemma bindTarget_quiet stateList trans σ trans' σ' :
  Transition_bindTarget stateList trans σ = (Normal trans', σ') →
  errors σ' = errors σ →
  σ' = σ
  ∧ is_Some (findStateNamed (Transition.targetName trans) stateList)
  ∧ Transition.onEvent trans' = Transition.onEvent trans
  ∧ Transition.actions trans' = Transition.actions trans.
Proof.
  unfold Transition_bindTarget.
  destruct (findStateNamed _ _) as [i|].
  - intros [= <- <-] _. split_and!; [done|by eexists|done|done].
  - intros Hrun Hquiet. exfalso.
    by apply (emit_then_not_quiet _ _ _ _ _ (lawful_ret _) Hrun Hquiet).
Qed.

Lemma EventSpec_bindRegion_quiet regionList spec σ spec' σ' :
  EventSpec.bindRegion regionList spec σ = (Normal spec', σ') →
  errors σ' = errors σ →
  σ' = σ
  ∧ (EventSpec._regionName spec = "*"
     ∨ is_Some (findRegionNamed (heap σ) (EventSpec._regionName spec) regionList)
     ∨ needsNoRegion spec).
Proof.
  rewrite EventSpec_bindRegion_eq.
  destruct (decide (EventSpec._regionName spec = "*")) as [Hs|Hs].
  { intros [= <- <-] _. by split; [|left]. }
  destruct (findRegionNamed _ _ _) as [R|].
  { intros [= <- <-] _. split; [done|]. right; left. by eexists. }
  destruct (decide (needsNoRegion spec)) as [Hno|Hno].
  { intros [= <- <-] _. split; [done|]. by right; right. }
  intros [= _ <-] Hquiet. exfalso. simpl in Hquiet.
  apply (f_equal length) in Hquiet. rewrite length_app in Hquiet.
  simpl in Hquiet. lia.
Qed.

Lemma Action_bindRegion_quiet regionList action σ action' σ' :
  Action.bindRegion regionList action σ = (Normal action', σ') →
  errors σ' = errors σ →
  σ' = σ
  ∧ (is_Some (findRegionNamed (heap σ) (Action._onRegionName action) regionList)
     ∨ Action._actType action = none
     ∨ Action._actType action = print
     ∨ Action._actType action = print_event).
Proof.
  unfold Action.bindRegion. unfold mbind at 1. unfold M_bind, getWorld.
  destruct (findRegionNamed _ _ _) as [R|].
  { intros [= <- <-] _. split; [done|]. left. by eexists. }
  destruct (_ || _) eqn:Hfree.
  - intros [= <- <-] _. split; [done|]. right.
    apply orb_true_iff in Hfree as [Hfree|Hfree];
      [apply orb_true_iff in Hfree as [Hfree|Hfree]|];
      apply bool_decide_eq_true in Hfree; auto.
  - intros Hrun Hquiet. exfalso.
    by apply (emit_then_not_quiet _ _ _ _ _ (lawful_ret _) Hrun Hquiet).
Qed.

Lemma bindTransition_quiet (fsm : FSM.t) trans σ trans' σ' :
  FSM.bindTransition fsm trans σ = (Normal trans', σ') →
  errors σ' = errors σ →
  σ' = σ ∧ bindsQuietly (heap σ) (FSM._regions fsm) (FSM._states fsm) trans.
Proof.
  unfold FSM.bindTransition. intros Hrun Hquiet.
  eapply bind_quiet_inv in Hrun as (t1 & σ1 & Hrun1 & Hq1 & Hrun & Hquiet1);
    [|apply lawful_bindTarget| |done].
  2:{ intros t. apply lawful_bind; [apply lawful_EventSpec_bindRegion|].
      intros ev. apply lawful_bind; [|intros; apply lawful_ret].
      apply lawful_forEachBind. intros. apply lawful_Action_bindRegion. }
  destruct (bindTarget_quiet _ _ _ _ _ Hrun1 Hq1) as (-> & Htarget & Hev & Hacts).
  eapply bind_quiet_inv in Hrun as (ev & σ2 & Hrun2 & Hq2 & Hrun & Hquiet2);
    [|apply lawful_EventSpec_bindRegion| |done].
  2:{ intros ev. apply lawful_bind; [|intros; apply lawful_ret].
      apply lawful_forEachBind. intros. apply lawful_Action_bindRegion. }
  destruct (EventSpec_bindRegion_quiet _ _ _ _ _ Hrun2 Hq2) as (-> & Hregion).
  eapply bind_quiet_inv in Hrun as (acts & σ3 & Hrun3 & Hq3 & Hrun & Hquiet3);
    [| |intros; apply lawful_ret|done].
  2:{ apply lawful_forEachBind. intros. apply lawful_Action_bindRegion. }
  injection Hrun as _ <-.
  eapply forEachBind_quiet in Hrun3 as [-> Hall];
    [| intros; apply lawful_Action_bindRegion
     | intros a a' σ1 Ha Hqa; exact (Action_bindRegion_quiet _ _ _ _ _ Ha Hqa)
     | done].
  split; [done|]. unfold bindsQuietly. rewrite <- Hev, <- Hacts. done.
Qed.

Lemma new_quiet regions states σ fsm σ' :
  FSM.new regions states σ = (Normal fsm, σ') → errors σ' = errors σ →
  σ' = σ
  ∧ Forall (λ st, Forall (bindsQuietly (heap σ) regions states)
                         (State.transitions st)) states.
Proof.
  unfold FSM.new, FSM._finalize.
  set (start := match states with [] => None | _ :: _ => Some 0%nat end).
  set (this := if bool_decide _ then _ else _).
  assert (Hst : FSM._states this = states).
  { unfold this. by case_bool_decide. }
  assert (Hrg : FSM._regions this = regions).
  { unfold this. by case_bool_decide. }
  rewrite Hst. intros Hrun Hquiet.
  assert (Hlawbody : ∀ state : State.t,
    lawful (ts ← forEachBind (State.transitions state) (FSM.bindTransition this);
            mret (State.set_transitions ts state))).
  { intros state. apply lawful_bind; [|intros; apply lawful_ret].
    apply lawful_forEachBind. intros. apply lawful_bindTransition. }
  eapply bind_quiet_inv in Hrun as (sts & σ1 & Hrun1 & Hq1 & Hrun & _);
    [|by apply lawful_forEachBind|intros; apply lawful_ret|done].
  injection Hrun as _ <-.
  eapply (forEachBind_quiet
            (λ st, Forall (bindsQuietly (heap σ) regions states)
                          (State.transitions st))) in Hrun1; [done|done| |done].
  intros state state' σ2 Hbody Hq2.
  eapply bind_quiet_inv in Hbody as (ts & σ3 & Hrun3 & Hq3 & Hbody & _);
    [| |intros; apply lawful_ret|done].
  2:{ apply lawful_forEachBind. intros. apply lawful_bindTransition. }
  injection Hbody as _ <-.
  eapply forEachBind_quiet in Hrun3; [done| | |done].
  - intros. apply lawful_bindTransition.
  - intros t t' σ4 Ht Hq4.
    destruct (bindTransition_quiet _ _ _ _ _ Ht Hq4) as [-> Hb].
    by rewrite Hst, Hrg in Hb.
Qed.

Lemma findStateNamed_is_Some nm (states : list State.t) :
  is_Some (findStateNamed nm states) ↔ nm ∈ State.name <$> states.
Proof.
  induction states as [|st states IH]; simpl.
  - split; [by intros [? ?] | by intros ?%elem_of_nil].
  - rewrite elem_of_cons.
    destruct (String.eqb_spec nm (State.name st)) as [Heq|Hne].
    + split; [by left | by eexists].
    + rewrite fmap_is_Some, IH. split; [by right | by intros [?|?]].
Qed.

Lemma findRegionNamed_is_Some hp nm (regions : list loc) :
  is_Some (findRegionNamed hp nm regions)
  ↔ nm ∈ (λ l, Region.name (hp l)) <$> regions.
Proof.
  induction regions as [|reg regions IH]; simpl.
  - split; [by intros [? ?] | by intros ?%elem_of_nil].
  - rewrite elem_of_cons.
    destruct (String.eqb_spec nm (Region.name (hp reg))) as [Heq|Hne].
    + split; [by left | by eexists].
    + rewrite IH. split; [by right | by intros [?|?]].
Qed.

Local Arguments FSM.addRegion : simpl never.
Local Arguments FSM.addState : simpl never.

(** The loop over the region records, when it reports nothing: no name
    comes twice, and the regions collected carry the names of the
    records, in order. *)
Lemma addRegions_quiet (rs : list Region_json) :
  ∀ (allNames : gset string) (regions : list loc) σ allNames' regions' σ'
    (N : list string),
  forEachWith rs FSM.addRegion (allNames, regions) σ
    = (Normal (allNames', regions'), σ') →
  errors σ' = errors σ →
  (∀ n, n ∈ allNames ↔ n ∈ N) →
  (λ l, Region.name (heap σ l)) <$> regions = N →
  (∀ l, l ∈ regions → (l < nextLoc σ)%positive) →
  NoDup N →
  NoDup (N ++ (rj_name <$> rs))
  ∧ (λ l, Region.name (heap σ' l)) <$> regions' = N ++ (rj_name <$> rs).
Proof.
  induction rs as [|reg rs IH];
    intros allNames regions σ allNames' regions' σ' N; simpl.
  - intros [= <- <- <-] _ _ Hnames _ Hnodup. by rewrite app_nil_r.
  - intros Hrun Hquiet Hset Hnames Hfresh Hnodup.
    eapply bind_quiet_inv in Hrun as (acc & σ1 & Hrun1 & Hq1 & Hrun & Hq2);
      [|apply lawful_addRegion
       |intros; apply lawful_forEachWith; intros; apply lawful_addRegion
       |done].
    unfold FSM.addRegion in Hrun1. case_bool_decide as Hin.
    { exfalso. by apply (emit_then_not_quiet _ _ _ _ _ (lawful_ret _) Hrun1 Hq1). }
    unfold mbind, M_bind, Region_fromJson in Hrun1. simpl in Hrun1.
    injection Hrun1 as <- <-.
    assert (Hnew : rj_name reg ∉ N) by (by rewrite <- Hset).
    eapply (IH _ _ _ _ _ _ (N ++ [rj_name reg])) in Hrun; [| done | | | |].
    + by rewrite <- !app_assoc in Hrun.
    + intros n. rewrite elem_of_union, elem_of_singleton, Hset, elem_of_app,
        list_elem_of_singleton. tauto.
    + rewrite fmap_app. simpl. unfold heap_new.
      rewrite decide_True by done. simpl.
      f_equal. rewrite <- Hnames. apply list_fmap_ext.
      intros i l Hl. apply list_elem_of_lookup_2 in Hl.
      apply Hfresh in Hl. rewrite decide_False; [done|]. lia.
    + simpl. intros l [Hl| ->%list_elem_of_singleton]%elem_of_app.
      * apply Hfresh in Hl. lia.
      * lia.
    + apply NoDup_app. split_and!; [done| |apply NoDup_singleton].
      intros n Hn ->%list_elem_of_singleton. done.
Qed.

(** The loop over the state records, when it reports nothing: no name
    comes twice, every record has become a state, and the world is as it
    was. *)
Lemma addStates_quiet (sts : list State_json) :
  ∀ (allNames : gset string) (states : list State.t) σ allNames' states' σ',
  forEachWith sts FSM.addState (allNames, states) σ
    = (Normal (allNames', states'), σ') →
  errors σ' = errors σ →
  (∀ n, n ∈ allNames ↔ n ∈ State.name <$> states) →
  NoDup (State.name <$> states) →
  NoDup ((State.name <$> states) ++ (sj_name <$> sts))
  ∧ states' = states ++ (State_fromJson <$> sts)
  ∧ σ' = σ.
Proof.
  induction sts as [|st sts IH];
    intros allNames states σ allNames' states' σ'; simpl.
  - intros [= <- <- <-] _ _ Hnodup. by rewrite !app_nil_r.
  - intros Hrun Hquiet Hset Hnodup.
    eapply bind_quiet_inv in Hrun as (acc & σ1 & Hrun1 & Hq1 & Hrun & Hq2);
      [|apply lawful_addState
       |intros; apply lawful_forEachWith; intros; apply lawful_addState
       |done].
    unfold FSM.addState in Hrun1. case_bool_decide as Hin.
    { exfalso. by apply (emit_then_not_quiet _ _ _ _ _ (lawful_ret _) Hrun1 Hq1). }
    injection Hrun1 as <- <-.
    assert (Hnew : sj_name st ∉ State.name <$> states) by (by rewrite <- Hset).
    eapply IH in Hrun as (Hnd & -> & ->); [|done| |].
    + rewrite fmap_app in Hnd. simpl in Hnd.
      rewrite <- !app_assoc in *. done.
    + intros n. rewrite elem_of_union, elem_of_singleton, Hset, fmap_app,
        elem_of_app. simpl. rewrite list_elem_of_singleton. tauto.
    + rewrite fmap_app. simpl. apply NoDup_app.
      split_and!; [done| |apply NoDup_singleton].
      intros n Hn ->%list_elem_of_singleton. done.
Qed.

Lemma bindsQuietly_resolves hp regions (sts : list State_json)
    (rnames : list string) (tj : Transition_json) :
  (λ l, Region.name (hp l)) <$> regions = rnames →
  bindsQuietly hp regions (State_fromJson <$> sts) (Transition_fromJson tj) →
  resolvesTransition rnames (sj_name <$> sts) tj.
Proof.
  intros Hnames (Htarget & Hevent & Hactions). split_and!.
  - apply findStateNamed_is_Some in Htarget.
    by rewrite <- list_fmap_compose in Htarget.
  - unfold resolvesEvent. simpl in Hevent.
    rewrite findRegionNamed_is_Some, Hnames in Hevent. done.
  - simpl in Hactions. rewrite Forall_fmap in Hactions.
    eapply Forall_impl; [exact Hactions|].
    intros a Ha. simpl in Ha.
    rewrite findRegionNamed_is_Some, Hnames in Ha. done.
Qed.

(** A construction from a description that returns normally and
    reports nothing was given a well-formed description. *)
Lemma fromJson_quiet data σ fsm σ' :
  FSM.fromJson data σ = (Normal fsm, σ') → errors σ' = errors σ →
  wellFormed data.
Proof.
  unfold FSM.fromJson. intros Hrun Hquiet.
  eapply bind_quiet_inv in Hrun
    as ([names1 regions] & σ1 & Hrun1 & Hq1 & Hrun & Hq1'); [| | |done].
  2:{ destruct (fj_regions data).
      - apply lawful_forEachWith. intros. apply lawful_addRegion.
      - apply lawful_bind; [apply lawful_emit|]. intros. apply lawful_ret. }
  2:{ intros [? ?]. apply lawful_bind; [|intros [? ?]; apply lawful_new].
      destruct (fj_states data).
      - apply lawful_bind.
        + destruct (bool_decide _); [apply lawful_emit|apply lawful_ret].
        + intros. apply lawful_forEachWith. intros. apply lawful_addState.
      - apply lawful_bind; [apply lawful_emit|]. intros. apply lawful_ret. }
  destruct (fj_regions data) as [rs|] eqn:Hrs.
  2:{ exfalso.
      by apply (emit_then_not_quiet _ _ _ _ _ (lawful_ret _) Hrun1 Hq1). }
  eapply (addRegions_quiet rs _ _ _ _ _ _ []) in Hrun1 as [Hnd1 Hnames];
    [|done|set_solver|done|by intros l ?%elem_of_nil|apply NoDup_nil_2].
  simpl in Hnd1, Hnames.
  eapply bind_quiet_inv in Hrun
    as ([names2 states] & σ2 & Hrun2 & Hq2 & Hrun & Hq2'); [| | |done].
  2:{ destruct (fj_states data).
      - apply lawful_bind.
        + destruct (bool_decide _); [apply lawful_emit|apply lawful_ret].
        + intros. apply lawful_forEachWith. intros. apply lawful_addState.
      - apply lawful_bind; [apply lawful_emit|]. intros. apply lawful_ret. }
  2:{ intros [? ?]. apply lawful_new. }
  destruct (fj_states data) as [sts|] eqn:Hsts.
  2:{ exfalso.
      by apply (emit_then_not_quiet _ _ _ _ _ (lawful_ret _) Hrun2 Hq2). }
  eapply bind_quiet_inv in Hrun2
    as ([] & σ3 & Hrun3 & Hq3 & Hrun2 & Hq3'); [| | |done].
  2:{ destruct (bool_decide _); [apply lawful_emit|apply lawful_ret]. }
  2:{ intros. apply lawful_forEachWith. intros. apply lawful_addState. }
  case_bool_decide as Hlen.
  { exfalso. by apply (emit_reports _ _ _ _ Hrun3). }
  injection Hrun3 as <-.
  eapply addStates_quiet in Hrun2 as (Hnd2 & -> & ->);
    [|done|set_solver|apply NoDup_nil_2].
  simpl in Hnd2.
  apply new_quiet in Hrun as [_ Hall]; [|done].
  exists rs, sts. split_and!; try done.
  - intros ->. done.
  - simpl in Hall. rewrite Forall_fmap in Hall.
    eapply Forall_impl; [exact Hall|]. intros st Hst. simpl in Hst.
    rewrite Forall_fmap in Hst.
    eapply Forall_impl; [exact Hst|]. intros tj Htj.
    by eapply bindsQuietly_resolves.
Qed.

(** A description that is not well formed makes [FSM.fromJson] report
    an error. *)
Lemma fromJson_reports data σ o σ' :
  FSM.fromJson data σ = (o, σ') → ¬ wellFormed data →
  errors σ' ≠ errors σ.
Proof.
  intros Hrun Hbad Hquiet. destruct o as [fsm|msg].
  - by apply Hbad, (fromJson_quiet _ _ _ _ Hrun).
  - destruct (lawful_fromJson data _ _ _ Hrun) as (_ & _ & Ht & _).
    by destruct (Ht msg eq_refl).
Qed.

(** ** The sequences of the specification, on the example interactor *)

(** From outside every region to inside A alone. *)
Example ex_enter_A :
  delivered (FSMInteractor.dispatchRawEvent raw_move 2 2 ex_interactor
               (ex_world false)).2
  = [(enter, Some 1%positive); (move_inside, Some 1%positive)].
Proof. vm_compute. reflexivity. Qed.

(** From inside A alone to inside B alone. *)
Example ex_leave_A_enter_B :
  delivered (FSMInteractor.dispatchRawEvent raw_move 12 12
               (FSMInteractor.set_lastPickedRegions [1%positive] ex_interactor)
               (ex_world false)).2
  = [(exit, Some 1%positive); (enter, Some 2%positive);
     (move_inside, Some 2%positive)].
Proof. vm_compute. reflexivity. Qed.

(** A press over no region delivers nothing; the release that follows,
    over no region, delivers [release_none] alone. *)
Example ex_press_release_nowhere :
  delivered (FSMInteractor.dispatchRawEvent raw_press 20 20 ex_interactor
               (ex_world false)).2 = []
  ∧ delivered (FSMInteractor.dispatchRawEvent raw_release 20 20 ex_interactor
                 (ex_world false)).2 = [(release_none, None)].
Proof. split; vm_compute; reflexivity. Qed.

(** * Further properties *)

(** ** Binding and matching *)

Lemma Action_bindRegion_eq (regionList : list loc) (action : Action.t)
    (σ : World) :
  Action.bindRegion regionList action σ =
    match findRegionNamed (heap σ) (Action._onRegionName action) regionList with
    | Some R => (Normal (Action.set_onRegion (Some R) action), σ)
    | None =>
        if decide (Action._actType action = none
                   ∨ Action._actType action = print
                   ∨ Action._actType action = print_event)
        then (Normal (Action.set_onRegion None action), σ)
        else (if errThrows σ then Thrown (unboundActionMessage action)
              else Normal action,
              report_error (unboundActionMessage action) σ)
    end.
Proof.
  unfold Action.bindRegion. unfold mbind at 1. unfold M_bind, getWorld.
  destruct (findRegionNamed _ _ _); [done|].
  destruct (decide _) as [Hfree|Hfree].
  - repeat case_bool_decide; simpl; try done; exfalso; intuition congruence.
  - repeat case_bool_decide; simpl; try (exfalso; intuition congruence).
    unfold mbind, M_bind, Err.emit, unboundActionMessage.
    by destruct (errThrows σ).
Qed.

(** X1.  [Action.bindRegion] binds the action to the first region of
    the list that carries its region name, whatever the action type and
    with no wildcard ("*" is a name like any other).  When no region
    carries the name, a none, print or print_event action has its region
    reset to absent, silently; a set_image or clear_image action keeps
    the region it had and the error is reported, the call throwing when
    the report throws. *)
Theorem X1_Action_bindRegion_resolution (regionList : list loc)
    (action : Action.t) (σ : World) :
  (Action.bindRegion regionList action σ =
     match findRegionNamed (heap σ) (Action._onRegionName action) regionList with
     | Some R => (Normal (Action.set_onRegion (Some R) action), σ)
     | None =>
         if decide (Action._actType action = none
                    ∨ Action._actType action = print
                    ∨ Action._actType action = print_event)
         then (Normal (Action.set_onRegion None action), σ)
         else (if errThrows σ then Thrown (unboundActionMessage action)
               else Normal action,
               report_error (unboundActionMessage action) σ)
     end)
  ∧ (∀ R, findRegionNamed (heap σ) (Action._onRegionName action) regionList
          = Some R →
          ∃ before after,
            regionList = before ++ R :: after
            ∧ Region.name (heap σ R) = Action._onRegionName action
            ∧ ∀ R', R' ∈ before →
                    Region.name (heap σ R') ≠ Action._onRegionName action)
  ∧ (findRegionNamed (heap σ) (Action._onRegionName action) regionList = None
     ↔ ∀ R, R ∈ regionList →
            Region.name (heap σ R) ≠ Action._onRegionName action).
Proof.
  split_and!.
  - apply Action_bindRegion_eq.
  - apply findRegionNamed_Some.
  - apply findRegionNamed_None.
Qed.

(** Two regions of a list without repeated names that carry the same
    name are the same region. *)
Lemma same_name_same_region hp (regions : list loc) (r1 r2 : loc) :
  NoDup (regionNamesOf hp regions) →
  r1 ∈ regions → r2 ∈ regions →
  Region.name (hp r1) = Region.name (hp r2) → r1 = r2.
Proof.
  unfold regionNamesOf. induction regions as [|r regions IH]; simpl.
  - by intros _ ?%elem_of_nil.
  - intros [Hnotin Hnd]%NoDup_cons [->|H1]%elem_of_cons [->|H2]%elem_of_cons Hname.
    + done.
    + exfalso. apply Hnotin. rewrite Hname.
      apply list_elem_of_fmap. by exists r2.
    + exfalso. apply Hnotin. rewrite <- Hname.
      apply list_elem_of_fmap. by exists r1.
    + by apply IH.
Qed.

(** X2.  A new event specification that names a region (not "*") and
    stands for a plain event type or for any, once bound with no report
    to a list of regions without repeated names, matches an event over
    a region of the list exactly when that region carries its name and,
    unless its type is any, the event type is its own. *)
Theorem X2_bound_spec_matches_its_region (regionList : list loc)
    (ty : EventType) (nm : string) (spec' : EventSpec.t) (σ σ' : World) :
  nm ≠ "*" →
  plainType ty ∨ ty = any →
  NoDup (regionNamesOf (heap σ) regionList) →
  EventSpec.bindRegion regionList (EventSpec.new ty nm) σ = (Normal spec', σ') →
  errors σ' = errors σ →
  ∀ evtType R, R ∈ regionList →
    (EventSpec.match_ evtType (Some R) spec' = true
     ↔ Region.name (heap σ R) = nm ∧ (ty = any ∨ ty = evtType)).
Proof.
  intros Hstar Hty Hnd Hrun Hquiet evtType R HR.
  rewrite EventSpec_bindRegion_eq in Hrun. simpl in Hrun.
  rewrite decide_False in Hrun by done.
  assert (Hstar' : String.eqb nm "*" = false) by (by apply String.eqb_neq).
  destruct (findRegionNamed (heap σ) nm regionList) as [R0|] eqn:Hfind.
  - injection Hrun as <- <-.
    destruct (findRegionNamed_Some _ _ _ _ Hfind)
      as (before & after & Hlist & Hname & _).
    assert (HR0 : R0 ∈ regionList).
    { rewrite Hlist. apply elem_of_app. right. apply list_elem_of_here. }
    assert (Hsame : R0 = R ↔ Region.name (heap σ R) = nm).
    { split; [by intros <-|]. intros HnR.
      apply (same_name_same_region (heap σ) regionList); [done|done|done|].
      congruence. }
    unfold EventSpec.match_, plainType in *. simpl. rewrite Hstar'. simpl.
    destruct Hty as [[-> | [-> | [-> | [-> | ->]]]] | ->]; simpl;
      repeat case_bool_decide; simpl; split; try done;
      try (intros _; split; [apply Hsame; congruence|auto]);
      try (intros [HnR [?|?]]; try done; apply Hsame in HnR; congruence).
  - assert (Hnone : Region.name (heap σ R) ≠ nm).
    { by apply (findRegionNamed_None (heap σ) nm regionList). }
    destruct (decide (needsNoRegion (EventSpec.new ty nm))) as [Hno|Hno].
    + injection Hrun as <- <-.
      unfold EventSpec.match_, plainType in *. simpl. rewrite Hstar'. simpl.
      destruct Hty as [[-> | [-> | [-> | [-> | ->]]]] | ->]; simpl;
        repeat case_bool_decide; simpl; split; try done; by intros [? _].
    + exfalso. injection Hrun as _ <-. simpl in Hquiet.
      apply (f_equal length) in Hquiet. rewrite length_app in Hquiet.
      simpl in Hquiet. lia.
Qed.

Lemma X2_bound_spec_matches_its_region_witness :
  NoDup (regionNamesOf (heap (ex_world false)) [1%positive; 2%positive])
  ∧ EventSpec.bindRegion [1%positive; 2%positive] (EventSpec.new press "A")
      (ex_world false)
    = (Normal (EventSpec.mk press "A" (Some 1%positive)), ex_world false)
  ∧ EventSpec.match_ press (Some 1%positive)
      (EventSpec.mk press "A" (Some 1%positive)) = true
  ∧ EventSpec.match_ press (Some 2%positive)
      (EventSpec.mk press "A" (Some 1%positive)) = false.
Proof.
  assert (Hnd : NoDup (regionNamesOf (heap (ex_world false))
                         [1%positive; 2%positive])).
  { apply NoDup_cons. split; [by intros [=]%list_elem_of_singleton|].
    apply NoDup_singleton. }
  split; [exact Hnd|]. split; [reflexivity|].
  assert (Hmatch := λ Hne R HR,
    X2_bound_spec_matches_its_region [1%positive; 2%positive] press "A"
      (EventSpec.mk press "A" (Some 1%positive)) (ex_world false)
      (ex_world false) Hne (or_introl (or_introl eq_refl)) Hnd eq_refl eq_refl
      press R HR).
  assert (Hne : "A" ≠ "*") by discriminate.
  split.
  - apply (Hmatch Hne); [apply list_elem_of_here|]. by split; [|right].
  - apply not_true_is_false.
    intros [[=] _]%(Hmatch Hne);
      apply list_elem_of_further, list_elem_of_here.
Defined.

(** X3.  A specification whose region name is "*" is bound to no
    region, whatever it was bound to before, and then matches an event
    whatever its region, present or not: every event if its type is any,
    the events of its own type otherwise, none if it is nevermatch. *)
Theorem X3_wildcard_spec_matches_everywhere (regionList : list loc)
    (ty : EventType) (before : option loc) (σ : World) :
  EventSpec.bindRegion regionList (EventSpec.mk ty "*" before) σ
  = (Normal (EventSpec.mk ty "*" None), σ)
  ∧ ∀ evtType regn,
      EventSpec.match_ evtType regn (EventSpec.mk ty "*" None) = true
      ↔ ty ≠ nevermatch ∧ (ty = any ∨ ty = evtType).
Proof.
  split; [done|]. intros evtType regn. unfold EventSpec.match_. simpl.
  rewrite orb_true_r.
  destruct ty; simpl; repeat case_bool_decide; simpl;
    split; try done; intuition congruence.
Qed.

(** Every event [dispatchRawEvent] delivers carries a region, but
    [release_none]. *)
Lemma expectedEvents_region what previous current ev :
  ev ∈ expectedEvents what previous current →
  (ev.2 = None ↔ ev = (release_none, None)).
Proof.
  unfold expectedEvents. rewrite !elem_of_app, !list_elem_of_fmap.
  intros [(r & -> & _)|[(r & -> & _)|[(r & -> & _)|Hlast]]]; simpl;
    try (split; [done|by intros [=]]).
  destruct (decide _); [|by apply elem_of_nil in Hlast].
  apply list_elem_of_singleton in Hlast as ->. done.
Qed.

(** X4.  When no region carries the empty name, a new specification of
    type any with the empty region name is bound to no region without
    report, and then matches exactly the events that carry no region;
    of the events [dispatchRawEvent] delivers it matches
    [release_none] and no other. *)
Theorem X4_any_without_region_is_release_none (regionList : list loc)
    (σ : World) :
  findRegionNamed (heap σ) EmptyString regionList = None →
  EventSpec.bindRegion regionList (EventSpec.new any EmptyString) σ
  = (Normal (EventSpec.new any EmptyString), σ)
  ∧ (∀ evtType regn,
       EventSpec.match_ evtType regn (EventSpec.new any EmptyString) = true
       ↔ regn = None)
  ∧ (∀ what previous current ev,
       ev ∈ expectedEvents what previous current →
       (EventSpec.match_ ev.1 ev.2 (EventSpec.new any EmptyString) = true
        ↔ ev = (release_none, None))).
Proof.
  intros Hfind.
  assert (Hmatch : ∀ evtType regn,
    EventSpec.match_ evtType regn (EventSpec.new any EmptyString) = true
    ↔ regn = None).
  { intros evtType regn. unfold EventSpec.match_. simpl.
    rewrite orb_false_r. case_bool_decide; simpl; split; congruence. }
  split_and!; [|done|].
  - rewrite EventSpec_bindRegion_eq. simpl. by rewrite Hfind.
  - intros what previous current ev Hev. rewrite Hmatch.
    by eapply expectedEvents_region.
Qed.

Lemma X4_any_without_region_is_release_none_witness :
  findRegionNamed ex_heap EmptyString [1%positive; 2%positive] = None
  ∧ EventSpec.match_ release_none None (EventSpec.new any EmptyString) = true
  ∧ EventSpec.match_ press (Some 1%positive) (EventSpec.new any EmptyString)
    = false.
Proof.
  split; [reflexivity|].
  destruct (X4_any_without_region_is_release_none [1%positive; 2%positive]
              (ex_world false) eq_refl) as (_ & Hmatch & _).
  split.
  - by apply Hmatch.
  - apply not_true_is_false. by intros [=]%Hmatch.
Defined.

(** ** What an action and an event change *)

(** X5.  [Action.execute] never throws and never reports.  It leaves
    every region but the one the action is bound to as it was.  It
    writes one line to the console, and leaves every region as it was,
    when the action is print or print_event; it writes none otherwise.
    A none action, and a set_image or clear_image action bound to no
    region, change nothing at all. *)
Theorem X5_execute_effects (evtType : EventType) (region : option loc)
    (action : Action.t) (σ : World) :
  ∃ σ',
    Action.execute evtType region action σ = (Normal (), σ')
    ∧ errors σ' = errors σ
    ∧ (∀ l, Action._onRegion action ≠ Some l → heap σ' l = heap σ l)
    ∧ (if decide (Action._actType action = print
                  ∨ Action._actType action = print_event)
       then heap σ' = heap σ ∧ ∃ line, console σ' = console σ ++ [line]
       else console σ' = console σ)
    ∧ (Action._actType action = none
       ∨ (Action._onRegion action = None
          ∧ (Action._actType action = set_image
             ∨ Action._actType action = clear_image)) → σ' = σ).
Proof.
  exists (afterAction evtType region σ action).
  split; [apply execute_Normal|].
  unfold afterAction, Action.execute, Action.assign_imageLoc.
  destruct action as [ty nm param [reg|]]; destruct ty; simpl;
    repeat split; simpl; unfold heap_update; try done;
    try (intros l Hl; by rewrite decide_False by congruence);
    try (by destruct (decide _));
    try (by eexists);
    try (intros [?|[? [?|?]]]; done).
Qed.

(** The outcome of [actOnEvent], in full: nothing at all when the FSM
    has no current state or no transition matches; otherwise the
    actions of the first matching transition and its target. *)
Lemma actOnEvent_outcome evtType region (this : FSM.t) (σ : World) :
  FSM.actOnEvent evtType region this σ = (Normal this, σ)
  ∨ ∃ st trans,
      FSM._currentState this = Some st
      ∧ trans ∈ FSM.transitionsOf this st
      ∧ Transition.match_ evtType region trans = true
      ∧ FSM.actOnEvent evtType region this σ
        = (Normal (FSM.set_currentState (Transition.target trans) this),
           foldl (afterAction evtType region) σ (Transition.actions trans)).
Proof.
  destruct (FSM._currentState this) as [st|] eqn:Hcur.
  2:{ left. unfold FSM.actOnEvent. by rewrite Hcur. }
  destruct (decide (Exists (λ t, Transition.match_ evtType region t = true)
                           (FSM.transitionsOf this st))) as [Hsome|Hnone].
  - right. apply Exists_exists in Hsome.
    destruct (first_match_split _ _ _ Hsome)
      as (pre & trans & post & Hts & Hpre & Hm).
    exists st, trans. split_and!; [done| |done|].
    + rewrite Hts. apply elem_of_app. right. apply list_elem_of_here.
    + by apply (actOnEvent_first_match _ _ _ _ st pre post).
  - left. unfold FSM.actOnEvent. rewrite Hcur.
    rewrite <- (app_nil_r (FSM.transitionsOf this st)).
    rewrite actOnEvent_loop_skip; [done|].
    intros t Ht. apply not_true_is_false. intros Hm. apply Hnone.
    apply Exists_exists. by exists t.
Qed.

(** X6.  [actOnEvent] never throws and reports no error; of the FSM it
    changes the current state alone, and only to the target of a
    matching transition of the state that was current. *)
Theorem X6_actOnEvent_changes_current_state_only (evtType : EventType)
    (region : option loc) (this : FSM.t) (σ : World) :
  ∃ this' σ',
    FSM.actOnEvent evtType region this σ = (Normal this', σ')
    ∧ FSM._regions this' = FSM._regions this
    ∧ FSM._states this' = FSM._states this
    ∧ FSM._startState this' = FSM._startState this
    ∧ errors σ' = errors σ
    ∧ (FSM._currentState this' = FSM._currentState this
       ∨ ∃ st trans,
           FSM._currentState this = Some st
           ∧ trans ∈ FSM.transitionsOf this st
           ∧ Transition.match_ evtType region trans = true
           ∧ FSM._currentState this' = Transition.target trans).
Proof.
  destruct (actOnEvent_outcome evtType region this σ)
    as [Hrun|(st & trans & Hcur & Hin & Hm & Hrun)].
  - exists this, σ. split_and!; try done. by left.
  - eexists _, _. split; [exact Hrun|].
    destruct (afterActions_frame evtType region (Transition.actions trans) σ)
      as (-> & _).
    split_and!; try done. right. by exists st, trans.
Qed.

(** Sequences of events. *)

Lemma actOnEvents_invariant (P : FSM.t → Prop)
    (events : list (EventType * option loc)) (fsm fsm' : FSM.t) (σ σ' : World) :
  (∀ evtType region this σ this' σ',
     P this → FSM.actOnEvent evtType region this σ = (Normal this', σ') →
     P this') →
  P fsm → actOnEvents events fsm σ = (Normal fsm', σ') → P fsm'.
Proof.
  intros Hstep. revert fsm σ. induction events as [|ev events IH]; intros fsm σ.
  - by intros HP [= <- _].
  - intros HP. unfold actOnEvents. simpl. unfold mbind, M_bind.
    destruct (FSM.actOnEvent ev.1 ev.2 fsm σ) as [[fsm1|?] σ1] eqn:Hrun; [|done].
    apply IH. by eapply Hstep.
Qed.

(** X7.  The references of an FSM to its states stay within its state
    array: the constructor, given states whose transitions are not yet
    bound, leaves the current state, the start state and every target
    either absent or a position of the array, and no sequence of events
    changes that. *)
Theorem X7_state_references_stay_valid (regions : list loc)
    (states : list State.t) (σ σ1 : World) (fsm : FSM.t)
    (events : list (EventType * option loc)) (σ2 : World) :
  Forall (λ state, Forall (λ t, Transition.target t = None)
                          (State.transitions state)) states →
  FSM.new regions states σ = (Normal fsm, σ1) →
  ∃ fsm' σ3,
    actOnEvents events fsm σ2 = (Normal fsm', σ3)
    ∧ refsValid fsm'
    ∧ ∀ st, FSM._currentState fsm' = Some st →
            is_Some (FSM._states fsm' !! st).
Proof.
  intros Hunbound Hnew.
  destruct (actOnEvents_Normal events fsm σ2) as (fsm' & σ3 & Hrun).
  exists fsm', σ3. split; [done|].
  assert (Hvalid : refsValid fsm').
  { eapply (actOnEvents_invariant refsValid); [|by eapply new_refsValid|done].
    intros. by eapply actOnEvent_refsValid. }
  split; [done|]. intros st Hst. apply lookup_lt_is_Some.
  destruct Hvalid as (Hcur & _). by apply Hcur.
Qed.

Lemma X7_state_references_stay_valid_witness :
  Forall (λ state, Forall (λ t, Transition.target t = None)
                          (State.transitions state)) ex_states
  ∧ FSM.new [1%positive; 2%positive] ex_states (ex_world false)
    = (Normal ex_fsm, ex_world false)
  ∧ ∃ fsm' σ3,
      actOnEvents [(press, Some 1%positive); (enter, Some 2%positive)]
                  ex_fsm (ex_world false) = (Normal fsm', σ3)
      ∧ refsValid fsm'.
Proof.
  assert (Hunbound :
    Forall (λ state, Forall (λ t, Transition.target t = None)
                            (State.transitions state)) ex_states).
  { repeat constructor. }
  split; [done|]. split; [reflexivity|].
  destruct (X7_state_references_stay_valid [1%positive; 2%positive] ex_states
              (ex_world false) (ex_world false) ex_fsm
              [(press, Some 1%positive); (enter, Some 2%positive)]
              (ex_world false) Hunbound eq_refl)
    as (fsm' & σ3 & Hrun & Hvalid & _).
  by exists fsm', σ3.
Defined.

Lemma actOnEvents_no_current (events : list (EventType * option loc))
    (fsm : FSM.t) (σ : World) :
  FSM._currentState fsm = None →
  actOnEvents events fsm σ = (Normal fsm, σ).
Proof.
  intros Hnone. induction events as [|ev events IH]; [done|].
  unfold actOnEvents in *. simpl. unfold mbind, M_bind.
  unfold FSM.actOnEvent at 1. rewrite Hnone. simpl. apply IH.
Qed.

(** X8.  Taking a transition whose target was never bound strands the
    FSM: its actions run, the current state becomes absent, and from
    then on every event, and every sequence of events, is absorbed with
    no effect; [reset] brings the FSM back to its start state. *)
Theorem X8_unbound_target_strands (this : FSM.t) (σ : World)
    (evtType : EventType) (region : option loc) (st : nat)
    (pre post : list Transition.t) (trans : Transition.t) :
  FSM._currentState this = Some st →
  FSM.transitionsOf this st = pre ++ trans :: post →
  (∀ t, t ∈ pre → Transition.match_ evtType region t = false) →
  Transition.match_ evtType region trans = true →
  Transition.target trans = None →
  FSM.actOnEvent evtType region this σ
  = (Normal (FSM.set_currentState None this),
     foldl (afterAction evtType region) σ (Transition.actions trans))
  ∧ (∀ events σ',
       actOnEvents events (FSM.set_currentState None this) σ'
       = (Normal (FSM.set_currentState None this), σ'))
  ∧ (∀ σ',
       FSM.reset (FSM.set_currentState None this) σ'
       = (Normal (FSM.set_currentState (FSM._startState this) this), σ')).
Proof.
  intros Hcur Hts Hpre Hm Htarget. split_and!.
  - rewrite <- Htarget. by apply (actOnEvent_first_match _ _ _ _ st pre post).
  - intros events σ'. by apply actOnEvents_no_current.
  - done.
Qed.

(** In the state of the example, a press on A takes the transition to
    the state that does not exist; the release that follows finds no
    current state.  The FSM is the one the constructor returns, after
    the report, for a target name that names no state. *)
Lemma X8_unbound_target_strands_witness :
  FSM._currentState ex_stray_fsm = Some 0%nat
  ∧ FSM.transitionsOf ex_stray_fsm 0 = [] ++ ex_stray :: []
  ∧ (∀ t, t ∈ [] → Transition.match_ press (Some 1%positive) t = false)
  ∧ Transition.match_ press (Some 1%positive) ex_stray = true
  ∧ Transition.target ex_stray = None
  ∧ (FSM.new [1%positive; 2%positive]
       [ State.mk "only"
           [ Transition.mk (EventSpec.new press "A")
               [ Action.new print None (Some "gone") ] "nowhere" None ] ]
       (ex_world false)).1 = Normal ex_stray_fsm
  ∧ actOnEvents [(press, Some 1%positive); (release, Some 1%positive);
                 (press, Some 1%positive)] ex_stray_fsm (ex_world false)
    = (Normal (FSM.set_currentState None ex_stray_fsm),
       console_log "gone" (ex_world false)).
Proof.
  assert (Hpre : ∀ t : Transition.t,
    t ∈ [] → Transition.match_ press (Some 1%positive) t = false).
  { by intros t ?%elem_of_nil. }
  split_and!; [reflexivity|reflexivity|exact Hpre|reflexivity|reflexivity
              |reflexivity|].
  destruct (X8_unbound_target_strands ex_stray_fsm (ex_world false) press
              (Some 1%positive) 0 [] [] ex_stray eq_refl eq_refl Hpre
              eq_refl eq_refl) as (Hfirst & Hrest & _).
  unfold actOnEvents. simpl. unfold mbind at 1. unfold M_bind at 1.
  rewrite Hfirst.
  exact (Hrest [(release, Some 1%positive); (press, Some 1%positive)] _).
Defined.

(** A sequence of events changes the current state alone. *)
Lemma actOnEvents_only_currentState (events : list (EventType * option loc))
    (fsm fsm' : FSM.t) (σ σ' : World) :
  actOnEvents events fsm σ = (Normal fsm', σ') →
  fsm' = FSM.set_currentState (FSM._currentState fsm') fsm.
Proof.
  intros Hrun.
  apply (actOnEvents_invariant
           (λ f, f = FSM.set_currentState (FSM._currentState f) fsm)
           events fsm fsm' σ σ'); [|by destruct fsm|done].
  intros evtType region this σ1 this' σ1' Hthis Hstep.
  destruct (actOnEvent_Normal evtType region this σ1)
    as (this'' & σ'' & Hrun' & _ & _ & Hr & Hs & Hst).
  rewrite Hrun' in Hstep. injection Hstep as <- <-.
  rewrite Hthis in Hr, Hs, Hst. simpl in Hr, Hs, Hst.
  destruct this'' as [r s st c]. simpl in *. by subst.
Qed.

(** X9.  [reset] undoes, on the FSM, any sequence of events: after the
    events it leaves the FSM that [reset] leaves without them.  The
    world is not brought back: what the actions wrote stays.  A second
    [reset] changes nothing. *)
Theorem X9_reset_undoes_events (events : list (EventType * option loc))
    (fsm : FSM.t) (σ : World) :
  ∃ fsm' σ' home,
    actOnEvents events fsm σ = (Normal fsm', σ')
    ∧ FSM.reset fsm σ = (Normal home, σ)
    ∧ FSM.reset fsm' σ' = (Normal home, σ')
    ∧ FSM.reset home σ' = (Normal home, σ').
Proof.
  destruct (actOnEvents_Normal events fsm σ) as (fsm' & σ' & Hrun).
  exists fsm', σ', (FSM.set_currentState (FSM._startState fsm) fsm).
  split_and!; [done|done| |done].
  rewrite (actOnEvents_only_currentState _ _ _ _ _ Hrun) at 1. done.
Qed.

(** ** What a raw event delivers *)

(** One raw event, with an FSM installed. *)
Lemma dispatchRawEvent_run (what : RawEvent) (localX localY : number)
    (this : FSMInteractor.t) (σ : World) (fsm : FSM.t) :
  FSMInteractor._fsm this = Some fsm →
  ∃ this' σ' fsm',
    FSMInteractor.dispatchRawEvent what localX localY this σ = (Normal this', σ')
    ∧ delivered σ'
      = delivered σ
        ++ expectedEvents what (FSMInteractor.lastPickedRegions this)
                          (FSMInteractor.pick (heap σ) localX localY this)
    ∧ errors σ' = errors σ
    ∧ FSMInteractor._fsm this' = Some fsm'
    ∧ FSM._regions fsm' = FSM._regions fsm
    ∧ FSM._states fsm' = FSM._states fsm
    ∧ FSM._startState fsm' = FSM._startState fsm
    ∧ FSMInteractor.lastPickedRegions this'
      = FSMInteractor.pick (heap σ) localX localY this
    ∧ FSMInteractor._x this' = FSMInteractor._x this
    ∧ FSMInteractor._y this' = FSMInteractor._y this
    ∧ FSMInteractor._parent this' = FSMInteractor._parent this.
Proof.
  intros Hfsm. rewrite dispatchRawEvent_eq by (by eexists).
  destruct (deliverAll_run
              (expectedEvents what (FSMInteractor.lastPickedRegions this)
                 (FSMInteractor.pick (heap σ) localX localY this)) this σ fsm Hfsm)
    as (this' & σ' & fsm' & Hrun & Hdel & Herr & Hfsm' & Hr & Hs & Hst & _
        & Hx & Hy & Hp).
  rewrite (bind_Normal _ _ _ _ _ Hrun).
  exists (FSMInteractor.set_lastPickedRegions
            (FSMInteractor.pick (heap σ) localX localY this) this'), σ', fsm'.
  by split_and!.
Qed.

Lemma dispatchAll_run (raws : list (RawEvent * number * number))
    (this : FSMInteractor.t) (σ : World) (fsm : FSM.t) :
  FSMInteractor._fsm this = Some fsm →
  ∃ this' σ' fsm',
    dispatchAll raws this σ = (Normal this', σ')
    ∧ errors σ' = errors σ
    ∧ delivered σ `prefix_of` delivered σ'
    ∧ FSMInteractor._fsm this' = Some fsm'
    ∧ FSM._regions fsm' = FSM._regions fsm
    ∧ FSM._states fsm' = FSM._states fsm
    ∧ FSM._startState fsm' = FSM._startState fsm
    ∧ FSMInteractor._x this' = FSMInteractor._x this
    ∧ FSMInteractor._y this' = FSMInteractor._y this
    ∧ FSMInteractor._parent this' = FSMInteractor._parent this.
Proof.
  revert this σ fsm. induction raws as [|raw raws IH]; intros this σ fsm Hfsm.
  - exists this, σ, fsm. by split_and!.
  - unfold dispatchAll. simpl. unfold mbind at 1. unfold M_bind at 1.
    destruct (dispatchRawEvent_run raw.1.1 raw.1.2 raw.2 this σ fsm Hfsm)
      as (this1 & σ1 & fsm1 & -> & Hdel & Herr & Hfsm1 & Hr & Hs & Hst & _
          & Hx & Hy & Hp).
    destruct (IH this1 σ1 fsm1 Hfsm1)
      as (this' & σ' & fsm' & Hrun & Herr' & Hdel' & Hfsm' & Hr' & Hs' & Hst'
          & Hx' & Hy' & Hp').
    exists this', σ', fsm'. unfold dispatchAll in Hrun.
    split_and!; try done; try congruence.
    etrans; [|exact Hdel']. rewrite Hdel. by apply prefix_app_r.
Qed.

(** X10.  With an FSM installed, no sequence of raw events throws or
    reports an error, and none moves the interactor, changes its parent
    or removes its FSM; the FSM keeps its regions, its states and its
    start state, and the record of deliveries only grows. *)
Theorem X10_dispatch_keeps_the_interactor (raws : list (RawEvent * number * number))
    (this : FSMInteractor.t) (σ : World) (fsm : FSM.t) :
  FSMInteractor._fsm this = Some fsm →
  ∃ this' σ' fsm',
    dispatchAll raws this σ = (Normal this', σ')
    ∧ errors σ' = errors σ
    ∧ delivered σ `prefix_of` delivered σ'
    ∧ FSMInteractor._fsm this' = Some fsm'
    ∧ FSM._regions fsm' = FSM._regions fsm
    ∧ FSM._states fsm' = FSM._states fsm
    ∧ FSM._startState fsm' = FSM._startState fsm
    ∧ FSMInteractor.position this' = FSMInteractor.position this
    ∧ FSMInteractor._parent this' = FSMInteractor._parent this.
Proof.
  intros Hfsm.
  destruct (dispatchAll_run raws this σ fsm Hfsm)
    as (this' & σ' & fsm' & Hrun & Herr & Hdel & Hfsm' & Hr & Hs & Hst
        & Hx & Hy & Hp).
  exists this', σ', fsm'. unfold FSMInteractor.position.
  split_and!; try done. by rewrite Hx, Hy.
Qed.

Lemma X10_dispatch_keeps_the_interactor_witness :
  FSMInteractor._fsm ex_interactor = Some ex_fsm
  ∧ ∃ this' σ' fsm',
      dispatchAll [(raw_move, 2, 2); (raw_press, 2, 2); (raw_release, 20, 20)]
                  ex_interactor (ex_world false) = (Normal this', σ')
      ∧ errors σ' = []
      ∧ FSMInteractor._fsm this' = Some fsm'
      ∧ FSM._states fsm' = ex_bound_states.
Proof.
  split; [reflexivity|].
  destruct (X10_dispatch_keeps_the_interactor
              [(raw_move, 2, 2); (raw_press, 2, 2); (raw_release, 20, 20)]
              ex_interactor (ex_world false) ex_fsm eq_refl)
    as (this' & σ' & fsm' & Hrun & Herr & _ & Hfsm & _ & Hs & _).
  by exists this', σ', fsm'.
Defined.

Lemma list_difference_subseteq (l k : list loc) :
  (∀ x, x ∈ l → x ∈ k) → list_difference l k = [].
Proof.
  induction l as [|a l IH]; intros Hsub; simpl; [done|].
  destruct (decide_rel elem_of a k) as [_|Hnot].
  - apply IH. intros x Hx. apply Hsub. by apply list_elem_of_further.
  - exfalso. apply Hnot, Hsub, list_elem_of_here.
Qed.

(** X11.  A raw event that finds the pointer over the regions of the
    stored pick delivers no enter and no exit: only the event of the
    raw kind for each of these regions, topmost first, or
    [release_none] for a release over none. *)
Theorem X11_same_regions_no_enter_no_exit (what : RawEvent)
    (localX localY : number) (this : FSMInteractor.t) (σ : World) (fsm : FSM.t) :
  FSMInteractor._fsm this = Some fsm →
  FSMInteractor.pick (heap σ) localX localY this
  = FSMInteractor.lastPickedRegions this →
  ∃ this' σ',
    FSMInteractor.dispatchRawEvent what localX localY this σ = (Normal this', σ')
    ∧ delivered σ'
      = delivered σ
        ++ ((λ r, (insideEvent what, Some r))
              <$> FSMInteractor.lastPickedRegions this)
        ++ (if decide (what = raw_release
                       ∧ FSMInteractor.lastPickedRegions this = [])
            then [(release_none, None)] else [])
    ∧ FSMInteractor.lastPickedRegions this'
      = FSMInteractor.lastPickedRegions this.
Proof.
  intros Hfsm Hsame.
  destruct (dispatchRawEvent_run what localX localY this σ fsm Hfsm)
    as (this' & σ' & fsm' & Hrun & Hdel & _ & _ & _ & _ & _ & Hlast & _).
  exists this', σ'. split_and!; [done| |congruence].
  rewrite Hdel, Hsame. unfold expectedEvents.
  by rewrite list_difference_subseteq by done.
Qed.

Lemma X11_same_regions_no_enter_no_exit_witness :
  FSMInteractor._fsm
    (FSMInteractor.set_lastPickedRegions [2%positive; 1%positive] ex_interactor)
  = Some ex_fsm
  ∧ FSMInteractor.pick (heap (ex_world false)) 8 8
      (FSMInteractor.set_lastPickedRegions [2%positive; 1%positive] ex_interactor)
    = [2%positive; 1%positive]
  ∧ ∃ this' σ',
      FSMInteractor.dispatchRawEvent raw_press 8 8
        (FSMInteractor.set_lastPickedRegions [2%positive; 1%positive]
           ex_interactor) (ex_world false) = (Normal this', σ')
      ∧ delivered σ' = [(press, Some 2%positive); (press, Some 1%positive)].
Proof.
  split; [reflexivity|]. split; [reflexivity|].
  destruct (X11_same_regions_no_enter_no_exit raw_press 8 8
              (FSMInteractor.set_lastPickedRegions [2%positive; 1%positive]
                 ex_interactor) (ex_world false) ex_fsm eq_refl eq_refl)
    as (this' & σ' & Hrun & Hdel & _).
  by exists this', σ'.
Defined.

(** ** Enters and exits are paired *)

Lemma bracketed_app (inside : gset loc) (a b : list (EventType * option loc)) :
  bracketed inside (a ++ b)
  ↔ bracketed inside a ∧ bracketed (foldl trackInside inside a) b.
Proof.
  revert inside. induction a as [|ev a IH]; intros inside; simpl.
  - tauto.
  - rewrite IH. tauto.
Qed.

Lemma exits_bracketed (l : list loc) (inside : gset loc) :
  NoDup l → (∀ r, r ∈ l → r ∈ inside) →
  bracketed inside ((λ r, (exit, Some r)) <$> l)
  ∧ foldl trackInside inside ((λ r, (exit, Some r)) <$> l)
    = inside ∖ list_to_set l.
Proof.
  revert inside. induction l as [|r l IH]; intros inside Hnd Hin; csimpl.
  - split; [done|]. apply set_eq. intros x.
    rewrite elem_of_difference, elem_of_empty. tauto.
  - apply NoDup_cons in Hnd as [Hr Hnd].
    destruct (IH (inside ∖ {[r]}) Hnd) as [Hb Hf].
    { intros r' Hr'. apply elem_of_difference. split.
      - apply Hin. by apply list_elem_of_further.
      - intros ->%elem_of_singleton. done. }
    split_and!; [apply Hin, list_elem_of_here|done|].
    rewrite Hf. apply set_eq. intros x.
    rewrite !elem_of_difference, elem_of_union, elem_of_singleton. tauto.
Qed.

Lemma enters_bracketed (l : list loc) (inside : gset loc) :
  NoDup l → (∀ r, r ∈ l → r ∉ inside) →
  bracketed inside ((λ r, (enter, Some r)) <$> l)
  ∧ foldl trackInside inside ((λ r, (enter, Some r)) <$> l)
    = list_to_set l ∪ inside.
Proof.
  revert inside. induction l as [|r l IH]; intros inside Hnd Hin; csimpl.
  - split; [done|]. apply set_eq. intros x.
    rewrite elem_of_union, elem_of_empty. tauto.
  - apply NoDup_cons in Hnd as [Hr Hnd].
    destruct (IH ({[r]} ∪ inside) Hnd) as [Hb Hf].
    { intros r' Hr' [->%elem_of_singleton|Hi]%elem_of_union; [done|].
      by apply (Hin r'); [apply list_elem_of_further|]. }
    split_and!; [apply Hin, list_elem_of_here|done|].
    rewrite Hf. apply set_eq. intros x.
    rewrite !elem_of_union, elem_of_singleton. tauto.
Qed.

Lemma insides_bracketed (what : RawEvent) (l : list loc) (inside : gset loc) :
  (∀ r, r ∈ l → r ∈ inside) →
  bracketed inside ((λ r, (insideEvent what, Some r)) <$> l)
  ∧ foldl trackInside inside ((λ r, (insideEvent what, Some r)) <$> l)
    = inside.
Proof.
  induction l as [|r l IH]; intros Hin; [done|].
  destruct IH as [Hb Hf].
  { intros r' Hr'. apply Hin. by apply list_elem_of_further. }
  pose proof (Hin r (list_elem_of_here _ _)) as Hr.
  destruct what; csimpl; by split_and!.
Qed.

(** The events of one raw event, from the stored pick to the current
    one. *)
Lemma expectedEvents_bracketed (what : RawEvent) (previous current : list loc) :
  NoDup previous → NoDup current →
  bracketed (list_to_set previous) (expectedEvents what previous current)
  ∧ foldl trackInside (list_to_set previous)
          (expectedEvents what previous current)
    = list_to_set current.
Proof.
  intros Hp Hc. unfold expectedEvents.
  destruct (exits_bracketed (list_difference previous current)
              (list_to_set previous)) as [Hb1 Hf1].
  { by apply NoDup_list_difference. }
  { intros r [Hr _]%list_elem_of_difference. by apply elem_of_list_to_set. }
  destruct (enters_bracketed (list_difference current previous)
              (list_to_set previous ∖ list_to_set (list_difference previous current)))
    as [Hb2 Hf2].
  { by apply NoDup_list_difference. }
  { intros r [Hr Hnot]%list_elem_of_difference.
    rewrite elem_of_difference, elem_of_list_to_set. tauto. }
  assert (Hset :
    list_to_set (list_difference current previous)
    ∪ list_to_set previous ∖ list_to_set (list_difference previous current)
    = (list_to_set current : gset loc)).
  { apply set_eq. intros r.
    rewrite elem_of_union, elem_of_difference, !elem_of_list_to_set,
      !list_elem_of_difference.
    destruct (decide (r ∈ previous)), (decide (r ∈ current)); tauto. }
  destruct (insides_bracketed what current (list_to_set current)) as [Hb3 Hf3].
  { intros r Hr. by apply elem_of_list_to_set. }
  rewrite !bracketed_app, !foldl_app, Hf1, Hf2, Hset, Hf3.
  split_and!; try done.
  - destruct (decide _) as [[_ ->]|_]; simpl; [|done]. split; [|done].
    done.
  - by destruct (decide _).
Qed.

Lemma pick_NoDup hp px py (this : FSMInteractor.t) (fsm : FSM.t) :
  FSMInteractor._fsm this = Some fsm →
  NoDup (FSM._regions fsm) →
  NoDup (FSMInteractor.pick hp px py this).
Proof.
  intros Hfsm Hnd. rewrite (pick_eq _ _ _ _ _ Hfsm).
  rewrite reverse_Permutation. by apply NoDup_filter.
Qed.

Lemma dispatchAll_bracketed (raws : list (RawEvent * number * number))
    (this : FSMInteractor.t) (σ : World) (fsm : FSM.t) :
  FSMInteractor._fsm this = Some fsm →
  NoDup (FSM._regions fsm) →
  NoDup (FSMInteractor.lastPickedRegions this) →
  ∃ this' σ' events,
    dispatchAll raws this σ = (Normal this', σ')
    ∧ delivered σ' = delivered σ ++ events
    ∧ bracketed (list_to_set (FSMInteractor.lastPickedRegions this)) events
    ∧ foldl trackInside (list_to_set (FSMInteractor.lastPickedRegions this))
            events
      = list_to_set (FSMInteractor.lastPickedRegions this').
Proof.
  revert this σ fsm.
  induction raws as [|raw raws IH]; intros this σ fsm Hfsm Hnd Hlast.
  - exists this, σ, []. rewrite app_nil_r. by split_and!.
  - unfold dispatchAll. simpl. unfold mbind at 1. unfold M_bind at 1.
    destruct (dispatchRawEvent_run raw.1.1 raw.1.2 raw.2 this σ fsm Hfsm)
      as (this1 & σ1 & fsm1 & -> & Hdel & _ & Hfsm1 & Hr & _ & _ & Hpick & _).
    pose proof (pick_NoDup (heap σ) raw.1.2 raw.2 this fsm Hfsm Hnd) as Hnd1.
    destruct (expectedEvents_bracketed raw.1.1
                (FSMInteractor.lastPickedRegions this)
                (FSMInteractor.pick (heap σ) raw.1.2 raw.2 this) Hlast Hnd1)
      as [Hb Hf].
    destruct (IH this1 σ1 fsm1 Hfsm1) as (this' & σ' & events & Hrun & Hdel'
                                          & Hb' & Hf').
    { by rewrite Hr. }
    { by rewrite Hpick. }
    exists this', σ',
      (expectedEvents raw.1.1 (FSMInteractor.lastPickedRegions this)
         (FSMInteractor.pick (heap σ) raw.1.2 raw.2 this) ++ events).
    unfold dispatchAll in Hrun. rewrite Hpick in Hb', Hf'.
    split_and!; [done| | |].
    + by rewrite Hdel', Hdel, <- app_assoc.
    + apply bracketed_app. by rewrite Hf.
    + by rewrite foldl_app, Hf.
Qed.

(** X12.  Over any sequence of raw events handed to a new interactor
    whose FSM has no region twice, the delivered events are paired: an
    enter comes only for a region the pointer is not inside of; an exit,
    a press, a move and a release only for a region it is inside of,
    that is, entered before and not left since; [release_none] only
    when it is inside of none.  The stored pick holds, at the end, the
    regions the pointer is inside of. *)
Theorem X12_enters_and_exits_are_paired (raws : list (RawEvent * number * number))
    (fsm : FSM.t) (x y : number) (parent : option loc) (σ : World) :
  NoDup (FSM._regions fsm) →
  ∃ this' σ' events,
    dispatchAll raws (FSMInteractor.new (Some fsm) x y parent) σ
      = (Normal this', σ')
    ∧ delivered σ' = delivered σ ++ events
    ∧ bracketed ∅ events
    ∧ foldl trackInside ∅ events
      = list_to_set (FSMInteractor.lastPickedRegions this').
Proof.
  intros Hnd.
  destruct (dispatchAll_bracketed raws (FSMInteractor.new (Some fsm) x y parent)
              σ fsm eq_refl Hnd (NoDup_nil_2))
    as (this' & σ' & events & Hrun & Hdel & Hb & Hf).
  by exists this', σ', events.
Qed.

Lemma X12_enters_and_exits_are_paired_witness :
  NoDup (FSM._regions ex_fsm)
  ∧ ∃ this' σ' events,
      dispatchAll [(raw_move, 2, 2); (raw_press, 8, 8); (raw_release, 20, 20)]
                  (FSMInteractor.new (Some ex_fsm) 0 0 None) (ex_world false)
        = (Normal this', σ')
      ∧ delivered σ' = events
      ∧ bracketed ∅ events.
Proof.
  assert (Hnd : NoDup (FSM._regions ex_fsm)).
  { simpl. apply NoDup_cons. split; [by intros [=]%list_elem_of_singleton|].
    apply NoDup_singleton. }
  split; [done|].
  destruct (X12_enters_and_exits_are_paired
              [(raw_move, 2, 2); (raw_press, 8, 8); (raw_release, 20, 20)]
              ex_fsm 0 0 None (ex_world false) Hnd)
    as (this' & σ' & events & Hrun & Hdel & Hb & _).
  by exists this', σ', events.
Defined.

Example ex_paired_sequence :
  delivered (dispatchAll [(raw_move, 2, 2); (raw_press, 8, 8);
                          (raw_release, 20, 20)]
               (FSMInteractor.new (Some ex_fsm) 0 0 None) (ex_world false)).2
  = [(enter, Some 1%positive); (move_inside, Some 1%positive);
     (enter, Some 2%positive); (press, Some 2%positive);
     (press, Some 1%positive);
     (exit, Some 2%positive); (exit, Some 1%positive);
     (release_none, None)].
Proof. vm_compute. reflexivity. Qed.

(** ** Moving the interactor *)

(** X13.  The three setters compare with [===] and [!==], so that a
    coordinate that is NaN is never the one the interactor already has,
    and -0 is the same as +0.  Assigning through [position] a position
    whose two coordinates are the same as the present ones changes
    nothing and notifies nobody; otherwise both coordinates are assigned
    and the parent is notified once.  Assigning [x] and then [y] assigns
    each coordinate that is not the same as the present one and notifies
    the parent once for each.  Assigning NaN over NaN notifies.  None of
    the setters changes the FSM, the parent or the stored pick. *)
Theorem X13_position_and_damage (v : number * number)
    (this : FSMInteractor.t) (σ : World) :
  ∃ this1 σ1 this2 σ2,
    FSMInteractor.set_position v this σ = (Normal this1, σ1)
    ∧ (this' ← FSMInteractor.set_x v.1 this; FSMInteractor.set_y v.2 this') σ
      = (Normal this2, σ2)
    ∧ (number_eq v.1 (FSMInteractor._x this) = true →
       number_eq v.2 (FSMInteractor._y this) = true →
       this1 = this ∧ σ1 = σ)
    ∧ (number_eq v.1 (FSMInteractor._x this) = false
       ∨ number_eq v.2 (FSMInteractor._y this) = false →
       this1 = FSMInteractor.set_coords v.1 v.2 this
       ∧ FSMInteractor.position this1 = v
       ∧ σ1 = match FSMInteractor._parent this with
              | Some root => notify_damage root σ
              | None => σ
              end)
    ∧ this2
      = FSMInteractor.set_coords
          (if number_eq (FSMInteractor._x this) v.1
           then FSMInteractor._x this else v.1)
          (if number_eq (FSMInteractor._y this) v.2
           then FSMInteractor._y this else v.2) this
    ∧ σ2 = match FSMInteractor._parent this with
           | Some root =>
               (if number_eq (FSMInteractor._y this) v.2 then id
                else notify_damage root)
                 ((if number_eq (FSMInteractor._x this) v.1 then id
                   else notify_damage root) σ)
           | None => σ
           end
    ∧ (number_eq (FSMInteractor._x this) v.1 = true →
       number_eq (FSMInteractor._y this) v.2 = true →
       this2 = this ∧ σ2 = σ)
    ∧ FSMInteractor.set_position (nan, nan)
        (FSMInteractor.set_coords nan nan this) σ
      = (Normal (FSMInteractor.set_coords nan nan this),
         match FSMInteractor._parent this with
         | Some root => notify_damage root σ
         | None => σ
         end)
    ∧ FSMInteractor._fsm this1 = FSMInteractor._fsm this
    ∧ FSMInteractor._parent this1 = FSMInteractor._parent this
    ∧ FSMInteractor.lastPickedRegions this1
      = FSMInteractor.lastPickedRegions this
    ∧ FSMInteractor._fsm this2 = FSMInteractor._fsm this
    ∧ FSMInteractor._parent this2 = FSMInteractor._parent this
    ∧ FSMInteractor.lastPickedRegions this2
      = FSMInteractor.lastPickedRegions this.
Proof.
  destruct v as [vx vy], this as [fsm x y parent last].
  assert (Hnan : number_eq nan nan = false) by reflexivity.
  unfold FSMInteractor.set_position, FSMInteractor.set_x, FSMInteractor.set_y,
    FSMInteractor.position, FSMInteractor.damage, FSMInteractor.set_coords.
  simpl. rewrite ?Hnan. simpl.
  destruct (number_eq vx x) eqn:Hvx, (number_eq vy y) eqn:Hvy,
    (number_eq x vx) eqn:Hxv, (number_eq y vy) eqn:Hyv; simpl;
    destruct parent as [root|]; simpl;
    unfold mbind, M_bind, modifyWorld, mret, M_ret; simpl;
    rewrite ?Hyv; simpl;
    eexists _, _, _, _;
    (split; [reflexivity|]); (split; [reflexivity|]);
    repeat split; try done;
    try (match goal with H : _ ∨ _ |- _ => by destruct H end).
Qed.

(** ** What a construction leaves alone *)

Lemma keeps_ret {A} (R : World → World → Prop) `{!Reflexive R} (a : A) :
  keeps R (mret a).
Proof. by intros σ o σ' [= _ <-]. Qed.

Lemma keeps_getWorld (R : World → World → Prop) `{!Reflexive R} :
  keeps R getWorld.
Proof. by intros σ o σ' [= _ <-]. Qed.

Lemma keeps_bind {A B} (R : World → World → Prop) `{!Transitive R}
    (m : M A) (k : A → M B) :
  keeps R m → (∀ a, keeps R (k a)) → keeps R (m ≫= k).
Proof.
  intros Hm Hk σ o σ' Hrun. unfold mbind, M_bind in Hrun.
  destruct (m σ) as [[a|msg] σ1] eqn:Hmσ.
  - etrans; [by eapply Hm|by eapply Hk].
  - injection Hrun as _ <-. by eapply Hm.
Qed.

Lemma keeps_forEachWith {A S} (R : World → World → Prop)
    `{!Reflexive R, !Transitive R} (l : list A) (body : A → S → M S) (s : S) :
  (∀ a s, keeps R (body a s)) → keeps R (forEachWith l body s).
Proof.
  intros Hbody. revert s. induction l as [|a l IH]; intros s; simpl.
  - by apply keeps_ret.
  - apply keeps_bind; [done|apply Hbody|apply IH].
Qed.

Lemma keeps_forEachBind {A} (R : World → World → Prop)
    `{!Reflexive R, !Transitive R} (l : list A) (body : A → M A) :
  (∀ a, keeps R (body a)) → keeps R (forEachBind l body).
Proof.
  intros Hbody. induction l as [|a l IH]; simpl.
  - by apply keeps_ret.
  - apply keeps_bind; [done|apply Hbody|]. intros a'.
    apply keeps_bind; [done|apply IH|]. intros. by apply keeps_ret.
Qed.

Global Instance sameStore_refl : Reflexive sameStore.
Proof. by intros σ. Qed.
Global Instance sameStore_trans : Transitive sameStore.
Proof. intros σ1 σ2 σ3 [? ?] [? ?]. split; congruence. Qed.

Global Instance onlyAllocates_refl : Reflexive onlyAllocates.
Proof. intros σ. by split_and!. Qed.
Global Instance onlyAllocates_trans : Transitive onlyAllocates.
Proof.
  intros σ1 σ2 σ3 (Hn & Hh & ? & ? & ? & ?) (Hn' & Hh' & ? & ? & ? & ?).
  split_and!; try congruence.
  - lia.
  - intros l Hl. rewrite Hh' by lia. by apply Hh.
Qed.

(** Reporting an error touches the error channel alone. *)
Lemma emit_frame msg σ o σ' :
  Err.emit msg σ = (o, σ') → sameStore σ σ' ∧ onlyAllocates σ σ'.
Proof.
  unfold Err.emit. intros Hrun.
  assert (σ' = report_error msg σ) as ->
    by (by destruct (errThrows σ); injection Hrun as _ <-).
  split; [done|]. split_and!; simpl; try done; lia.
Qed.

Lemma keeps_emit_store msg : keeps sameStore (Err.emit msg).
Proof. intros σ o σ' Hrun. by apply (emit_frame _ _ _ _ Hrun). Qed.

Lemma keeps_emit_alloc msg : keeps onlyAllocates (Err.emit msg).
Proof. intros σ o σ' Hrun. by apply (emit_frame _ _ _ _ Hrun). Qed.

(** The constructor of the FSM creates no region and changes none. *)
Lemma keeps_new (R : World → World → Prop) `{!Reflexive R, !Transitive R}
    regions states :
  (∀ msg, keeps R (Err.emit msg)) → keeps R (FSM.new regions states).
Proof.
  intros Hemit. unfold FSM.new, FSM._finalize.
  apply keeps_bind; [done| |intros; by apply keeps_ret].
  apply keeps_forEachBind; [done..|]. intros state.
  apply keeps_bind; [done| |intros; by apply keeps_ret].
  apply keeps_forEachBind; [done..|]. intros trans.
  unfold FSM.bindTransition.
  apply keeps_bind; [done| |intros trans'].
  { unfold Transition_bindTarget. destruct (findStateNamed _ _).
    - by apply keeps_ret.
    - apply keeps_bind; [done|apply Hemit|intros; by apply keeps_ret]. }
  apply keeps_bind; [done| |intros ev].
  { unfold EventSpec.bindRegion. destruct (String.eqb _ "*").
    - by apply keeps_ret.
    - apply keeps_bind; [done|by apply keeps_getWorld|]. intros σ.
      destruct (findRegionNamed _ _ _); [by apply keeps_ret|].
      destruct (bool_decide _); [by apply keeps_ret|].
      destruct (_ && _); [by apply keeps_ret|].
      apply keeps_bind; [done|apply Hemit|intros; by apply keeps_ret]. }
  apply keeps_bind; [done| |intros; by apply keeps_ret].
  apply keeps_forEachBind; [done..|]. intros action.
  unfold Action.bindRegion.
  apply keeps_bind; [done|by apply keeps_getWorld|]. intros σ.
  destruct (findRegionNamed _ _ _); [by apply keeps_ret|].
  destruct (_ || _); [by apply keeps_ret|].
  apply keeps_bind; [done|apply Hemit|intros; by apply keeps_ret].
Qed.

Lemma Region_fromJson_allocates rj σ :
  ∃ σ',
    Region_fromJson rj σ = (Normal (nextLoc σ), σ')
    ∧ onlyAllocates σ σ'
    ∧ errors σ' = errors σ
    ∧ nextLoc σ' = Pos.succ (nextLoc σ)
    ∧ Region.name (heap σ' (nextLoc σ)) = rj_name rj.
Proof.
  eexists. split; [reflexivity|]. simpl. unfold heap_new.
  split_and!; try done.
  - split_and!; simpl; try done; [lia|].
    intros l Hl. rewrite decide_False; [done|lia].
  - by rewrite decide_True.
Qed.

Lemma keeps_addRegion reg acc : keeps onlyAllocates (FSM.addRegion reg acc).
Proof.
  unfold FSM.addRegion. destruct acc as [allNames regions].
  destruct (bool_decide _).
  - apply keeps_bind; [apply _|apply keeps_emit_alloc|].
    intros. by apply keeps_ret.
  - apply keeps_bind; [apply _| |intros; by apply keeps_ret].
    intros σ o σ' Hrun.
    destruct (Region_fromJson_allocates reg σ) as (σ1 & Hrun1 & Halloc & _).
    rewrite Hrun1 in Hrun. by injection Hrun as _ <-.
Qed.

Lemma keeps_addState st acc : keeps onlyAllocates (FSM.addState st acc).
Proof.
  unfold FSM.addState. destruct acc as [allNames states].
  destruct (bool_decide _).
  - apply keeps_bind; [apply _|apply keeps_emit_alloc|].
    intros. by apply keeps_ret.
  - by apply keeps_ret.
Qed.

Lemma keeps_fromJson data : keeps onlyAllocates (FSM.fromJson data).
Proof.
  unfold FSM.fromJson.
  apply keeps_bind; [apply _| |intros [names regions]].
  { destruct (fj_regions data).
    - apply keeps_forEachWith; [apply _..|]. intros. apply keeps_addRegion.
    - apply keeps_bind; [apply _|apply keeps_emit_alloc|].
      intros. by apply keeps_ret. }
  apply keeps_bind; [apply _| |intros [names' states]].
  { destruct (fj_states data).
    - apply keeps_bind; [apply _| |intros].
      + destruct (bool_decide _); [apply keeps_emit_alloc|by apply keeps_ret].
      + apply keeps_forEachWith; [apply _..|]. intros. apply keeps_addState.
    - apply keeps_bind; [apply _|apply keeps_emit_alloc|].
      intros. by apply keeps_ret. }
  apply keeps_new; [apply _..|]. apply keeps_emit_alloc.
Qed.

(** ** What [FSM.fromJson] builds *)


Lemma regionNamesOf_kept (regions : list loc) (σ σ' : World) :
  (∀ l, l ∈ regions → (l < nextLoc σ)%positive) →
  onlyAllocates σ σ' →
  regionNamesOf (heap σ') regions = regionNamesOf (heap σ) regions.
Proof.
  intros Hold (_ & Hheap & _). unfold regionNamesOf.
  apply list_fmap_ext. intros i l Hl. rewrite Hheap; [done|].
  apply Hold. by eapply list_elem_of_lookup_2.
Qed.

Lemma addRegions_collects (rs : list Region_json) :
  ∀ acc σ acc' σ',
    forEachWith rs FSM.addRegion acc σ = (Normal acc', σ') →
    regionsCollected σ acc →
    regionsCollected σ' acc'
    ∧ (∀ n, n ∈ regionNamesOf (heap σ') acc'.2
            ↔ n ∈ regionNamesOf (heap σ) acc.2 ∨ n ∈ rj_name <$> rs)
    ∧ (∀ l, l ∈ acc'.2 → l ∈ acc.2 ∨ (nextLoc σ ≤ l)%positive).
Proof.
  induction rs as [|reg rs IH]; intros acc σ acc' σ'; simpl.
  - intros [= <- <-] Hinv. split_and!; [done| |by left].
    intros n. rewrite elem_of_nil. tauto.
  - unfold mbind at 1. unfold M_bind at 1.
    destruct (FSM.addRegion reg acc σ) as [[acc1|?] σ1] eqn:Hstep; [|done].
    intros Hrest Hinv.
    assert (Hstep' :
      regionsCollected σ1 acc1
      ∧ (∀ n, n ∈ regionNamesOf (heap σ1) acc1.2
              ↔ n ∈ regionNamesOf (heap σ) acc.2 ∨ n = rj_name reg)
      ∧ (∀ l, l ∈ acc1.2 → l ∈ acc.2 ∨ (nextLoc σ ≤ l)%positive)
      ∧ (nextLoc σ ≤ nextLoc σ1)%positive).
    { unfold FSM.addRegion in Hstep. destruct acc as [allNames regions].
      destruct Hinv as (Hset & Hnd & Hndl & Hold). simpl in *.
      case_bool_decide as Hin.
      - unfold mbind, M_bind in Hstep.
        destruct (Err.emit _ σ) as [[[]|?] σ0] eqn:Hemit; [|done].
        injection Hstep as <- <-.
        destruct (emit_frame _ _ _ _ Hemit) as [[Hh Hn] _].
        unfold regionsCollected. simpl. rewrite Hh, Hn.
        split_and!; try done; try (by left); try lia.
        intros n. split; [by left|]. intros [?| ->]; [done|]. by apply Hset.
      - unfold mbind, M_bind in Hstep.
        destruct (Region_fromJson_allocates reg σ)
          as (σ0 & Hrun & Halloc & _ & Hnext & Hname).
        rewrite Hrun in Hstep. injection Hstep as <- <-.
        assert (Hnames :
          regionNamesOf (heap σ0) (regions ++ [nextLoc σ])
          = regionNamesOf (heap σ) regions ++ [rj_name reg]).
        { unfold regionNamesOf at 1. rewrite fmap_app. simpl. rewrite Hname.
          f_equal. by apply regionNamesOf_kept. }
        assert (Hfresh : rj_name reg ∉ regionNamesOf (heap σ) regions)
          by (by rewrite <- Hset).
        unfold regionsCollected. simpl. rewrite Hnames, Hnext.
        split_and!.
        + intros n. rewrite elem_of_union, elem_of_singleton, Hset, elem_of_app,
            list_elem_of_singleton. tauto.
        + apply NoDup_app. split_and!; [done| |apply NoDup_singleton].
          intros n Hn ->%list_elem_of_singleton. done.
        + apply NoDup_app. split_and!; [done| |apply NoDup_singleton].
          intros l Hl ->%list_elem_of_singleton. apply Hold in Hl. lia.
        + intros l [Hl| ->%list_elem_of_singleton]%elem_of_app;
            [apply Hold in Hl|]; lia.
        + intros n. rewrite elem_of_app, list_elem_of_singleton. tauto.
        + intros l [Hl| ->%list_elem_of_singleton]%elem_of_app;
            [by left|right; lia].
        + lia. }
    destruct Hstep' as (Hinv1 & Hn1 & Hl1 & Hnext1).
    destruct (IH _ _ _ _ Hrest Hinv1) as (Hinv' & Hn' & Hl').
    split_and!; [done| |].
    + intros n. rewrite Hn', Hn1, elem_of_cons. tauto.
    + intros l [Hl|Hl]%Hl'; [by apply Hl1|right; lia].
Qed.

Lemma addStates_collects (sts : list State_json) :
  ∀ acc σ acc' σ',
    forEachWith sts FSM.addState acc σ = (Normal acc', σ') →
    statesCollected acc →
    statesCollected acc'
    ∧ (∀ n, n ∈ State.name <$> acc'.2
            ↔ n ∈ State.name <$> acc.2 ∨ n ∈ sj_name <$> sts).
Proof.
  induction sts as [|st sts IH]; intros acc σ acc' σ'; simpl.
  - intros [= <- <-] Hinv. split; [done|].
    intros n. rewrite elem_of_nil. tauto.
  - unfold mbind at 1. unfold M_bind at 1.
    destruct (FSM.addState st acc σ) as [[acc1|?] σ1] eqn:Hstep; [|done].
    intros Hrest Hinv.
    assert (Hstep' :
      statesCollected acc1
      ∧ (∀ n, n ∈ State.name <$> acc1.2
              ↔ n ∈ State.name <$> acc.2 ∨ n = sj_name st)).
    { unfold FSM.addState in Hstep. destruct acc as [allNames states].
      destruct Hinv as (Hset & Hnd). simpl in *.
      case_bool_decide as Hin.
      - unfold mbind, M_bind in Hstep.
        destruct (Err.emit _ σ) as [[[]|?] σ0] eqn:Hemit; [|done].
        injection Hstep as <- <-. split; [done|]. simpl.
        intros n. split; [by left|]. intros [?| ->]; [done|]. by apply Hset.
      - injection Hstep as <- <-. unfold statesCollected. simpl.
        rewrite fmap_app. simpl.
        assert (Hfresh : sj_name st ∉ State.name <$> states)
          by (by rewrite <- Hset).
        split_and!.
        + intros n. rewrite elem_of_union, elem_of_singleton, Hset, elem_of_app,
            list_elem_of_singleton. tauto.
        + apply NoDup_app. split_and!; [done| |apply NoDup_singleton].
          intros n Hn ->%list_elem_of_singleton. done.
        + intros n. rewrite elem_of_app, list_elem_of_singleton. tauto. }
    destruct Hstep' as (Hinv1 & Hn1).
    destruct (IH _ _ _ _ Hrest Hinv1) as (Hinv' & Hn').
    split; [done|].
    intros n. rewrite Hn', Hn1, elem_of_cons. tauto.
Qed.

(** The fields of the FSM the constructor returns. *)
Lemma new_fields regions states σ fsm σ' :
  FSM.new regions states σ = (Normal fsm, σ') →
  FSM._regions fsm = regions
  ∧ State.name <$> FSM._states fsm = State.name <$> states
  ∧ FSM._startState fsm = (if states is [] then None else Some 0%nat)
  ∧ FSM._currentState fsm = (if states is [] then None else Some 0%nat).
Proof.
  unfold FSM.new, FSM._finalize. unfold mbind at 1. unfold M_bind at 1.
  destruct (forEachBind _ _ σ) as [[states'|?] σ1] eqn:Hrun; [|done].
  intros [= <- _]. apply forEachBind_Forall2 in Hrun.
  assert (Hnames : State.name <$> states' = State.name <$> states).
  { revert Hrun. case_bool_decide; simpl; intros Hrun;
      (induction Hrun as [|state state' sts sts' (σ2 & σ3 & Hbody) _ IH];
       [done|]; csimpl; rewrite IH; f_equal;
       unfold mbind, M_bind in Hbody;
       destruct (forEachBind _ _ σ2) as [[ts|?] ?]; [|done];
       by injection Hbody as <- _). }
  case_bool_decide; simpl; split_and!; try done; by destruct states.
Qed.

(** What [FSM.fromJson] returns, whatever the description. *)
Lemma fromJson_builds data σ fsm σ' :
  FSM.fromJson data σ = (Normal fsm, σ') →
  NoDup (FSM._regions fsm)
  ∧ NoDup (regionNamesOf (heap σ') (FSM._regions fsm))
  ∧ NoDup (State.name <$> FSM._states fsm)
  ∧ (∀ n, n ∈ regionNamesOf (heap σ') (FSM._regions fsm)
          ↔ n ∈ rj_name <$> default [] (fj_regions data))
  ∧ (∀ n, n ∈ State.name <$> FSM._states fsm
          ↔ n ∈ sj_name <$> default [] (fj_states data))
  ∧ (∀ l, l ∈ FSM._regions fsm →
          (nextLoc σ ≤ l)%positive ∧ (l < nextLoc σ')%positive)
  ∧ FSM._currentState fsm
    = (if FSM._states fsm is [] then None else Some 0%nat)
  ∧ FSM._startState fsm = FSM._currentState fsm.
Proof.
  unfold FSM.fromJson. intros Hrun.
  apply bind_Normal_inv in Hrun as ([names1 regions] & σ1 & Hrun1 & Hrun).
  apply bind_Normal_inv in Hrun as ([names2 states] & σ2 & Hrun2 & Hrun).
  (* the regions *)
  assert (Hregions :
    regionsCollected σ1 (names1, regions)
    ∧ (∀ n, n ∈ regionNamesOf (heap σ1) regions
            ↔ n ∈ rj_name <$> default [] (fj_regions data))
    ∧ (∀ l, l ∈ regions → (nextLoc σ ≤ l)%positive)).
  { destruct (fj_regions data) as [rs|]; simpl.
    - apply addRegions_collects in Hrun1 as (Hinv & Hn & Hl).
      + split_and!; [done| |].
        * intros n. rewrite Hn. simpl. rewrite elem_of_nil. tauto.
        * intros l [Hl0|?]%Hl; [by apply elem_of_nil in Hl0|done].
      + split_and!; simpl; try apply NoDup_nil_2.
        * intros n. rewrite elem_of_nil, elem_of_empty. tauto.
        * by intros l ?%elem_of_nil.
    - unfold mbind, M_bind in Hrun1.
      destruct (Err.emit _ σ) as [[[]|?] σ0]; [|done].
      injection Hrun1 as <- <- <-.
      split_and!; [|done|by intros l ?%elem_of_nil].
      split_and!; simpl; try apply NoDup_nil_2.
      + intros n. rewrite elem_of_nil, elem_of_empty. tauto.
      + by intros l ?%elem_of_nil. }
  destruct Hregions as ((_ & Hnd & Hndl & Hold) & Hn & Hnew). simpl in *.
  (* the states *)
  assert (Hstates :
    NoDup (State.name <$> states)
    ∧ (∀ n, n ∈ State.name <$> states
            ↔ n ∈ sj_name <$> default [] (fj_states data))
    ∧ onlyAllocates σ1 σ2).
  { destruct (fj_states data) as [sts|]; simpl.
    - apply bind_Normal_inv in Hrun2 as ([] & σ0 & Hfirst & Hrun2).
      assert (H0 : onlyAllocates σ1 σ0).
      { revert Hfirst. case_bool_decide.
        - apply keeps_emit_alloc.
        - by intros [= <-]. }
      assert (H1 : onlyAllocates σ0 σ2).
      { eapply (keeps_forEachWith onlyAllocates); [|exact Hrun2].
        intros. apply keeps_addState. }
      apply addStates_collects in Hrun2 as ((_ & Hnds) & Hns).
      + split_and!; [done| |by etrans].
        intros n. rewrite Hns. simpl. rewrite elem_of_nil. tauto.
      + split; simpl; [|apply NoDup_nil_2].
        intros n. rewrite elem_of_nil, elem_of_empty. tauto.
    - unfold mbind, M_bind in Hrun2.
      destruct (Err.emit _ σ1) as [[[]|?] σ0] eqn:Hemit; [|done].
      injection Hrun2 as <- <- <-.
      split_and!; [apply NoDup_nil_2|done|].
      by apply (keeps_emit_alloc _ _ _ _ Hemit). }
  destruct Hstates as (Hnds & Hns & Halloc12).
  (* the constructor *)
  assert (Halloc2 : onlyAllocates σ2 σ').
  { eapply (keeps_new onlyAllocates); [|exact Hrun]. apply keeps_emit_alloc. }
  destruct (new_fields _ _ _ _ _ Hrun) as (Hr & Hs & Hstart & Hcur).
  assert (Halloc : onlyAllocates σ1 σ') by (by etrans).
  rewrite Hr, Hs, (regionNamesOf_kept regions σ1 σ') by done.
  split_and!; try done.
  - intros l Hl. split; [by apply Hnew|].
    destruct Halloc as (Hle & _). apply Hold in Hl. lia.
  - rewrite Hcur.
    assert (Hlen : length (FSM._states fsm) = length states).
    { by rewrite <- (length_fmap State.name), Hs, length_fmap. }
    destruct states, (FSM._states fsm); simpl in *; done.
  - by rewrite Hstart, Hcur.
Qed.

(** ** The records that are kept *)

Lemma keptRecords_first {A} (key : A → string) (l : list A) :
  ∀ seen : gset string,
    keptRecords key seen l = filter (λ b, key b ∉ seen) (firstOfName key l).
Proof.
  induction l as [|a l IH]; intros seen; simpl; [done|].
  rewrite filter_cons. case_bool_decide as Hin.
  - rewrite decide_False by (by intros Hn; apply Hn).
    rewrite IH. symmetry. apply list_filter_filter_l.
    intros b Hb Heq. apply Hb. by rewrite Heq.
  - rewrite decide_True by done. f_equal.
    rewrite IH, list_filter_filter. apply list_filter_iff.
    intros b. rewrite not_elem_of_union, not_elem_of_singleton. tauto.
Qed.

Lemma keptRecords_empty {A} (key : A → string) (l : list A) :
  keptRecords key ∅ l = firstOfName key l.
Proof.
  rewrite keptRecords_first.
  induction (firstOfName key l) as [|a k IH]; [done|].
  rewrite filter_cons, decide_True by apply not_elem_of_empty.
  by rewrite IH.
Qed.

(** The loop over the region records: a record whose name was seen is
    skipped; of every other one a Region object is made, and the
    objects made stay as they are. *)
Lemma addRegions_kept (rs : list Region_json) :
  ∀ (allNames : gset string) (regions : list loc) σ names' regions' σ',
    forEachWith rs FSM.addRegion (allNames, regions) σ
    = (Normal (names', regions'), σ') →
    (∀ l, l ∈ regions → (l < nextLoc σ)%positive) →
    heap σ' <$> regions'
    = (heap σ <$> regions) ++ (regionOf <$> keptRecords rj_name allNames rs)
    ∧ (∀ l, l ∈ regions' → (l < nextLoc σ')%positive).
Proof.
  induction rs as [|reg rs IH];
    intros allNames regions σ names' regions' σ'; simpl.
  - intros [= <- <- <-] Hold. by rewrite app_nil_r.
  - intros ([names1 regions1] & σ1 & Hstep & Hrest)%bind_Normal_inv Hold.
    unfold FSM.addRegion in Hstep. case_bool_decide as Hin.
    + apply bind_Normal_inv in Hstep as ([] & σ0 & Hemit & Hret).
      injection Hret as <- <- <-.
      destruct (emit_frame _ _ _ _ Hemit) as [[Hh Hn] _].
      apply IH in Hrest as [Hheap Hold']; [|by rewrite Hn].
      by rewrite Hheap, Hh.
    + unfold mbind, M_bind, Region_fromJson in Hstep. simpl in Hstep.
      injection Hstep as <- <- <-.
      apply IH in Hrest as [Hheap Hold'].
      2:{ simpl. intros l [Hl| ->%list_elem_of_singleton]%elem_of_app;
            [apply Hold in Hl|]; lia. }
      split; [|done]. rewrite Hheap. simpl. rewrite fmap_app. simpl.
      rewrite <- app_assoc. simpl. f_equal.
      * apply list_fmap_ext. intros i l Hl. unfold heap_new.
        rewrite decide_False; [done|].
        apply list_elem_of_lookup_2, Hold in Hl. lia.
      * unfold heap_new. by rewrite decide_True.
Qed.

(** The loop over the state records: a record whose name was seen is
    skipped; every other one becomes a state. *)
Lemma addStates_kept (sts : list State_json) :
  ∀ (allNames : gset string) (states : list State.t) σ names' states' σ',
    forEachWith sts FSM.addState (allNames, states) σ
    = (Normal (names', states'), σ') →
    states' = states ++ (State_fromJson <$> keptRecords sj_name allNames sts).
Proof.
  induction sts as [|st sts IH];
    intros allNames states σ names' states' σ'; simpl.
  - intros [= <- <- <-]. by rewrite app_nil_r.
  - intros ([names1 states1] & σ1 & Hstep & Hrest)%bind_Normal_inv.
    unfold FSM.addState in Hstep. case_bool_decide as Hin.
    + apply bind_Normal_inv in Hstep as ([] & σ0 & Hemit & Hret).
      injection Hret as <- <- <-. by apply IH in Hrest.
    + injection Hstep as <- <- <-. apply IH in Hrest as ->.
      by rewrite <- app_assoc.
Qed.

(** Binding leaves a transition as declared, whether it reports or
    not. *)
Lemma bindTransition_asDeclared (fsm : FSM.t) t σ t' σ' :
  FSM.bindTransition fsm t σ = (Normal t', σ') →
  transitionAsDeclared (FSM._states fsm) t t'.
Proof.
  unfold FSM.bindTransition.
  intros (t1 & σ1 & Htarget & Hrest)%bind_Normal_inv.
  apply bind_Normal_inv in Hrest as (ev & σ2 & Hev & Hrest).
  apply bind_Normal_inv in Hrest as (acts & σ3 & Hacts & Hret).
  injection Hret as <- <-.
  assert (Ht1 :
    Transition.targetName t1 = Transition.targetName t
    ∧ Transition.target t1
      = match findStateNamed (Transition.targetName t) (FSM._states fsm) with
        | Some i => Some i
        | None => Transition.target t
        end
    ∧ Transition.onEvent t1 = Transition.onEvent t
    ∧ Transition.actions t1 = Transition.actions t).
  { unfold Transition_bindTarget in Htarget.
    destruct (findStateNamed _ _) as [i|].
    - by injection Htarget as <- <-.
    - apply bind_Normal_inv in Htarget as ([] & σ0 & _ & Hret).
      by injection Hret as <- <-. }
  destruct Ht1 as (Hname & Htgt & Hon & Hact).
  assert (Hspec :
    EventSpec._evtType ev = EventSpec._evtType (Transition.onEvent t1)
    ∧ EventSpec._regionName ev = EventSpec._regionName (Transition.onEvent t1)).
  { rewrite EventSpec_bindRegion_eq in Hev.
    destruct (decide _); [by injection Hev as <- <-|].
    destruct (findRegionNamed _ _ _); [by injection Hev as <- <-|].
    destruct (decide _); [by injection Hev as <- <-|].
    destruct (errThrows σ1); [done|]. by injection Hev as <- <-. }
  destruct Hspec as (Hty & Hrn).
  split_and!; simpl; [done|done|by rewrite Hty, Hon|by rewrite Hrn, Hon|].
  rewrite <- Hact. apply forEachBind_Forall2 in Hacts.
  eapply Forall2_impl; [exact Hacts|].
  intros a a' (σ4 & σ5 & Ha). rewrite Action_bindRegion_eq in Ha.
  destruct (findRegionNamed _ _ _); [by injection Ha as <- <-|].
  destruct (decide _); [by injection Ha as <- <-|].
  destruct (errThrows σ4); [done|]. by injection Ha as <- <-.
Qed.

(** The constructor leaves every state as declared. *)
Lemma new_asDeclared regions states σ fsm σ' :
  FSM.new regions states σ = (Normal fsm, σ') →
  Forall2 (stateAsDeclared states) states (FSM._states fsm).
Proof.
  unfold FSM.new, FSM._finalize.
  remember (match states with [] => None | _ :: _ => Some 0%nat end)
    as start eqn:Hstartdef.
  remember (if bool_decide _ then _ else _) as this eqn:Hthis.
  assert (Hst : FSM._states this = states) by (subst this; by case_bool_decide).
  clear Hthis. rewrite Hst.
  intros (states' & σ1 & Hrun & Hret)%bind_Normal_inv.
  injection Hret as <- <-. simpl.
  apply forEachBind_Forall2 in Hrun.
  eapply Forall2_impl; [exact Hrun|].
  intros st st' (σ2 & σ3 & Hbody).
  apply bind_Normal_inv in Hbody as (ts & σ4 & Hts & Hret).
  injection Hret as <- <-. split; [done|]. simpl.
  apply forEachBind_Forall2 in Hts.
  eapply Forall2_impl; [exact Hts|].
  intros t t' (σ5 & σ6 & Ht). rewrite <- Hst.
  by eapply bindTransition_asDeclared.
Qed.

(** What [FSM.fromJson] makes of the records: the regions are the
    objects made from the first region record of each name, in order,
    and the states are those the first state record of each name
    declares. *)
Lemma fromJson_keeps_first data σ fsm σ' :
  FSM.fromJson data σ = (Normal fsm, σ') →
  heap σ' <$> FSM._regions fsm
  = regionOf <$> firstOfName rj_name (default [] (fj_regions data))
  ∧ Forall2 (stateAsDeclared (declaredStates data))
            (declaredStates data) (FSM._states fsm).
Proof.
  unfold FSM.fromJson, declaredStates. intros Hrun.
  apply bind_Normal_inv in Hrun as ([names1 regions] & σ1 & Hrun1 & Hrun).
  apply bind_Normal_inv in Hrun as ([names2 states] & σ2 & Hrun2 & Hrun).
  assert (Hregions :
    heap σ1 <$> regions
    = regionOf <$> firstOfName rj_name (default [] (fj_regions data))
    ∧ ∀ l, l ∈ regions → (l < nextLoc σ1)%positive).
  { destruct (fj_regions data) as [rs|]; simpl.
    - apply addRegions_kept in Hrun1 as [Hheap Hold];
        [|by intros l ?%elem_of_nil].
      by rewrite keptRecords_empty in Hheap.
    - apply bind_Normal_inv in Hrun1 as ([] & σ0 & _ & Hret).
      injection Hret as <- <- <-. split; [done|]. by intros l ?%elem_of_nil. }
  destruct Hregions as [Hheap Hold].
  assert (Hstates :
    states = State_fromJson <$> firstOfName sj_name (default [] (fj_states data))
    ∧ onlyAllocates σ1 σ2).
  { destruct (fj_states data) as [sts|]; simpl.
    - apply bind_Normal_inv in Hrun2 as ([] & σ0 & Hfirst & Hrun2).
      assert (H0 : onlyAllocates σ1 σ0).
      { revert Hfirst. case_bool_decide.
        - apply keeps_emit_alloc.
        - by intros [= <-]. }
      assert (H1 : onlyAllocates σ0 σ2).
      { eapply (keeps_forEachWith onlyAllocates); [|exact Hrun2].
        intros. apply keeps_addState. }
      apply addStates_kept in Hrun2. rewrite keptRecords_empty in Hrun2.
      split; [done|by etrans].
    - apply bind_Normal_inv in Hrun2 as ([] & σ0 & Hemit & Hret).
      injection Hret as <- <- <-. split; [done|].
      by apply (keeps_emit_alloc _ _ _ _ Hemit). }
  destruct Hstates as [-> Halloc12].
  assert (Halloc2 : onlyAllocates σ2 σ').
  { eapply (keeps_new onlyAllocates); [|exact Hrun]. apply keeps_emit_alloc. }
  assert (Halloc : onlyAllocates σ1 σ') by (by etrans).
  destruct (new_fields _ _ _ _ _ Hrun) as (Hr & _).
  split; [|by eapply new_asDeclared].
  rewrite Hr, <- Hheap. apply list_fmap_ext. intros i l Hl.
  destruct Halloc as (_ & Hkept & _). apply Hkept, Hold.
  by eapply list_elem_of_lookup_2.
Qed.

(** ** C5: loads that fail *)

(** C5, amended.  A response that is not OK is reported, and the FSM
    reference is then cleared if the report returns, kept if it throws.
    A description that is not well formed (a list that is not an array,
    an empty state list, a name declared twice, a name that does not
    resolve) makes [FSM.fromJson] report an error.  If the report
    returns, [FSM.fromJson] still returns an FSM, and the interactor
    installs it: its regions are the objects made from the region
    records and its states those that the state records declare, of the
    records of one name the first, in the order of the records (none
    when the list is not an array); a transition keeps its target name,
    the event type and region name of its event specification and its
    actions, and its target is the state of the target name when there
    is one; the FSM is in its first state, or in none when it has no
    state.  If the report throws, the load ends there and the
    interactor keeps the FSM reference it had. *)
Theorem C5_load_failure_reported (jsonLoc : string) (this : FSMInteractor.t)
    (σ : World) (data : FSM_json) :
  ¬ wellFormed data →
  (let '(this', σ') := FSMInteractor.afterLoad jsonLoc response_not_ok this σ in
   errors σ' = errors σ ++ [loadFailedMessage jsonLoc]
   ∧ FSMInteractor._fsm this'
     = if errThrows σ then FSMInteractor._fsm this else None)
  ∧ ∃ o σ1,
      FSM.fromJson data σ = (o, σ1)
      ∧ errors σ `prefix_of` errors σ1
      ∧ errors σ1 ≠ errors σ
      ∧ let '(this', σ') :=
          FSMInteractor.afterLoad jsonLoc (body_json data) this σ in
        errors σ' = errors σ1
        ∧ if errThrows σ
          then (∃ msg, o = Thrown msg) ∧ this' = this
          else ∃ fsm, o = Normal fsm
                      ∧ this' = FSMInteractor.set_fsm (Some fsm) this
                      ∧ heap σ' <$> FSM._regions fsm
                        = regionOf
                            <$> firstOfName rj_name
                                  (default [] (fj_regions data))
                      ∧ Forall2 (stateAsDeclared (declaredStates data))
                                (declaredStates data) (FSM._states fsm)
                      ∧ FSM._currentState fsm
                        = (if FSM._states fsm is [] then None
                           else Some 0%nat).
Proof.
  intros Hbad. split.
  - unfold FSMInteractor.afterLoad, FSMInteractor.startLoadFromJson.
    unfold mbind, M_bind, Err.emit, loadFailedMessage.
    by destruct (errThrows σ).
  - destruct (FSM.fromJson data σ) as [o σ1] eqn:Hrun.
    exists o, σ1.
    pose proof (fromJson_reports _ _ _ _ Hrun Hbad) as Hrep.
    destruct (lawful_fromJson data _ _ _ Hrun) as (Hpre & Hmode & Ht & Hn).
    split_and!; [done|done|done|].
    unfold FSMInteractor.afterLoad, FSMInteractor.startLoadFromJson.
    unfold mbind at 1. unfold M_bind at 1. rewrite Hrun.
    destruct o as [fsm|msg].
    + destruct (errThrows σ) eqn:Hthrows.
      { exfalso. by apply Hrep, (Hn fsm). }
      destruct (fromJson_keeps_first _ _ _ _ Hrun) as (Hregions & Hstates).
      destruct (fromJson_builds _ _ _ _ Hrun) as (_ & _ & _ & _ & _ & _ & Hcur & _).
      unfold mbind, M_bind, FSMInteractor.damage. simpl.
      destruct (FSMInteractor._parent this); simpl;
        (split; [done|]); exists fsm; by split_and!.
    + destruct (Ht msg eq_refl) as [-> _]. eauto.
Qed.

(** A [fetch] that rejects and a body that is not JSON are handled by
    no statement of [startLoadFromJson]: nothing is reported and the
    interactor is as it was. *)
Lemma afterLoad_unhandled (jsonLoc reason : string) (this : FSMInteractor.t)
    (σ : World) :
  FSMInteractor.afterLoad jsonLoc (fetch_rejected reason) this σ = (this, σ)
  ∧ FSMInteractor.afterLoad jsonLoc (body_not_json reason) this σ = (this, σ).
Proof. done. Qed.

(** A description with the region A and the state idle declared twice,
    a target that names no state and an action that names no region,
    loaded over the example interactor in the mode where the report
    returns: four errors are reported, and an FSM is installed that has
    the first region A, as a new object, and the first state idle, whose
    transition has no target and whose action has no region. *)
Lemma C5_load_failure_reported_witness :
  ¬ wellFormed ex_malformed
  ∧ FSMInteractor.afterLoad "fsm.json" (body_json ex_malformed) ex_interactor
      (ex_world false)
    = (FSMInteractor.set_fsm
         (Some (FSM.mk [3%positive]
                  [ State.mk "idle"
                      [ Transition.mk
                          (EventSpec.mk press "A" (Some 3%positive))
                          [ Action.mk set_image "Z" "x.png" None ]
                          "gone" None ] ]
                  (Some 0%nat) (Some 0%nat)))
         ex_interactor,
       mkWorld (heap_new 3%positive (Region.mk "A" 0 0 10 10 EmptyString)
                  ex_heap)
               4%positive []
               ["Duplicate region 'A' declaration in FSM";
                "Duplicate state 'idle' declaration in FSM";
                "State 'gone' in transition does not match any state.";
                "Region 'Z' in action does not match any region."]
               false [] [] [])
  ∧ ∃ o σ1,
      FSM.fromJson ex_malformed (ex_world false) = (o, σ1)
      ∧ errors σ1 ≠ errors (ex_world false).
Proof.
  assert (Hbad : ¬ wellFormed ex_malformed).
  { intros (rs & sts & _ & [= <-] & _ & _ & Hnd & _).
    apply NoDup_cons in Hnd as [Hnotin _]. apply Hnotin, list_elem_of_here. }
  split; [done|]. split; [reflexivity|].
  destruct (C5_load_failure_reported "fsm.json" ex_interactor (ex_world false)
              ex_malformed Hbad) as (_ & o & σ1 & Hrun & _ & Hne & _).
  by exists o, σ1.
Defined.

(** The claim on loads that fail does not hold for a description with
    an empty state list loaded over the example interactor.  If the
    report returns, an FSM without states is installed; if it throws,
    the FSM installed before stays.  In neither case is the interactor
    left without an FSM. *)
Lemma C5_load_failure_counterexample :
  ¬ load_failure_claim "fsm.json" (body_json ex_no_states) ex_interactor
                       (ex_world false)
  ∧ ¬ load_failure_claim "fsm.json" (body_json ex_no_states) ex_interactor
                         (ex_world true)
  ∧ FSMInteractor._fsm
      (FSMInteractor.afterLoad "fsm.json" (body_json ex_no_states)
                               ex_interactor (ex_world false)).1
    = Some (FSM.mk [] [] None None)
  ∧ FSMInteractor._fsm
      (FSMInteractor.afterLoad "fsm.json" (body_json ex_no_states)
                               ex_interactor (ex_world true)).1
    = Some ex_fsm.
Proof.
  split_and!.
  - intros [_ Hfsm]. vm_compute in Hfsm. done.
  - intros [_ Hfsm]. vm_compute in Hfsm. done.
  - reflexivity.
  - reflexivity.
Qed.

(** X14.  Whatever the description, of the records of one name
    [FSM.fromJson] keeps the first.  The regions of the FSM it returns
    are the objects made from the first region record of each name, in
    the order of the records, and its states are those that the first
    state record of each name declares, in the order of the records:
    each has the name, the transitions and the actions of its record.
    So the FSM has no region twice, no two regions of the same name and
    no two states of the same name.  The regions are new objects, and
    the regions that existed are as they were.  The current state is the
    first state, or absent if there is none. *)
Theorem X14_fromJson_keeps_names_distinct (data : FSM_json) (σ σ' : World)
    (fsm : FSM.t) :
  FSM.fromJson data σ = (Normal fsm, σ') →
  heap σ' <$> FSM._regions fsm
  = regionOf <$> firstOfName rj_name (default [] (fj_regions data))
  ∧ Forall2 (stateAsDeclared (declaredStates data))
            (declaredStates data) (FSM._states fsm)
  ∧ NoDup (FSM._regions fsm)
  ∧ NoDup (regionNamesOf (heap σ') (FSM._regions fsm))
  ∧ NoDup (State.name <$> FSM._states fsm)
  ∧ (∀ l, l ∈ FSM._regions fsm →
          (nextLoc σ ≤ l)%positive ∧ (l < nextLoc σ')%positive)
  ∧ (∀ l, (l < nextLoc σ)%positive → heap σ' l = heap σ l)
  ∧ FSM._currentState fsm
    = (if FSM._states fsm is [] then None else Some 0%nat)
  ∧ FSM._startState fsm = FSM._currentState fsm.
Proof.
  intros Hrun.
  destruct (fromJson_builds _ _ _ _ Hrun) as (H1 & H2 & H3 & H4 & H5 & H6 & H7 & H8).
  destruct (fromJson_keeps_first _ _ _ _ Hrun) as (Hregions & Hstates).
  split_and!; try done. by apply (keeps_fromJson data _ _ _ Hrun).
Qed.

(** The region A and the state idle declared twice, in the mode where
    the report returns: one region and one state are kept, the first of
    each, and two errors are reported. *)
Lemma X14_fromJson_keeps_names_distinct_witness :
  FSM.fromJson ex_duplicates (ex_empty_world false)
  = (Normal (FSM.mk [1%positive] [State.mk "idle" []] (Some 0%nat) (Some 0%nat)),
     mkWorld (heap_new 1%positive (Region.mk "A" 0 0 10 10 EmptyString)
                (heap (ex_empty_world false)))
             2%positive []
             ["Duplicate region 'A' declaration in FSM";
              "Duplicate state 'idle' declaration in FSM"]
             false [] [] [])
  ∧ firstOfName rj_name (default [] (fj_regions ex_duplicates))
    = [ {| rj_name := "A"; rj_x := 0; rj_y := 0; rj_w := 10; rj_h := 10;
           rj_imageLoc := EmptyString |} ]
  ∧ heap_new 1%positive (Region.mk "A" 0 0 10 10 EmptyString)
      (heap (ex_empty_world false)) <$> [1%positive]
    = regionOf <$> firstOfName rj_name (default [] (fj_regions ex_duplicates)).
Proof.
  assert (Hrun :
    FSM.fromJson ex_duplicates (ex_empty_world false)
    = (Normal (FSM.mk [1%positive] [State.mk "idle" []] (Some 0%nat) (Some 0%nat)),
       mkWorld (heap_new 1%positive (Region.mk "A" 0 0 10 10 EmptyString)
                  (heap (ex_empty_world false)))
               2%positive []
               ["Duplicate region 'A' declaration in FSM";
                "Duplicate state 'idle' declaration in FSM"]
               false [] [] [])) by reflexivity.
  split; [exact Hrun|]. split; [reflexivity|].
  by destruct (X14_fromJson_keeps_names_distinct _ _ _ _ Hrun) as (Hregions & _).
Defined.

(** ** Well-formed descriptions *)

Lemma forEachBind_run {A} (Q : A → Prop) (body : A → M A) (l : list A) σ :
  (∀ a, a ∈ l → ∃ a', body a σ = (Normal a', σ) ∧ Q a') →
  ∃ l', forEachBind l body σ = (Normal l', σ)
        ∧ Forall Q l' ∧ length l' = length l.
Proof.
  induction l as [|a l IH]; intros Hbody; simpl.
  - exists []. split_and!; [done|constructor|done].
  - destruct (Hbody a) as (a' & Ha & HQ); [apply list_elem_of_here|].
    destruct IH as (l' & Hl & HQs & Hlen).
    { intros b Hb. apply Hbody. by apply list_elem_of_further. }
    exists (a' :: l'). unfold mbind, M_bind. rewrite Ha, Hl.
    split_and!; [done|by constructor|simpl; by rewrite Hlen].
Qed.

(** A transition that binds quietly is bound in the world as it is, and
    leaves with a target among the states. *)
Lemma bindTransition_run (fsm : FSM.t) trans σ :
  bindsQuietly (heap σ) (FSM._regions fsm) (FSM._states fsm) trans →
  ∃ trans' i,
    FSM.bindTransition fsm trans σ = (Normal trans', σ)
    ∧ Transition.target trans' = Some i
    ∧ (i < length (FSM._states fsm))%nat.
Proof.
  intros ([i Htarget] & Hevent & Hactions).
  unfold FSM.bindTransition, Transition_bindTarget. rewrite Htarget.
  unfold mbind at 1. unfold M_bind at 1. simpl.
  assert (Hev : ∃ ev,
    EventSpec.bindRegion (FSM._regions fsm) (Transition.onEvent trans) σ
    = (Normal ev, σ)).
  { rewrite EventSpec_bindRegion_eq.
    destruct (decide _) as [|Hstar]; [by eexists|].
    destruct (findRegionNamed (heap σ)
                (EventSpec._regionName (Transition.onEvent trans))
                (FSM._regions fsm)) as [R|] eqn:Hfind; [by eexists|].
    destruct (decide _) as [|Hneeds]; [by eexists|].
    exfalso. destruct Hevent as [?|[[? [=]]|?]]; done. }
  destruct Hev as (ev & Hev). rewrite (bind_Normal _ _ _ _ _ Hev).
  destruct (forEachBind_run (λ _, True)
              (Action.bindRegion (FSM._regions fsm))
              (Transition.actions trans) σ) as (acts & Hacts & _).
  { intros a Ha. rewrite Forall_forall in Hactions.
    specialize (Hactions a Ha). rewrite Action_bindRegion_eq.
    destruct (findRegionNamed (heap σ) (Action._onRegionName a)
                (FSM._regions fsm)) as [R|] eqn:Hfind; [by eexists|].
    destruct (decide _) as [|Hfree]; [by eexists|].
    exfalso. destruct Hactions as [[? [=]]|?]; tauto. }
  unfold mbind, M_bind. rewrite Hacts.
  eexists _, i. split_and!; [done|done|by eapply findStateNamed_lt].
Qed.

(** The constructor, given transitions that all bind quietly, returns
    in the world as it is an FSM whose transitions all have a target
    among its states. *)
Lemma new_run regions states σ :
  Forall (λ st, Forall (bindsQuietly (heap σ) regions states)
                       (State.transitions st)) states →
  ∃ fsm, FSM.new regions states σ = (Normal fsm, σ)
         ∧ fullyBound fsm ∧ refsValid fsm
         ∧ length (FSM._states fsm) = length states
         ∧ FSM._currentState fsm
           = match states with [] => None | _ :: _ => Some 0%nat end.
Proof.
  intros Hall. unfold FSM.new, FSM._finalize.
  set (start := match states with [] => None | _ :: _ => Some 0%nat end).
  set (this := if bool_decide _ then _ else _).
  assert (Hst : FSM._states this = states) by (unfold this; by case_bool_decide).
  assert (Hrg : FSM._regions this = regions)
    by (unfold this; by case_bool_decide).
  assert (Hcur : FSM._currentState this = start)
    by (unfold this; by case_bool_decide).
  assert (Hstart : FSM._startState this = start)
    by (unfold this; by case_bool_decide).
  rewrite Hst.
  destruct (forEachBind_run
              (λ state', Forall (λ t, ∃ i, Transition.target t = Some i
                                           ∧ (i < length states)%nat)
                                (State.transitions state'))
              (λ state,
                 ts ← forEachBind (State.transitions state)
                        (FSM.bindTransition this);
                 mret (State.set_transitions ts state)) states σ)
    as (states' & Hrun & HQ & Hlen).
  { intros state Hstate. rewrite Forall_forall in Hall.
    specialize (Hall state Hstate).
    destruct (forEachBind_run
                (λ t, ∃ i, Transition.target t = Some i
                           ∧ (i < length states)%nat)
                (FSM.bindTransition this)
                (State.transitions state) σ) as (ts & Hts & HQts & _).
    { intros t Ht. rewrite Forall_forall in Hall.
      destruct (bindTransition_run this t σ) as (t' & i & Hbind & Htgt & Hlt).
      { rewrite Hst, Hrg. by apply Hall. }
      exists t'. split; [done|]. exists i. by rewrite Hst in Hlt. }
    rewrite (bind_Normal _ _ _ _ _ Hts). eexists. split; [done|]. done. }
  rewrite (bind_Normal _ _ _ _ _ Hrun). eexists. split; [done|].
  assert (Hin : ∀ st, start = Some st → (st < length states)%nat).
  { intros st. unfold start. destruct states; [done|].
    intros [= <-]. simpl. lia. }
  split_and!.
  - unfold fullyBound. simpl. eapply Forall_impl; [exact HQ|].
    intros st' Hst'. eapply Forall_impl; [exact Hst'|].
    intros t (i & -> & _). by eexists.
  - unfold refsValid. simpl. rewrite Hcur, Hstart, Hlen.
    split_and!; [done|done|].
    eapply Forall_impl; [exact HQ|].
    intros st' Hst'. eapply Forall_impl; [exact Hst'|].
    intros t (i & Ht & Hlt) j. rewrite Ht. by intros [= <-].
  - done.
  - simpl. by rewrite Hcur.
Qed.

Lemma resolves_bindsQuietly hp regions (sts : list State_json)
    (rnames : list string) (tj : Transition_json) :
  regionNamesOf hp regions = rnames →
  resolvesTransition rnames (sj_name <$> sts) tj →
  bindsQuietly hp regions (State_fromJson <$> sts) (Transition_fromJson tj).
Proof.
  unfold regionNamesOf. intros Hnames (Htarget & Hevent & Hactions). split_and!.
  - apply findStateNamed_is_Some. by rewrite <- list_fmap_compose.
  - simpl. rewrite findRegionNamed_is_Some, Hnames. done.
  - simpl. rewrite Forall_fmap.
    eapply Forall_impl; [exact Hactions|].
    intros a Ha. simpl. rewrite findRegionNamed_is_Some, Hnames. done.
Qed.

Lemma addRegions_run (rs : list Region_json) :
  ∀ (allNames : gset string) (regions : list loc) σ (N : list string),
    (∀ n, n ∈ allNames ↔ n ∈ N) →
    NoDup (N ++ (rj_name <$> rs)) →
    ∃ acc' σ',
      forEachWith rs FSM.addRegion (allNames, regions) σ = (Normal acc', σ')
      ∧ errors σ' = errors σ.
Proof.
  induction rs as [|reg rs IH]; intros allNames regions σ N Hset Hnd; simpl.
  - by eexists _, _.
  - assert (Hfresh : rj_name reg ∉ allNames).
    { rewrite Hset. apply NoDup_app in Hnd as (_ & Hdisj & _).
      intros Hin. apply (Hdisj _ Hin), list_elem_of_here. }
    unfold mbind at 1. unfold M_bind at 1. unfold FSM.addRegion at 1.
    rewrite bool_decide_eq_false_2 by done.
    destruct (Region_fromJson_allocates reg σ) as (σ1 & Hrun & _ & Herr & _).
    unfold mbind at 1. unfold M_bind at 1. rewrite Hrun. simpl.
    destruct (IH ({[rj_name reg]} ∪ allNames) (regions ++ [nextLoc σ]) σ1
                 (N ++ [rj_name reg])) as (acc' & σ' & Hrest & Herr').
    { intros n. rewrite elem_of_union, elem_of_singleton, Hset, elem_of_app,
        list_elem_of_singleton. tauto. }
    { by rewrite <- app_assoc. }
    exists acc', σ'. split; [done|congruence].
Qed.

Lemma addStates_run (sts : list State_json) :
  ∀ (allNames : gset string) (states : list State.t) σ,
    (∀ n, n ∈ allNames ↔ n ∈ State.name <$> states) →
    NoDup ((State.name <$> states) ++ (sj_name <$> sts)) →
    ∃ allNames',
      forEachWith sts FSM.addState (allNames, states) σ
      = (Normal (allNames', states ++ (State_fromJson <$> sts)), σ).
Proof.
  induction sts as [|st sts IH]; intros allNames states σ Hset Hnd; simpl.
  - exists allNames. by rewrite app_nil_r.
  - assert (Hfresh : sj_name st ∉ allNames).
    { rewrite Hset. apply NoDup_app in Hnd as (_ & Hdisj & _).
      intros Hin. apply (Hdisj _ Hin), list_elem_of_here. }
    unfold mbind at 1. unfold M_bind at 1. unfold FSM.addState at 1.
    rewrite bool_decide_eq_false_2 by done. simpl.
    destruct (IH ({[sj_name st]} ∪ allNames) (states ++ [State_fromJson st]) σ)
      as (allNames' & Hrest).
    { intros n. rewrite elem_of_union, elem_of_singleton, Hset, fmap_app,
        elem_of_app. simpl. rewrite list_elem_of_singleton. tauto. }
    { rewrite fmap_app. simpl. by rewrite <- app_assoc. }
    exists allNames'. rewrite Hrest. by rewrite <- app_assoc.
Qed.

(** A well-formed description is built without report, in either mode
    of [Err.emit]; the FSM is in its first state and every transition
    has a target among the states. *)
Lemma fromJson_run data σ :
  wellFormed data →
  ∃ fsm σ',
    FSM.fromJson data σ = (Normal fsm, σ') ∧ errors σ' = errors σ
    ∧ live fsm ∧ fullyBound fsm ∧ refsValid fsm.
Proof.
  intros (rs & sts & Hrs & Hsts & Hne & Hnd1 & Hnd2 & Hall).
  unfold FSM.fromJson. rewrite Hrs, Hsts.
  destruct (addRegions_run rs ∅ [] σ []) as ([names1 regions] & σ1 & Hrun1 & Herr1).
  { intros n. rewrite elem_of_nil, elem_of_empty. tauto. }
  { done. }
  pose proof Hrun1 as Hq.
  eapply (addRegions_quiet rs _ _ _ _ _ _ []) in Hq as [_ Hnames];
    [|done| |done|by intros l ?%elem_of_nil|apply NoDup_nil_2].
  2:{ intros n. rewrite elem_of_nil, elem_of_empty. tauto. }
  simpl in Hnames.
  rewrite (bind_Normal _ _ _ _ _ Hrun1). simpl.
  destruct (addStates_run sts ∅ [] σ1) as (names2 & Hrun2).
  { intros n. simpl. rewrite elem_of_nil, elem_of_empty. tauto. }
  { done. }
  assert (Hphase2 :
    ((if bool_decide (length sts = 0%nat)
      then Err.emit "No states provide for FSM in FSM.fromJson()"
      else mret ()) ;; forEachWith sts FSM.addState (∅, [])) σ1
    = (Normal (names2, State_fromJson <$> sts), σ1)).
  { rewrite bool_decide_eq_false_2 by (by destruct sts). exact Hrun2. }
  rewrite (bind_Normal _ _ _ _ _ Hphase2). simpl.
  destruct (new_run regions (State_fromJson <$> sts) σ1)
    as (fsm & Hnew & Hbound & Hvalid & Hlen & Hcur).
  { rewrite Forall_fmap. eapply Forall_impl; [exact Hall|].
    intros st Hst. simpl. rewrite Forall_fmap.
    eapply Forall_impl; [exact Hst|]. intros tj Htj.
    by eapply resolves_bindsQuietly. }
  exists fsm, σ1. split_and!; try done.
  rewrite length_fmap in Hlen.
  destruct (lookup_lt_is_Some_2 (FSM._states fsm) 0%nat) as [state Hstate].
  { rewrite Hlen. destruct sts; [done|]. simpl. lia. }
  exists 0%nat, state. split; [|done].
  rewrite Hcur. by destruct sts.
Qed.

(** X15.  [FSM.fromJson] returns without a report exactly for the
    descriptions that are well formed: two arrays, at least one state,
    no region name and no state name declared twice, every target the
    name of a state, and every region name of an event specification or
    of an action the name of a region unless the object needs none.
    This is so whether [Err.emit] returns or throws. *)
Theorem X15_fromJson_quiet_iff_wellFormed (data : FSM_json) (σ : World) :
  wellFormed data
  ↔ ∃ fsm σ', FSM.fromJson data σ = (Normal fsm, σ') ∧ errors σ' = errors σ.
Proof.
  split.
  - intros Hwf. destruct (fromJson_run data σ Hwf) as (fsm & σ' & Hrun & Hq & _).
    by exists fsm, σ'.
  - intros (fsm & σ' & Hrun & Hq). by eapply fromJson_quiet.
Qed.

(** ** An FSM that stays alive *)

Lemma actOnEvent_live evtType region this σ this' σ' :
  live this ∧ fullyBound this ∧ refsValid this →
  FSM.actOnEvent evtType region this σ = (Normal this', σ') →
  live this' ∧ fullyBound this' ∧ refsValid this'.
Proof.
  intros (Hlive & Hbound & Hvalid) Hrun.
  split_and!; [| |by eapply actOnEvent_refsValid].
  - destruct (actOnEvent_outcome evtType region this σ)
      as [Hsame|(st & trans & Hcur & Hin & _ & Hstep)].
    + rewrite Hsame in Hrun. by injection Hrun as <- _.
    + rewrite Hstep in Hrun. injection Hrun as <- _.
      unfold FSM.transitionsOf in Hin.
      destruct (FSM._states this !! st) as [state|] eqn:Hstate;
        [|by apply elem_of_nil in Hin].
      apply list_elem_of_lookup_2 in Hstate.
      unfold fullyBound in Hbound. rewrite Forall_forall in Hbound.
      pose proof (Hbound state Hstate) as Hts.
      rewrite Forall_forall in Hts. destruct (Hts trans Hin) as [j Hj].
      destruct Hvalid as (_ & _ & Htargets).
      rewrite Forall_forall in Htargets. specialize (Htargets state Hstate).
      rewrite Forall_forall in Htargets.
      specialize (Htargets trans Hin j Hj).
      apply lookup_lt_is_Some_2 in Htargets as [state' Hstate'].
      exists j, state'. simpl. by rewrite Hj.
  - destruct (actOnEvent_Normal evtType region this σ)
      as (this'' & σ'' & Hrun' & _ & _ & _ & Hsts & _).
    rewrite Hrun in Hrun'. injection Hrun' as <- _.
    unfold fullyBound. by rewrite Hsts.
Qed.

(** X16.  An FSM that [FSM.fromJson] built without a report never
    stops: after any sequence of events, delivered in any world, its
    current state is a state of its array. *)
Theorem X16_quietly_built_fsm_stays_live (data : FSM_json) (σ σ' : World)
    (fsm : FSM.t) (events : list (EventType * option loc))
    (σ1 σ2 : World) (fsm' : FSM.t) :
  FSM.fromJson data σ = (Normal fsm, σ') →
  errors σ' = errors σ →
  actOnEvents events fsm σ1 = (Normal fsm', σ2) →
  live fsm'.
Proof.
  intros Hrun Hquiet Hevents.
  pose proof (fromJson_quiet _ _ _ _ Hrun Hquiet) as Hwf.
  destruct (fromJson_run data σ Hwf)
    as (fsm0 & σ0 & Hrun0 & _ & Hlive & Hbound & Hvalid).
  rewrite Hrun in Hrun0. injection Hrun0 as <- _.
  apply (actOnEvents_invariant
           (λ f, live f ∧ fullyBound f ∧ refsValid f)
           events fsm fsm' σ1 σ2); [|done|done].
  intros. by eapply actOnEvent_live.
Qed.

Lemma X16_quietly_built_fsm_stays_live_witness :
  FSM.fromJson ex_description (ex_empty_world false)
  = (Normal ex_fsm, ex_loaded_world false)
  ∧ errors (ex_loaded_world false) = errors (ex_empty_world false)
  ∧ ∃ fsm' σ2,
      actOnEvents [(press, Some 1%positive); (release, Some 1%positive);
                   (release_none, None)] ex_fsm (ex_loaded_world false)
      = (Normal fsm', σ2)
      ∧ live fsm'.
Proof.
  assert (Hrun : FSM.fromJson ex_description (ex_empty_world false)
                 = (Normal ex_fsm, ex_loaded_world false)) by reflexivity.
  split; [exact Hrun|]. split; [reflexivity|].
  destruct (actOnEvents_Normal
              [(press, Some 1%positive); (release, Some 1%positive);
               (release_none, None)] ex_fsm (ex_loaded_world false))
    as (fsm' & σ2 & Hevents).
  exists fsm', σ2. split; [exact Hevents|].
  exact (X16_quietly_built_fsm_stays_live _ _ _ _ _ _ _ _
           Hrun eq_refl Hevents).
Defined.

(** ** Loading over an interactor in use *)

Lemma list_difference_disjoint (l k : list loc) :
  (∀ x, x ∈ l → x ∉ k) → list_difference l k = l.
Proof.
  induction l as [|a l IH]; intros Hdisj; simpl; [done|].
  destruct (decide_rel elem_of a k) as [Hin|_].
  - exfalso. by apply (Hdisj a (list_elem_of_here _ _)).
  - f_equal. apply IH. intros x Hx. apply Hdisj. by apply list_elem_of_further.
Qed.

(** What a load whose body is a description comes to, when it returns:
    the FSM built from the description is installed over the receiver,
    and the parent, if any, is told of the damage. *)
Lemma load_installs (jsonLoc : string) (data : FSM_json)
    (this this1 : FSMInteractor.t) (σ σ1 : World) :
  FSMInteractor.startLoadFromJson jsonLoc (body_json data) this σ
  = (Normal this1, σ1) →
  ∃ fsm σ0,
    FSM.fromJson data σ = (Normal fsm, σ0)
    ∧ this1 = FSMInteractor.set_fsm (Some fsm) this
    ∧ σ1 = match FSMInteractor._parent this with
           | Some root => notify_damage root σ0
           | None => σ0
           end.
Proof.
  unfold FSMInteractor.startLoadFromJson.
  intros (fsm & σ0 & Hbuild & Hrest)%bind_Normal_inv.
  exists fsm, σ0. split; [done|].
  unfold mbind, M_bind, FSMInteractor.damage in Hrest. simpl in Hrest.
  destruct (FSMInteractor._parent this); by injection Hrest as <- <-.
Qed.

(** X17.  The load of a well-formed description returns, in either mode
    of [Err.emit], and reports nothing.  It installs an FSM that is in
    its first state, whose regions are distinct objects made by this
    load; the position, the parent and the stored pick of the interactor
    stay.  The load ends by telling the parent, if there is one, of the
    damage; no event is delivered, and the objects that existed are as
    they were. *)
Theorem X17_load_installs_live_fsm (jsonLoc : string) (data : FSM_json)
    (this : FSMInteractor.t) (σ : World) :
  wellFormed data →
  ∃ fsm σ',
    FSMInteractor.startLoadFromJson jsonLoc (body_json data) this σ
    = (Normal (FSMInteractor.set_fsm (Some fsm) this), σ')
    ∧ errors σ' = errors σ
    ∧ live fsm
    ∧ FSM._currentState fsm = Some 0%nat
    ∧ NoDup (FSM._regions fsm)
    ∧ (∀ l, l ∈ FSM._regions fsm →
            (nextLoc σ ≤ l)%positive ∧ (l < nextLoc σ')%positive)
    ∧ (∀ root, FSMInteractor._parent this = Some root →
               ∃ before, damaged σ' = before ++ [root])
    ∧ delivered σ' = delivered σ
    ∧ (∀ l, (l < nextLoc σ)%positive → heap σ' l = heap σ l).
Proof.
  intros Hwf.
  destruct (fromJson_run data σ Hwf)
    as (fsm & σ0 & Hbuild & Hquiet & Hlive & _ & _).
  destruct (fromJson_builds _ _ _ _ Hbuild)
    as (Hnd & _ & _ & _ & _ & Hnew & Hcur & _).
  destruct (keeps_fromJson data _ _ _ Hbuild)
    as (_ & Hheap & Hconsole & Hcanvas & Hdamaged & Hdelivered).
  assert (Hfirst : FSM._currentState fsm = Some 0%nat).
  { destruct Hlive as (st & state & Hst & Hstate). rewrite Hcur in *.
    by destruct (FSM._states fsm). }
  unfold FSMInteractor.startLoadFromJson.
  rewrite (bind_Normal _ _ _ _ _ Hbuild).
  unfold mbind, M_bind, FSMInteractor.damage. simpl.
  destruct (FSMInteractor._parent this) as [root|]; simpl.
  - exists fsm, (notify_damage root σ0). simpl.
    split_and!; try done. intros ? [= <-]. by eexists.
  - exists fsm, σ0. split_and!; done.
Qed.

Lemma X17_load_installs_live_fsm_witness :
  wellFormed ex_description
  ∧ ∃ fsm σ',
      FSMInteractor.startLoadFromJson "fsm.json" (body_json ex_description)
        (FSMInteractor.new None 3 4 (Some 9%positive)) (ex_empty_world true)
      = (Normal (FSMInteractor.new (Some fsm) 3 4 (Some 9%positive)), σ')
      ∧ errors σ' = []
      ∧ (∃ before, damaged σ' = before ++ [9%positive])
      ∧ FSM._regions fsm = [1%positive; 2%positive].
Proof.
  assert (Hwf : wellFormed ex_description).
  { apply (fromJson_quiet ex_description (ex_empty_world false) ex_fsm
             (ex_loaded_world false)); reflexivity. }
  split; [exact Hwf|].
  destruct (X17_load_installs_live_fsm "fsm.json" ex_description
              (FSMInteractor.new None 3 4 (Some 9%positive))
              (ex_empty_world true) Hwf)
    as (fsm & σ' & Hload & Herr & _ & _ & _ & _ & Hdamaged & _).
  exists fsm, σ'.
  split_and!; [exact Hload|exact Herr|exact (Hdamaged _ eq_refl)|].
  vm_compute in Hload. by injection Hload as <- _.
Defined.

(** X18.  A load does not clear the stored pick.  When the load of a
    description returns over an interactor whose stored pick holds
    regions that existed before, the next raw event delivers to the new
    FSM an exit for every one of these regions, in the stored order,
    then an enter for every region of the new FSM under the pointer,
    then the events of the raw kind. *)
Theorem X18_reload_exits_stale_regions (jsonLoc : string) (data : FSM_json)
    (this this1 : FSMInteractor.t) (σ σ1 : World)
    (what : RawEvent) (localX localY : number) :
  (∀ l, l ∈ FSMInteractor.lastPickedRegions this → (l < nextLoc σ)%positive) →
  FSMInteractor.startLoadFromJson jsonLoc (body_json data) this σ
  = (Normal this1, σ1) →
  ∃ this2 σ2,
    FSMInteractor.dispatchRawEvent what localX localY this1 σ1
    = (Normal this2, σ2)
    ∧ delivered σ2
      = delivered σ
        ++ ((λ r, (exit, Some r)) <$> FSMInteractor.lastPickedRegions this)
        ++ ((λ r, (enter, Some r))
              <$> FSMInteractor.pick (heap σ1) localX localY this1)
        ++ ((λ r, (insideEvent what, Some r))
              <$> FSMInteractor.pick (heap σ1) localX localY this1)
        ++ (if decide (what = raw_release
                       ∧ FSMInteractor.pick (heap σ1) localX localY this1 = [])
            then [(release_none, None)] else []).
Proof.
  intros Hstale Hload.
  destruct (load_installs _ _ _ _ _ _ Hload) as (fsm & σ0 & Hbuild & -> & Hσ1).
  destruct (fromJson_builds _ _ _ _ Hbuild)
    as (_ & _ & _ & _ & _ & Hnew & _).
  destruct (keeps_fromJson data _ _ _ Hbuild) as (_ & _ & _ & _ & _ & Hdel0).
  assert (Hdel1 : delivered σ1 = delivered σ).
  { rewrite Hσ1. by destruct (FSMInteractor._parent this). }
  set (this1 := FSMInteractor.set_fsm (Some fsm) this) in *.
  assert (Hfsm : FSMInteractor._fsm this1 = Some fsm) by done.
  assert (Hpicked : ∀ l, l ∈ FSMInteractor.pick (heap σ1) localX localY this1 →
                         (nextLoc σ ≤ l)%positive).
  { intros l. rewrite (pick_eq _ _ _ _ _ Hfsm), elem_of_reverse,
      list_elem_of_filter. intros [_ Hl]. by apply Hnew. }
  destruct (dispatchRawEvent_run what localX localY this1 σ1 fsm Hfsm)
    as (this2 & σ2 & fsm' & Hrun & Hdel & _).
  exists this2, σ2. split; [done|].
  rewrite Hdel, Hdel1. unfold expectedEvents.
  change (FSMInteractor.lastPickedRegions this1)
    with (FSMInteractor.lastPickedRegions this).
  rewrite !list_difference_disjoint; [done| |].
  - intros l Hl Hold. apply Hpicked in Hl. apply Hstale in Hold. lia.
  - intros l Hold Hl. apply Hpicked in Hl. apply Hstale in Hold. lia.
Qed.

Lemma X18_reload_exits_stale_regions_witness :
  (∀ l, l ∈ FSMInteractor.lastPickedRegions
              (FSMInteractor.set_lastPickedRegions [2%positive; 1%positive]
                 ex_interactor) →
        (l < nextLoc (ex_world false))%positive)
  ∧ ∃ this1 σ1 this2 σ2,
      FSMInteractor.startLoadFromJson "fsm.json" (body_json ex_description)
        (FSMInteractor.set_lastPickedRegions [2%positive; 1%positive]
           ex_interactor) (ex_world false)
      = (Normal this1, σ1)
      ∧ FSMInteractor.dispatchRawEvent raw_move 8 8 this1 σ1
        = (Normal this2, σ2)
      ∧ delivered σ2
        = [(exit, Some 2%positive); (exit, Some 1%positive);
           (enter, Some 4%positive); (enter, Some 3%positive);
           (move_inside, Some 4%positive); (move_inside, Some 3%positive)].
Proof.
  assert (Hstale : ∀ l,
    l ∈ FSMInteractor.lastPickedRegions
          (FSMInteractor.set_lastPickedRegions [2%positive; 1%positive]
             ex_interactor) →
    (l < nextLoc (ex_world false))%positive).
  { simpl. intros l [-> | ->%list_elem_of_singleton]%elem_of_cons; lia. }
  split; [exact Hstale|].
  destruct (FSMInteractor.startLoadFromJson "fsm.json"
              (body_json ex_description)
              (FSMInteractor.set_lastPickedRegions [2%positive; 1%positive]
                 ex_interactor) (ex_world false))
    as [[this1|msg] σ1] eqn:Hload; [|vm_compute in Hload; discriminate].
  destruct (X18_reload_exits_stale_regions _ _ _ _ _ _ raw_move 8 8
              Hstale Hload) as (this2 & σ2 & Hrun & Hdel).
  exists this1, σ1, this2, σ2. split; [done|]. split; [exact Hrun|].
  rewrite Hdel. vm_compute in Hload. injection Hload as <- <-.
  vm_compute. reflexivity.
Defined.

(** ** An interactor without FSM *)

(** X19.  An interactor that has no FSM does nothing: any sequence of
    raw events leaves it and the world as they are (the stored pick is
    not even updated), [draw] draws nothing, and [pick] finds no
    region. *)
Theorem X19_without_fsm_nothing_happens (raws : list (RawEvent * number * number))
    (showDebugging : bool) (px py : number) (this : FSMInteractor.t) (σ : World) :
  FSMInteractor._fsm this = None →
  dispatchAll raws this σ = (Normal this, σ)
  ∧ FSMInteractor.draw showDebugging this σ = (Normal (), σ)
  ∧ FSMInteractor.pick (heap σ) px py this = [].
Proof.
  intros Hnone. split_and!.
  - unfold dispatchAll. induction raws as [|raw raws IH]; simpl; [done|].
    unfold mbind at 1. unfold M_bind at 1.
    unfold FSMInteractor.dispatchRawEvent at 1. rewrite Hnone. simpl.
    exact IH.
  - unfold FSMInteractor.draw. by rewrite Hnone.
  - unfold FSMInteractor.pick. by rewrite Hnone.
Qed.

(** The interactor after a load that met a response that is not OK, in
    the mode where the report returns. *)
Lemma X19_without_fsm_nothing_happens_witness :
  FSMInteractor._fsm
    (FSMInteractor.afterLoad "fsm.json" response_not_ok
       (FSMInteractor.set_lastPickedRegions [1%positive] ex_interactor)
       (ex_world false)).1 = None
  ∧ (let '(this', σ') :=
       FSMInteractor.afterLoad "fsm.json" response_not_ok
         (FSMInteractor.set_lastPickedRegions [1%positive] ex_interactor)
         (ex_world false) in
     dispatchAll [(raw_press, 2, 2); (raw_release, 2, 2)] this' σ'
     = (Normal this', σ')
     ∧ FSMInteractor.lastPickedRegions this' = [1%positive]).
Proof.
  split; [reflexivity|].
  destruct (FSMInteractor.afterLoad "fsm.json" response_not_ok
              (FSMInteractor.set_lastPickedRegions [1%positive] ex_interactor)
              (ex_world false)) as [this' σ'] eqn:Hload.
  assert (Hnone : FSMInteractor._fsm this' = None).
  { vm_compute in Hload. by injection Hload as <- _. }
  destruct (X19_without_fsm_nothing_happens
              [(raw_press, 2, 2); (raw_release, 2, 2)] false 0 0 this' σ'
              Hnone) as (Hrun & _).
  split; [exact Hrun|].
  vm_compute in Hload. by injection Hload as <- _.
Defined.

(** ** What [draw] paints *)

Lemma draw_loop_run (regions : list loc) (showDebugging : bool) (σ : World) :
  FSMInteractor.draw_loop regions showDebugging σ
  = (Normal (),
     mkWorld (heap σ) (nextLoc σ) (console σ) (errors σ) (errThrows σ)
             (damaged σ)
             (canvas σ ++ (regions ≫= drawnRegion (heap σ) true))
             (delivered σ)).
Proof.
  revert showDebugging σ.
  induction regions as [|reg regions IH];
    intros showDebugging [hp nl co er et da ca de]; simpl.
  - by rewrite app_nil_r.
  - unfold mbind at 1 2 3 4 5. unfold M_bind, modifyWorld, getWorld. simpl.
    rewrite IH. simpl. by rewrite <- !app_assoc.
Qed.

(** X20.  [draw] never throws, and of the world it touches the drawing
    context alone.  For each region of the FSM, in declared order, the
    context receives a save, a translation by the position of the region
    (the position of the interactor plays no part), the call that has
    the region draw itself, with the debugging display on, and a
    restore; without FSM it receives nothing.  The flag of the caller
    makes no difference. *)
Theorem X20_draw_paints_regions_only (showDebugging : bool)
    (this : FSMInteractor.t) (σ : World) :
  FSMInteractor.draw showDebugging this σ
  = (Normal (),
     mkWorld (heap σ) (nextLoc σ) (console σ) (errors σ) (errThrows σ)
             (damaged σ)
             (canvas σ
              ++ (default [] (FSM._regions <$> FSMInteractor._fsm this)
                    ≫= drawnRegion (heap σ) true))
             (delivered σ))
  ∧ FSMInteractor.draw showDebugging this σ = FSMInteractor.draw true this σ
  ∧ FSMInteractor.draw showDebugging
      (FSMInteractor.set_coords 0 0 this) σ
    = FSMInteractor.draw showDebugging this σ.
Proof.
  unfold FSMInteractor.draw. simpl.
  destruct (FSMInteractor._fsm this) as [fsm|]; simpl.
  - by rewrite !draw_loop_run.
  - destruct σ. simpl. by rewrite app_nil_r.
Qed.
